(** * Traffic microsimulation of the grid city (TrafficScene)

    A shallow embedding of the simulation core of [TrafficScene]: the
    network builder ([buildNetwork]), the car initialiser ([initCars]), the
    signal controller ([updateTrafficLights], [getTrafficLightState]),
    the per-tick car-following update ([updatePhysics]), the frame rate and
    the camera height of [animate]; and of the gesture service that
    [animate] polls ([GestureService.detect]).

    Numbers.  A JavaScript number is modelled as an exact rational ([Q]):
    [+], [-], [*], [/], comparisons, [Math.max], [Math.min], [Math.floor],
    [%] and [Math.pow] with a literal exponent are exact; binary64 rounding,
    NaN and infinities are outside the model.  The irrational functions of
    [Math] ([Math.sqrt], [Math.acos]) and [Math.PI] are operations of the
    class [JSMath]; every definition that needs them is parametric in it,
    and [approxMath] is an executable instance.

    Randomness.  [Math.random()] is an oracle: every call site receives its
    draw as an argument, indexed by the object the call is made for (grid
    node, car).  *)

From Stdlib Require Import QArith Qround Qminmax Qabs Lqa ZArith Lia.
From Stdlib Require Import List String Ascii Bool Permutation Sorted.
From Stdlib Require Import DecimalString.
Import ListNotations.


(* ================================================================== *)
(** ** JavaScript numbers                                              *)
(* ================================================================== *)

Module JS.

Open Scope Q_scope.

(** [x < y] as a boolean. *)
Definition ltb (x y : Q) : bool := negb (Qle_bool y x).
(** [x > y] *)
Definition gtb (x y : Q) : bool := ltb y x.
(** [x >= y] *)
Definition geb (x y : Q) : bool := Qle_bool y x.
(** [x === y] on numbers *)
Definition eqb (x y : Q) : bool := Qeq_bool x y.

(** Rounding toward zero, the integer quotient that [%] uses. *)
Definition trunc (x : Q) : Z := Z.quot (Qnum x) (Zpos (Qden x)).

(** [x % m]: the remainder has the sign of the dividend. *)
Definition rem (x m : Q) : Q := x - m * inject_Z (trunc (x / m)).

(** [Math.floor] *)
Definition Math_floor (x : Q) : Z := Qfloor x.

(** [Math.max], [Math.min] *)
Definition Math_max (x y : Q) : Q := if Qle_bool x y then y else x.
Definition Math_min (x y : Q) : Q := if Qle_bool x y then x else y.

(** [Math.pow(x, n)] for a literal natural exponent [n]. *)
Fixpoint Math_pow (x : Q) (n : nat) : Q :=
  match n with
  | O => 1
  | S k => x * Math_pow x k
  end.

End JS.

(** [Math.sqrt], [Math.acos] and [Math.PI]: the part of [Math] that has no
    exact rational value. *)
Class JSMath : Type := {
  Math_sqrt : Q -> Q;
  Math_acos : Q -> Q;
  Math_PI : Q
}.

(** Template literals print grid coordinates in decimal. *)
Definition num2str (n : nat) : string := NilEmpty.string_of_uint (Nat.to_uint n).

(** [s.startsWith(p)] *)
Definition startsWith (s p : string) : bool := String.prefix p s.

(** Truthiness of a [string | null | undefined] value. *)
Definition truthy (o : option string) : bool :=
  match o with
  | Some s => negb (String.eqb s EmptyString)
  | None => false
  end.

(** A truthy [string | null] used as a string. *)
Definition strOf (o : option string) : string :=
  match o with
  | Some s => s
  | None => "null"
  end.

(* ================================================================== *)
(** ** [Map<string, V>]: insertion-ordered, as JavaScript iterates it  *)
(* ================================================================== *)

Module JSMap.
Section Defs.
Variable V : Type.

Definition t := list (string * V).

Definition empty : t := [].

Fixpoint get (m : t) (k : string) : option V :=
  match m with
  | [] => None
  | (k', v) :: m' => if String.eqb k' k then Some v else get m' k
  end.

Definition has (m : t) (k : string) : bool :=
  match get m k with Some _ => true | None => false end.

(** [m.set(k, v)] replaces the value of an existing key in place and
    appends a new key at the end. *)
Fixpoint set (m : t) (k : string) (v : V) : t :=
  match m with
  | [] => [(k, v)]
  | (k', v') :: m' =>
      if String.eqb k' k then (k', v) :: m' else (k', v') :: set m' k v
  end.

Definition keys (m : t) : list string := map fst m.
Definition values (m : t) : list V := map snd m.

(** In-place mutation of the object stored under [k]. *)
Fixpoint modify (m : t) (k : string) (f : V -> V) : t :=
  match m with
  | [] => []
  | (k', v) :: m' =>
      if String.eqb k' k then (k', f v) :: m' else (k', v) :: modify m' k f
  end.

End Defs.
End JSMap.

Arguments JSMap.empty {V}.
Arguments JSMap.get {V} m k.
Arguments JSMap.has {V} m k.
Arguments JSMap.set {V} m k v.
Arguments JSMap.keys {V} m.
Arguments JSMap.values {V} m.
Arguments JSMap.modify {V} m k f.

(* ================================================================== *)
(** ** The part of three.js that the simulation calls                  *)
(* ================================================================== *)

Module THREE.
Section Geometry.
Context {M : JSMath}.
Open Scope Q_scope.

Record Vector3 : Type := vec3 { x : Q; y : Q; z : Q }.

(** Computed components are kept in lowest terms ([Qred] does not change
    the number). *)
Definition add (u w : Vector3) : Vector3 :=
  vec3 (Qred (x u + x w)) (Qred (y u + y w)) (Qred (z u + z w)).
Definition sub (u w : Vector3) : Vector3 :=
  vec3 (Qred (x u - x w)) (Qred (y u - y w)) (Qred (z u - z w)).
Definition multiplyScalar (u : Vector3) (s : Q) : Vector3 :=
  vec3 (Qred (x u * s)) (Qred (y u * s)) (Qred (z u * s)).
Definition divideScalar (u : Vector3) (s : Q) : Vector3 :=
  multiplyScalar u (1 / s).
Definition dot (u w : Vector3) : Q := x u * x w + y u * y w + z u * z w.
Definition lengthSq (u : Vector3) : Q := x u * x u + y u * y u + z u * z u.
Definition length (u : Vector3) : Q := Math_sqrt (lengthSq u).

(** [divideScalar(this.length() || 1)] *)
Definition normalize (u : Vector3) : Vector3 :=
  divideScalar u (if JS.eqb (length u) 0 then 1 else length u).

Definition distanceTo (u w : Vector3) : Q := Math_sqrt (lengthSq (sub u w)).

Definition clamp (v lo hi : Q) : Q := JS.Math_max lo (JS.Math_min hi v).

Definition angleTo (u w : Vector3) : Q :=
  let denominator := Math_sqrt (lengthSq u * lengthSq w) in
  if JS.eqb denominator 0 then Math_PI / 2
  else Math_acos (clamp (dot u w / denominator) (-1) 1).

Inductive Curve : Type :=
| LineCurve3 (v1 v2 : Vector3)
| QuadraticBezierCurve3 (v0 v1 v2 : Vector3).

Definition QuadraticBezier (t p0 p1 p2 : Q) : Q :=
  Qred ((1 - t) * (1 - t) * p0 + 2 * (1 - t) * t * p1 + t * t * p2).

Definition getPoint (c : Curve) (t : Q) : Vector3 :=
  match c with
  | LineCurve3 v1 v2 =>
      if JS.eqb t 1 then v2 else add (multiplyScalar (sub v2 v1) t) v1
  | QuadraticBezierCurve3 v0 v1 v2 =>
      vec3 (QuadraticBezier t (x v0) (x v1) (x v2))
           (QuadraticBezier t (y v0) (y v1) (y v2))
           (QuadraticBezier t (z v0) (z v1) (z v2))
  end.

(** [LineCurve3] has a tangent of its own; other curves take a central
    difference of width [0.0001], clipped to [[0, 1]]. *)
Definition getTangent (c : Curve) (t : Q) : Vector3 :=
  match c with
  | LineCurve3 v1 v2 => normalize (sub v2 v1)
  | _ =>
      let delta := 0.0001 in
      let t1 := if JS.ltb (t - delta) 0 then 0 else t - delta in
      let t2 := if JS.gtb (t + delta) 1 then 1 else t + delta in
      normalize (sub (getPoint c t2) (getPoint c t1))
  end.

Definition arcLengthDivisions : nat := 200.

(** [getLengths]: the running sum of the chords between the sample
    points [p / divisions], [p = 1 .. divisions]. *)
Fixpoint chords (c : Curve) (divisions : nat) (ps : list nat)
         (last : Vector3) (sum : Q) : Q :=
  match ps with
  | [] => sum
  | p :: ps' =>
      let current :=
        getPoint c (inject_Z (Z.of_nat p) / inject_Z (Z.of_nat divisions)) in
      chords c divisions ps' current (Qred (sum + distanceTo current last))
  end.

Definition getLength (c : Curve) : Q :=
  chords c arcLengthDivisions (seq 1 arcLengthDivisions) (getPoint c 0) 0.

End Geometry.
End THREE.

(* ================================================================== *)
(** ** 1. Scientific configuration                                     *)
(* ================================================================== *)

Open Scope Q_scope.

Definition PHYSICS_HZ : Q := 60.
Definition PHYSICS_DT : Q := 1 / PHYSICS_HZ.

Definition GRID_SIZE : nat := 3.
Definition BLOCK_SIZE : Q := 160.
Definition ROAD_WIDTH : Q := 12.
Definition LANE_OFFSET : Q := 3.0.

Definition CAR_COUNT : nat := 500.
Definition CAR_LENGTH : Q := 4.6.
Definition MIN_GAP : Q := 2.0.

Definition IDM_V0 : Q := 14.0.
Definition IDM_T : Q := 1.6.
Definition IDM_A : Q := 1.5.
Definition IDM_B : Q := 2.5.
Definition IDM_S0 : Q := 3.0.

Module THEME.
Definition CAR_FLOW : Z := 0x3b82f6.
Definition CAR_BRAKE : Z := 0xf43f5e.
Definition CAR_ACCEL : Z := 0x10b981.
Definition LIGHT_RED : Z := 0xf43f5e.
Definition LIGHT_GREEN : Z := 0x10b981.
Definition LIGHT_AMBER : Z := 0xf59e0b.
End THEME.

(* ================================================================== *)
(** ** 2. Data models                                                  *)
(* ================================================================== *)

Inductive LaneType : Type := ROAD | JUNCTION.
Inductive Direction : Type := NS | EW.
Inductive Signal : Type := GREEN | YELLOW | RED.

Definition LaneType_eqb (a b : LaneType) : bool :=
  match a, b with
  | ROAD, ROAD | JUNCTION, JUNCTION => true
  | _, _ => false
  end.

Module Lane.
Record lane : Type := mk {
  id : string;
  type : LaneType;
  path : THREE.Curve;
  len : Q;
  nextLanes : list string;
  prevLanes : list string;
  toNodeId : option string;
  direction : option Direction
}.

(** [lane.nextLanes.push(j)] *)
Definition pushNext (l : lane) (j : string) : lane :=
  mk (id l) (type l) (path l) (len l) (nextLanes l ++ [j]) (prevLanes l)
     (toNodeId l) (direction l).
End Lane.

Module Car.
Record car : Type := mk {
  id : nat;
  active : bool;
  laneId : string;
  t : Q;
  v : Q;
  a : Q;
  color : Z;
  targetLaneId : option string
}.
End Car.

(** The two signal heads are kept as the colour of their material, which is
    all that the simulation writes and reads back. *)
Module TrafficLight.
Record light : Type := mk {
  nodeId : string;
  phase : Z;
  timer : Q;
  meshNS : Z;
  meshEW : Z
}.
End TrafficLight.

Definition Lanes := JSMap.t Lane.lane.
Definition Lights := JSMap.t TrafficLight.light.

(* ================================================================== *)
(** ** 4a. Signal controller                                           *)
(* ================================================================== *)

Definition T_GREEN : Q := 10.
Definition T_YELLOW : Q := 4.
Definition T_RED_CLEAR : Q := 2.
Definition CYCLE : Q := (T_GREEN + T_YELLOW + T_RED_CLEAR) * 2.

(** The colours [(ns, ew)] chosen by the [if]-chain of
    [updateTrafficLights] for [t = light.timer % CYCLE]. *)
Definition signalColors (t : Q) : Z * Z :=
  if JS.ltb t T_GREEN then
    (THEME.LIGHT_GREEN, THEME.LIGHT_RED)
  else if JS.ltb t (T_GREEN + T_YELLOW) then
    (THEME.LIGHT_AMBER, THEME.LIGHT_RED)
  else if JS.ltb t (T_GREEN + T_YELLOW + T_RED_CLEAR) then
    (THEME.LIGHT_RED, THEME.LIGHT_RED)
  else if JS.ltb t (T_GREEN + T_YELLOW + T_RED_CLEAR + T_GREEN) then
    (THEME.LIGHT_RED, THEME.LIGHT_GREEN)
  else if JS.ltb t (T_GREEN + T_YELLOW + T_RED_CLEAR + T_GREEN + T_YELLOW) then
    (THEME.LIGHT_RED, THEME.LIGHT_AMBER)
  else
    (THEME.LIGHT_RED, THEME.LIGHT_RED).

(** The body of the [forEach] of [updateTrafficLights]. *)
Definition updateLight (dt : Q) (light : TrafficLight.light) : TrafficLight.light :=
  let timer := TrafficLight.timer light + dt in
  let t := JS.rem timer CYCLE in
  let '(ns, ew) := signalColors t in
  TrafficLight.mk (TrafficLight.nodeId light) (TrafficLight.phase light)
                  timer ns ew.

Definition updateTrafficLights (dt : Q) (lights : Lights) : Lights :=
  map (fun kv => (fst kv, updateLight dt (snd kv))) lights.

(** The colour of a signal head, read as a permission. *)
Definition signalOfColor (col : Z) : Signal :=
  if Z.eqb col THEME.LIGHT_GREEN then GREEN
  else if Z.eqb col THEME.LIGHT_AMBER then YELLOW
  else RED.

Definition getTrafficLightState (lights : Lights) (lane : Lane.lane) : Signal :=
  match Lane.type lane, Lane.toNodeId lane, Lane.direction lane with
  | ROAD, Some node, Some dir =>
      if negb (truthy (Some node)) then GREEN else
      match JSMap.get lights node with
      | None => GREEN
      | Some light =>
          signalOfColor (match dir with
                         | NS => TrafficLight.meshNS light
                         | EW => TrafficLight.meshEW light
                         end)
      end
  | _, _, _ => GREEN
  end.

(** A light as [buildNetwork] creates it: the NS head starts red and the EW
    head green, and [phase] and [timer] take one random draw each. *)
Definition newLight (nodeId : string) (rPhase rTimer : Q) : TrafficLight.light :=
  TrafficLight.mk nodeId (JS.Math_floor (rPhase * 6)) (rTimer * 10)
                  THEME.LIGHT_RED THEME.LIGHT_GREEN.

(** The NS and EW permissions that a light displays. *)
Definition permissionNS (l : TrafficLight.light) : Signal :=
  signalOfColor (TrafficLight.meshNS l).
Definition permissionEW (l : TrafficLight.light) : Signal :=
  signalOfColor (TrafficLight.meshEW l).

(* ================================================================== *)
(** ** Arrays and failure                                              *)
(* ================================================================== *)

(** A step that throws ([TypeError] on a property of [undefined]) yields
    [None]. *)
Definition bind {A B : Type} (o : option A) (f : A -> option B) : option B :=
  match o with
  | Some x => f x
  | None => None
  end.

Notation "x <- e ;; k" := (bind e (fun x => k))
  (at level 61, e at next level, right associativity).

(** [arr[k]] for an integer [k]: [undefined] out of range. *)
Definition nthZ {A : Type} (l : list A) (k : Z) : option A :=
  if Z.ltb k 0 then None else nth_error l (Z.to_nat k).

(** [arr[i] = x] for an index in range. *)
Fixpoint updateAt {A : Type} (l : list A) (i : nat) (x : A) : list A :=
  match l, i with
  | [], _ => []
  | _ :: l', O => x :: l'
  | y :: l', S i' => y :: updateAt l' i' x
  end.

(** [arr.indexOf(x)] on references, [-1] when absent. *)
Fixpoint indexOf (l : list nat) (x : nat) : Z :=
  match l with
  | [] => -1
  | y :: l' =>
      if Nat.eqb y x then 0%Z
      else let r := indexOf l' x in if Z.ltb r 0 then (-1)%Z else (r + 1)%Z
  end.

(** [arr[arr.length - 1]] *)
Definition lastOf {A : Type} (l : list A) : option A :=
  nth_error l (List.length l - 1).

(** [arr.forEach(x => body)] over an array of objects: the body of the
    [i]-th turn reads the array as the earlier turns left it, and mutates
    the object [x = arr[i]]; a turn that throws ends the loop. *)
Definition forEachStep {A : Type} (body : list A -> nat -> A -> option A)
           (arr : option (list A)) (i : nat) : option (list A) :=
  arr <- arr ;;
  x <- nth_error arr i ;;
  x' <- body arr i x ;;
  Some (updateAt arr i x').

Definition forEach {A : Type} (body : list A -> nat -> A -> option A)
           (arr : list A) : option (list A) :=
  fold_left (forEachStep body) (seq 0 (List.length arr)) (Some arr).

(* ================================================================== *)
(** ** 3. Network generation                                           *)
(* ================================================================== *)

Section Network.
Context {M : JSMath}.

Definition getNodePos (x y : nat) : THREE.Vector3 :=
  THREE.vec3 ((inject_Z (Z.of_nat x) - 1) * BLOCK_SIZE) 0
             ((inject_Z (Z.of_nat y) - 1) * BLOCK_SIZE).

Definition nodeIdOf (x z : nat) : string :=
  (num2str x ++ "_" ++ num2str z)%string.

(** A. Nodes: one traffic light for every grid cell.  [rPhase x z] and
    [rTimer x z] are the draws of [Math.random()] for [phase] and
    [timer]. *)
Definition buildLights (rPhase rTimer : nat -> nat -> Q) : Lights :=
  fold_left (fun lights x =>
    fold_left (fun lights z =>
      let nodeId := nodeIdOf x z in
      JSMap.set lights nodeId (newLight nodeId (rPhase x z) (rTimer x z)))
      (seq 0 GRID_SIZE) lights)
    (seq 0 GRID_SIZE) JSMap.empty.

(** B. Roads *)
Definition addRoadLane (lanes : Lanes) (p1 p2 : THREE.Vector3)
           (id toNode : string) (dir : Direction) : Lanes :=
  let curve := THREE.LineCurve3 p1 p2 in
  let len := THREE.getLength curve in
  JSMap.set lanes id (Lane.mk id ROAD curve len [] [] (Some toNode) (Some dir)).

Definition roadId (a b : string) : string := ("R_" ++ a ++ "_" ++ b)%string.

Definition roadsAt (lanes : Lanes) (x z : nat) : Lanes :=
  let curr := getNodePos x z in
  let nodeId := nodeIdOf x z in
  let lanes :=
    if Nat.ltb x (GRID_SIZE - 1) then
      let next := getNodePos (x + 1) z in
      let nextNodeId := nodeIdOf (x + 1) z in
      let s1 := THREE.add curr (THREE.vec3 ROAD_WIDTH 0 LANE_OFFSET) in
      let e1 := THREE.add next (THREE.vec3 (- ROAD_WIDTH) 0 LANE_OFFSET) in
      let lanes := addRoadLane lanes s1 e1 (roadId nodeId nextNodeId) nextNodeId EW in
      let s2 := THREE.add next (THREE.vec3 (- ROAD_WIDTH) 0 (- LANE_OFFSET)) in
      let e2 := THREE.add curr (THREE.vec3 ROAD_WIDTH 0 (- LANE_OFFSET)) in
      addRoadLane lanes s2 e2 (roadId nextNodeId nodeId) nodeId EW
    else lanes in
  if Nat.ltb z (GRID_SIZE - 1) then
    let next := getNodePos x (z + 1) in
    let nextNodeId := nodeIdOf x (z + 1) in
    let s1 := THREE.add curr (THREE.vec3 (- LANE_OFFSET) 0 ROAD_WIDTH) in
    let e1 := THREE.add next (THREE.vec3 (- LANE_OFFSET) 0 (- ROAD_WIDTH)) in
    let lanes := addRoadLane lanes s1 e1 (roadId nodeId nextNodeId) nextNodeId NS in
    let s2 := THREE.add next (THREE.vec3 LANE_OFFSET 0 (- ROAD_WIDTH)) in
    let e2 := THREE.add curr (THREE.vec3 LANE_OFFSET 0 ROAD_WIDTH) in
    addRoadLane lanes s2 e2 (roadId nextNodeId nodeId) nodeId NS
  else lanes.

Definition buildRoads : Lanes :=
  fold_left (fun lanes x =>
    fold_left (fun lanes z => roadsAt lanes x z) (seq 0 GRID_SIZE) lanes)
    (seq 0 GRID_SIZE) JSMap.empty.

(** C. Junctions *)

(** [`R_${inLane.toNodeId}_`] *)
Definition fromPrefix (inLane : Lane.lane) : string :=
  ("R_" ++ match Lane.toNodeId inLane with
           | Some n => n
           | None => "undefined"
           end ++ "_")%string.

Definition junctionId (inLane outLane : Lane.lane) : string :=
  ("J_" ++ Lane.id inLane ++ "_" ++ Lane.id outLane)%string.

(** [angle > Math.PI * 0.8] for the exit tangent of [inLane] and the entry
    tangent of [outLane]. *)
Definition turnAngle (inLane outLane : Lane.lane) : Q :=
  let inDir := THREE.getTangent (Lane.path inLane) 1 in
  let outDir := THREE.getTangent (Lane.path outLane) 0 in
  THREE.angleTo inDir outDir.

Definition tooSharp (inLane outLane : Lane.lane) : bool :=
  JS.gtb (turnAngle inLane outLane) (Math_PI * 0.8).

Definition newJunction (inLane outLane : Lane.lane) : Lane.lane :=
  let inDir := THREE.getTangent (Lane.path inLane) 1 in
  let p1 := THREE.getPoint (Lane.path inLane) 1 in
  let p2 := THREE.getPoint (Lane.path outLane) 0 in
  let control := THREE.add p1 (THREE.multiplyScalar inDir (ROAD_WIDTH * 1.5)) in
  let curve := THREE.QuadraticBezierCurve3 p1 control p2 in
  let jId := junctionId inLane outLane in
  Lane.mk jId JUNCTION curve (THREE.getLength curve)
          [Lane.id outLane] [Lane.id inLane] None None.

(** The body of the inner [forEach]; [inKey] is the key under which the
    object [inLane] is stored, so that [inLane.nextLanes.push(jId)] is an
    update of that entry (road ids start with [R_] and junction ids with
    [J_]: [set] never replaces a road). *)
Definition junctionStep (inKey : string) (inLane : Lane.lane)
           (lanes : Lanes) (outLane : Lane.lane) : Lanes :=
  if negb (LaneType_eqb (Lane.type outLane) ROAD) then lanes
  else if startsWith (Lane.id outLane) (fromPrefix inLane) then
    if tooSharp inLane outLane then lanes
    else
      let jId := junctionId inLane outLane in
      let lanes := JSMap.set lanes jId (newJunction inLane outLane) in
      JSMap.modify lanes inKey (fun l => Lane.pushNext l jId)
  else lanes.

(** The body of the outer [forEach]. *)
Definition junctionsFrom (lanes : Lanes) (entry : string * Lane.lane) : Lanes :=
  let '(inKey, inLane) := entry in
  if negb (LaneType_eqb (Lane.type inLane) ROAD) then lanes
  else fold_left (junctionStep inKey inLane) (JSMap.values lanes) lanes.

Definition buildJunctions (lanes : Lanes) : Lanes :=
  fold_left junctionsFrom lanes lanes.

Definition buildNetwork (rPhase rTimer : nat -> nat -> Q) : Lanes * Lights :=
  (buildJunctions buildRoads, buildLights rPhase rTimer).

End Network.

(* ================================================================== *)
(** ** 4b. Traffic logic                                               *)
(* ================================================================== *)

(** A car as [initCars] pushes it; [rLane] and [rPos] are the two draws.
    [new THREE.Color()] is white. *)
Definition newCar (i : nat) (lane : Lane.lane) (rPos : Q) : Car.car :=
  Car.mk i true (Lane.id lane) (rPos * Lane.len lane * 0.9) (IDM_V0 * 0.5) 0
         0xffffff%Z None.

Definition startLanesOf (lanes : Lanes) : list Lane.lane :=
  filter (fun l => LaneType_eqb (Lane.type l) ROAD) (JSMap.values lanes).

(** The loop of [initCars] over the indices [is]; a lane index out of range
    makes [lane.id] throw. *)
Fixpoint initCarsFrom (startLanes : list Lane.lane) (rLane rPos : nat -> Q)
         (idxs : list nat) : option (list Car.car) :=
  match idxs with
  | [] => Some []
  | i :: idxs' =>
      lane <- nthZ startLanes
                (JS.Math_floor (rLane i * inject_Z (Z.of_nat (List.length startLanes)))) ;;
      rest <- initCarsFrom startLanes rLane rPos idxs' ;;
      Some (newCar i lane (rPos i) :: rest)
  end.

Definition initCars (lanes : Lanes) (rLane rPos : nat -> Q) : option (list Car.car) :=
  initCarsFrom (startLanesOf lanes) rLane rPos (seq 0 CAR_COUNT).

(** [carsByLane]: cars are referred to by their position in [carsRef]. *)
Definition CarsByLane := JSMap.t (list nat).

Definition groupCar (m : CarsByLane) (ic : nat * Car.car) : CarsByLane :=
  let '(i, c) := ic in
  let m := if JSMap.has m (Car.laneId c) then m else JSMap.set m (Car.laneId c) [] in
  JSMap.modify m (Car.laneId c) (fun l => l ++ [i]).

Definition groupByLane (cars : list Car.car) : CarsByLane :=
  fold_left groupCar (combine (seq 0 (List.length cars)) cars) JSMap.empty.

Definition tOf (cars : list Car.car) (i : nat) : Q :=
  match nth_error cars i with
  | Some c => Car.t c
  | None => 0
  end.

(** [list.sort((a, b) => b.t - a.t)]: a stable sort by descending [t];
    [x] goes in front of the first element that the comparator does not
    put before it. *)
Fixpoint insertByT (cars : list Car.car) (x : nat) (l : list nat) : list nat :=
  match l with
  | [] => [x]
  | y :: l' =>
      if Qle_bool (tOf cars y - tOf cars x) 0 then x :: y :: l'
      else y :: insertByT cars x l'
  end.

Definition sortByT (cars : list Car.car) (l : list nat) : list nat :=
  fold_right (insertByT cars) [] l.

Definition carsByLaneOf (cars : list Car.car) : CarsByLane :=
  map (fun kv => (fst kv, sortByT cars (snd kv))) (groupByLane cars).

(** What pass 1 perceives for one car: the gap to its obstacle, the closing
    speed, and the target lane it is committed to afterwards. *)
Record Perception : Type := mkPerception {
  gap : Q;
  dv : Q;
  target : option string
}.

Section Physics.
Context {M : JSMath}.
Variable lanes : Lanes.
(** The draws of [Math.random()] in pass 1 (choice of a successor lane) and
    in pass 2 (choice of a lane to respawn on), by the [id] of the car they
    are made for. *)
Variables rTarget rRespawn : nat -> Q.

(** The last car of the target lane, when the car has a target and that
    lane is occupied. *)
Definition lastCarOn (carsByLane : CarsByLane) (cars : list Car.car)
           (target : option string) : option Car.car :=
  if truthy target then
    match JSMap.get carsByLane (strOf target) with
    | Some nextLaneCars =>
        if Nat.ltb 0 (List.length nextLaneCars) then
          j <- lastOf nextLaneCars ;; nth_error cars j
        else None
    | None => None
    end
  else None.

Definition leaderOf (carsByLane : CarsByLane) (car : Car.car) (i : nat) : option nat :=
  let lanePeers := match JSMap.get carsByLane (Car.laneId car) with
                   | Some l => l
                   | None => []
                   end in
  let idx := indexOf lanePeers i in
  if Z.ltb 0 idx then nthZ lanePeers (idx - 1) else None.

Definition perceive (carsByLane : CarsByLane) (lights : Lights)
           (cars : list Car.car) (i : nat) (car : Car.car) : option Perception :=
  match leaderOf carsByLane car i with
  | Some j =>
      leader <- nth_error cars j ;;
      Some (mkPerception (Car.t leader - Car.t car - CAR_LENGTH)
                         (Car.v car - Car.v leader)
                         (Car.targetLaneId car))
  | None =>
      currentLane <- JSMap.get lanes (Car.laneId car) ;;
      let distToEnd := Lane.len currentLane - Car.t car in
      match Lane.type currentLane with
      | ROAD =>
          match getTrafficLightState lights currentLane with
          | RED | YELLOW =>
              Some (mkPerception (distToEnd - 2.0) (Car.v car) (Car.targetLaneId car))
          | GREEN =>
              let nexts := Lane.nextLanes currentLane in
              let tgt :=
                if negb (truthy (Car.targetLaneId car)) && Nat.ltb 0 (List.length nexts)
                then nthZ nexts (JS.Math_floor
                       (rTarget (Car.id car) * inject_Z (Z.of_nat (List.length nexts))))
                else Car.targetLaneId car in
              match lastCarOn carsByLane cars tgt with
              | Some lastCar =>
                  let virtualGap := distToEnd + Car.t lastCar - CAR_LENGTH in
                  if JS.ltb virtualGap 50
                  then Some (mkPerception virtualGap (Car.v car - Car.v lastCar) tgt)
                  else Some (mkPerception 500 0 tgt)
              | None => Some (mkPerception 500 0 tgt)
              end
          end
      | JUNCTION =>
          let nexts := Lane.nextLanes currentLane in
          let tgt :=
            if negb (truthy (Car.targetLaneId car)) && Nat.ltb 0 (List.length nexts)
            then nth_error nexts 0
            else Car.targetLaneId car in
          match lastCarOn carsByLane cars tgt with
          | Some lastCar =>
              let virtualGap := distToEnd + Car.t lastCar - CAR_LENGTH in
              Some (mkPerception virtualGap (Car.v car - Car.v lastCar) tgt)
          | None => Some (mkPerception 500 0 tgt)
          end
      end
  end.

Definition s_star (v dv : Q) : Q :=
  IDM_S0 + JS.Math_max 0 (v * IDM_T + (v * dv) / (2 * Math_sqrt (IDM_A * IDM_B))).

Definition idmAcc (v gap dv : Q) : Q :=
  IDM_A * (1 - JS.Math_pow (v / IDM_V0) 4
             - JS.Math_pow (s_star v dv / JS.Math_max 0.1 gap) 2).

(** The end of the body of pass 1: the model's acceleration, overridden by
    the hard stop below [MIN_GAP]. *)
Definition decide (car : Car.car) (p : Perception) : Car.car :=
  let acc := idmAcc (Car.v car) (gap p) (dv p) in
  if JS.ltb (gap p) MIN_GAP then
    Car.mk (Car.id car) (Car.active car) (Car.laneId car) (Car.t car)
           0 (- IDM_B * 4) (Car.color car) (target p)
  else
    Car.mk (Car.id car) (Car.active car) (Car.laneId car) (Car.t car)
           (Car.v car) acc (Car.color car) (target p).

(** The body of the first [carsRef.current.forEach]. *)
Definition pass1Body (carsByLane : CarsByLane) (lights : Lights)
           (cars : list Car.car) (i : nat) (car : Car.car) : option Car.car :=
  p <- perceive carsByLane lights cars i car ;;
  Some (decide car p).

Definition pass1 (carsByLane : CarsByLane) (lights : Lights)
           (cars : list Car.car) : option (list Car.car) :=
  forEach (pass1Body carsByLane lights) cars.

(** The body of the second [carsRef.current.forEach].  When no lane key starts with [R_] the respawn
    stores [undefined] as the lane, on which the next tick throws; the
    model fails at once. *)
Definition integrate (dt : Q) (car : Car.car) : option Car.car :=
  let a := if JS.eqb (Car.v car) 0 && JS.ltb (Car.a car) 0 then 0 else Car.a car in
  let v := Car.v car + a * dt in
  let v := JS.Math_max 0 v in
  let t := Car.t car + v * dt in
  let color := if JS.ltb a (-0.5) then THEME.CAR_BRAKE
               else if JS.ltb v (IDM_V0 * 0.3) then THEME.CAR_ACCEL
               else THEME.CAR_FLOW in
  lane <- JSMap.get lanes (Car.laneId car) ;;
  if JS.geb t (Lane.len lane) then
    if truthy (Car.targetLaneId car) then
      Some (Car.mk (Car.id car) (Car.active car) (strOf (Car.targetLaneId car))
                   (t - Lane.len lane) v a color None)
    else
      let keys := filter (fun k => startsWith k "R_") (JSMap.keys lanes) in
      k <- nthZ keys (JS.Math_floor
             (rRespawn (Car.id car) * inject_Z (Z.of_nat (List.length keys)))) ;;
      Some (Car.mk (Car.id car) (Car.active car) k 0 v a color
                   (Car.targetLaneId car))
  else
    Some (Car.mk (Car.id car) (Car.active car) (Car.laneId car) t v a color
                 (Car.targetLaneId car)).

Definition pass2 (dt : Q) (cars : list Car.car) : option (list Car.car) :=
  forEach (fun _ _ car => integrate dt car) cars.

(** One simulation tick. *)
Definition updatePhysics (dt : Q) (lights : Lights) (cars : list Car.car)
  : option (Lights * list Car.car) :=
  let lights := updateTrafficLights dt lights in
  let carsByLane := carsByLaneOf cars in
  cars <- pass1 carsByLane lights cars ;;
  cars <- pass2 dt cars ;;
  Some (lights, cars).

End Physics.

(** [n] successive calls of [updatePhysics], as the [while] loop of
    [animate] makes them: each on the state that the tick before left.  The
    ticks are numbered from [k], and [rTarget k], [rRespawn k] are the
    draws of tick [k]. *)
Fixpoint physicsSteps {M : JSMath} (lanes : Lanes)
         (rTarget rRespawn : nat -> nat -> Q) (dt : Q) (k n : nat)
         (lights : Lights) (cars : list Car.car)
  : option (Lights * list Car.car) :=
  match n with
  | O => Some (lights, cars)
  | S n' =>
      st <- updatePhysics lanes (rTarget k) (rRespawn k) dt lights cars ;;
      physicsSteps lanes rTarget rRespawn dt (S k) n' (fst st) (snd st)
  end.
(* ================================================================== *)
(** ** The gesture service (gestureService.ts)                         *)
(* ================================================================== *)

(** The hand tracker, the camera and the clock are the environment of
    [detect]: every call receives what it finds there.  The service keeps
    the smoothed reading between calls. *)
Module GestureService.

(** A landmark of the hand, in normalised image coordinates. *)
Record Landmark : Type := mkLandmark { x : Q; y : Q; z : Q }.

(** The fields of the video element that [detect] reads. *)
Record Video : Type := mkVideo {
  paused : bool;
  ended : bool;
  readyState : Z;
  videoWidth : Z;
  currentTime : Q
}.

(** What [handLandmarker.detectForVideo] does when it is called: it throws,
    or it returns a result whose [landmarks] is missing or lists the
    landmarks of every hand found. *)
Inductive Detection : Type :=
| Throws
| Result (landmarks : option (list (list Landmark))).

Record Env : Type := mkEnv {
  handLandmarker : bool;
  video : option Video;
  detectForVideo : Detection
}.

Record State : Type := mkState {
  lastVideoTime : Q;
  lastOpenness : Q;
  lastX : Q;
  lastY : Q
}.

Record Reading : Type := mkReading {
  isDetected : bool;
  openness : Q;
  rx : Q;
  ry : Q
}.

(** The fields of a new service. *)
Definition initial : State := mkState (-1) 0.5 0.5 0.5.

(** No hand: drift back to the centre. *)
Definition fallback (s : State) : Reading * State :=
  let lastX := lastX s + (0.5 - lastX s) * 0.05 in
  let lastY := lastY s + (0.5 - lastY s) * 0.05 in
  (mkReading false (lastOpenness s) lastX lastY,
   mkState (lastVideoTime s) (lastOpenness s) lastX lastY).

Section Detect.
Context {M : JSMath}.

(** The distance of a landmark from the wrist. *)
Definition distanceFrom (wrist p : Landmark) : Q :=
  Math_sqrt (JS.Math_pow (x p - x wrist) 2 +
             JS.Math_pow (y p - y wrist) 2 +
             JS.Math_pow (z p - z wrist) 2).

Definition tips : list nat := [4; 8; 12; 16; 20]%nat.

(** The loop over the finger tips: the sum of the distances of the tips
    that are present, and their number. *)
Definition tipStep (landmarks : list Landmark) (wrist : Landmark)
           (acc : Q * Z) (idx : nat) : Q * Z :=
  match nth_error landmarks idx with
  | Some tip => (fst acc + distanceFrom wrist tip, (snd acc + 1)%Z)
  | None => acc
  end.

(** The rest of [detect], once the wrist and the knuckle of the middle
    finger are known. *)
Definition track (landmarks : list Landmark) (wrist middleMcp : Landmark)
           (s : State) : Reading * State :=
  let rawX := 1.0 - x wrist in
  let rawY := y wrist in
  let alphaPos := 0.4 in
  let lastX := lastX s + (rawX - lastX s) * alphaPos in
  let lastY := lastY s + (rawY - lastY s) * alphaPos in
  let palmSize := distanceFrom wrist middleMcp in
  if JS.ltb palmSize 0.001 then
    (mkReading true (lastOpenness s) lastX lastY,
     mkState (lastVideoTime s) (lastOpenness s) lastX lastY)
  else
    let '(totalTipDist, valid) := fold_left (tipStep landmarks wrist) tips (0, 0%Z) in
    let avgTipDist := if Z.ltb 0 valid then totalTipDist / inject_Z valid else 0 in
    let ratio := avgTipDist / palmSize in
    let minR := 0.7 in
    let maxR := 1.8 in
    let rawOpen := (ratio - minR) / (maxR - minR) in
    let rawOpen := JS.Math_max 0 (JS.Math_min 1 rawOpen) in
    let alphaOpen := 0.3 in
    let lastOpenness := lastOpenness s + (rawOpen - lastOpenness s) * alphaOpen in
    (mkReading true lastOpenness lastX lastY,
     mkState (lastVideoTime s) lastOpenness lastX lastY).

Definition detect (env : Env) (s : State) : Reading * State :=
  if negb (handLandmarker env) then fallback s else
  match video env with
  | None => fallback s
  | Some v =>
      if paused v || ended v || Z.ltb (readyState v) 2 || Z.ltb (videoWidth v) 1
      then fallback s
      else if JS.eqb (currentTime v) (lastVideoTime s) then fallback s
      else
        let s := mkState (currentTime v) (lastOpenness s) (lastX s) (lastY s) in
        match detectForVideo env with
        | Throws => fallback s
        | Result None => fallback s
        | Result (Some []) => fallback s
        | Result (Some (landmarks :: _)) =>
            match nth_error landmarks 0, nth_error landmarks 9 with
            | Some wrist, Some middleMcp => track landmarks wrist middleMcp s
            | _, _ => fallback s
            end
        end
  end.

(** The readings of successive calls, each in the environment it finds. *)
Fixpoint detectAll (envs : list Env) (s : State) : list Reading :=
  match envs with
  | [] => []
  | env :: envs' =>
      let '(r, s') := detect env s in r :: detectAll envs' s'
  end.

End Detect.
End GestureService.

(* ================================================================== *)
(** ** 5. The animation frame                                          *)
(* ================================================================== *)

(** [Math.round]: the nearest integer, a tie going up. *)
Definition Math_round (x : Q) : Z := Qfloor (x + 1 / 2).

(** [frameTime]: the time since the last frame in seconds, capped. *)
Definition frameTimeOf (now lastTime : Q) : Q :=
  JS.Math_min ((now - lastTime) / 1000) 0.1.

(** The [fps] that a frame reports, [Math.round(1 / frameTime)]; for a
    [frameTime] of 0 the quotient is [Infinity], which is no rational:
    [None]. *)
Definition fpsOf (frameTime : Q) : option Z :=
  if JS.eqb frameTime 0 then None else Some (Math_round (1 / frameTime)).

(** The camera: the height and the radius that the openness of the hand
    asks for, and the step of the camera height towards its target. *)
Definition hMin : Q := 80.
Definition hMax : Q := 600.
Definition rMin : Q := 100.
Definition rMax : Q := 600.
Definition camAlpha : Q := 0.08.

Definition cameraOpenness (gesture : GestureService.Reading) : Q :=
  if GestureService.isDetected gesture then GestureService.openness gesture else 0.5.

Definition targetH (openness : Q) : Q := hMax - (openness * (hMax - hMin)).
Definition targetR (openness : Q) : Q := rMax - (openness * (rMax - rMin)).

(** [camera.position.y += (targetH - camera.position.y) * camAlpha] *)
Definition cameraHeight (gesture : GestureService.Reading) (y : Q) : Q :=
  y + (targetH (cameraOpenness gesture) - y) * camAlpha.

(** The heights of the camera over successive frames. *)
Fixpoint cameraHeights (gestures : list GestureService.Reading) (y : Q) : list Q :=
  match gestures with
  | [] => []
  | g :: gs => let y' := cameraHeight g y in y' :: cameraHeights gs y'
  end.

(** The wrist that a call of [detect] may track lies in the image: its
    normalised coordinates are in [[0, 1]]. *)
Definition wristInFrame (env : GestureService.Env) : Prop :=
  match GestureService.detectForVideo env with
  | GestureService.Result (Some (landmarks :: _)) =>
      match nth_error landmarks 0 with
      | Some wrist =>
          0 <= GestureService.x wrist /\ GestureService.x wrist <= 1 /\
          0 <= GestureService.y wrist /\ GestureService.y wrist <= 1
      | None => True
      end
  | _ => True
  end.

(** The smoothed state of the service is in range. *)
Definition opennessInRange (s : GestureService.State) : Prop :=
  0 <= GestureService.lastOpenness s /\ GestureService.lastOpenness s <= 1.

Definition pointerInRange (s : GestureService.State) : Prop :=
  0 <= GestureService.lastX s /\ GestureService.lastX s <= 1 /\
  0 <= GestureService.lastY s /\ GestureService.lastY s <= 1.


(* ================================================================== *)
(** ** Signal controller: reachable lights and the phase table         *)
(* ================================================================== *)

(** The permissions shown once the timer has been advanced to [timer]. *)
Definition permissionsAt (timer : Q) : Signal * Signal :=
  let '(ns, ew) := signalColors (JS.rem timer CYCLE) in
  (signalOfColor ns, signalOfColor ew).

(** The lights that the program can hold: one created by [buildNetwork]
    from draws in [[0, 1)], advanced by any number of ticks. *)
Inductive reachableLight : TrafficLight.light -> Prop :=
| reach_new (nodeId : string) (rPhase rTimer : Q) :
    0 <= rTimer -> rTimer < 1 ->
    reachableLight (newLight nodeId rPhase rTimer)
| reach_tick (dt : Q) (l : TrafficLight.light) :
    0 < dt -> reachableLight l -> reachableLight (updateLight dt l).

(** Six-phase table of the signal cycle, as the specification words it:
    phase windows over the elapsed time within the cycle, for green, yellow
    and all-red durations [G], [Y], [R]. *)
Definition phaseTable (G Y R : Q) (t : Q) : option (Signal * Signal) :=
  if Qle_bool 0 t && JS.ltb t G then Some (GREEN, RED)
  else if Qle_bool G t && JS.ltb t (G + Y) then Some (YELLOW, RED)
  else if Qle_bool (G + Y) t && JS.ltb t (G + Y + R) then Some (RED, RED)
  else if Qle_bool (G + Y + R) t && JS.ltb t (2 * G + Y + R) then Some (RED, GREEN)
  else if Qle_bool (2 * G + Y + R) t && JS.ltb t (2 * G + 2 * Y + R)
       then Some (RED, YELLOW)
  else if Qle_bool (2 * G + 2 * Y + R) t && JS.ltb t (2 * (G + Y + R))
       then Some (RED, RED)
  else None.


(* ================================================================== *)
(** ** Cars: initial state and invariants                              *)
(* ================================================================== *)

(** What [initCars] promises of every car it creates. *)
Definition freshOn (lanes : Lanes) (c : Car.car) : Prop :=
  exists lane,
    In lane (JSMap.values lanes) /\ Lane.type lane = ROAD /\
    Car.laneId c = Lane.id lane /\
    0 <= Car.t c /\ Car.t c < 0.9 * Lane.len lane /\ Car.t c < Lane.len lane /\
    Car.v c == IDM_V0 / 2 /\ 0 < Car.v c /\
    Car.a c = 0 /\ Car.targetLaneId c = None.

(** The references of [carsByLane] under lane [k], before sorting: the
    indices, counted from [a], of the cars of [cs] that are on lane [k]. *)
Fixpoint idxOn (cs : list Car.car) (a : nat) (k : string) : list nat :=
  match cs with
  | [] => []
  | c :: cs' =>
      if String.eqb (Car.laneId c) k then a :: idxOn cs' (S a) k
      else idxOn cs' (S a) k
  end.

(** The speed that no car exceeds: the desired speed, plus what one tick of
    full acceleration adds. *)
Definition speedCap (dt : Q) : Q := IDM_V0 + IDM_A * dt.

(** A target lane, once committed, exists. *)
Definition targetOK (lanes : Lanes) (target : option string) : Prop :=
  truthy target = true -> exists l, JSMap.get lanes (strOf target) = Some l.

(** A network on which the simulation runs: every lane is longer than the
    distance a car covers in one tick, the successors of every lane exist,
    and some lane key starts with [R_]. *)
Definition laneOKb (lanes : Lanes) (dt : Q) (l : Lane.lane) : bool :=
  JS.ltb 0 (Lane.len l) && Qle_bool (speedCap dt * dt) (Lane.len l) &&
  forallb (fun n => negb (String.eqb n EmptyString) && JSMap.has lanes n)
          (Lane.nextLanes l).

Definition wfNetb (lanes : Lanes) (dt : Q) : bool :=
  forallb (laneOKb lanes dt) (JSMap.values lanes) &&
  negb (Nat.eqb (List.length (filter (fun k => startsWith k "R_") (JSMap.keys lanes))) 0).

Definition WFNet (lanes : Lanes) (dt : Q) : Prop :=
  (forall l, In l (JSMap.values lanes) ->
     0 < Lane.len l /\ speedCap dt * dt <= Lane.len l /\
     forall n, In n (Lane.nextLanes l) ->
               n <> EmptyString /\ exists l', JSMap.get lanes n = Some l') /\
  filter (fun k => startsWith k "R_") (JSMap.keys lanes) <> [].

(** The invariant of a car between ticks. *)
Definition CarOK (lanes : Lanes) (dt : Q) (c : Car.car) : Prop :=
  exists l,
    JSMap.get lanes (Car.laneId c) = Some l /\
    0 <= Car.t c /\ Car.t c < Lane.len l /\
    0 <= Car.v c /\ Car.v c <= speedCap dt /\
    targetOK lanes (Car.targetLaneId c).

(** The state of a car between the two passes: as between ticks, with an
    acceleration that the free-road term bounds. *)
Definition CarMid (lanes : Lanes) (dt : Q) (c : Car.car) : Prop :=
  CarOK lanes dt c /\
  Car.a c <= IDM_A * (1 - JS.Math_pow (Car.v c / IDM_V0) 4).

(** Cars are told apart by lane and position: no two cars of the array
    are at one position of one lane. *)
Definition posKey (c : Car.car) : string * Q := (Car.laneId c, Qred (Car.t c)).

Definition distinctPositions (cars : list Car.car) : Prop :=
  NoDup (map posKey cars).

(** No car perceives a gap below [MIN_GAP] in the tick that starts from
    [cars]: the hard stop does not fire. *)
Definition noHardStop (lanes : Lanes) (rTarget : nat -> Q) (dt : Q)
           (lights : Lights) (cars : list Car.car) : Prop :=
  forall i c p,
    nth_error cars i = Some c ->
    perceive lanes rTarget (carsByLaneOf cars) (updateTrafficLights dt lights)
             cars i c = Some p ->
    MIN_GAP <= gap p.

(** [i] comes before [j] in a lane's sorted list. *)
Definition aheadOrLevel (cars : list Car.car) (i j : nat) : Prop :=
  tOf cars j <= tOf cars i.

(** The position and speed of a car: what the other cars read of it. *)
Definition tv (c : Car.car) : Q * Q := (Car.t c, Car.v c).


(** The state of pass 1 after [k] turns when the hard stop does not fire:
    every car still has its position and speed, and the cars already
    visited hold what they decided from the snapshot. *)
Definition pass1State {M : JSMath} (lanes : Lanes) (rTarget : nat -> Q)
           (byLane : CarsByLane) (lights : Lights)
           (cars : list Car.car) (k : nat)
           (cur : list Car.car) : Prop :=
  List.length cur = List.length cars /\
  map tv cur = map tv cars /\
  (forall j, (k <= j)%nat -> nth_error cur j = nth_error cars j) /\
  (forall j c, (j < k)%nat -> nth_error cars j = Some c ->
     exists p, perceive lanes rTarget byLane lights cars j c = Some p /\
               nth_error cur j = Some (decide c p)).


(* ================================================================== *)
(** ** Network: what the junction loop reads and builds                *)
(* ================================================================== *)

(** Two versions of one lane object that differ at most in the successors
    pushed onto it. *)
Definition sameCore (a b : Lane.lane) : Prop :=
  Lane.id a = Lane.id b /\ Lane.type a = Lane.type b /\
  Lane.path a = Lane.path b /\ Lane.len a = Lane.len b /\
  Lane.prevLanes a = Lane.prevLanes b /\
  Lane.toNodeId a = Lane.toNodeId b /\ Lane.direction a = Lane.direction b.

(** The test of the junction loop for "[outLane] originates at the node
    that [inLane] leads to". *)
Definition connects (inLane outLane : Lane.lane) : Prop :=
  startsWith (Lane.id outLane) (fromPrefix inLane) = true.

(** The road maps that the junction loop is run on: every lane is a ROAD
    stored under its id, and the ids are distinct and of one length [n]. *)
Definition RoadsWF (roads : Lanes) (n : nat) : Prop :=
  NoDup (JSMap.keys roads) /\
  forall k l, In (k, l) roads ->
    Lane.type l = ROAD /\ Lane.id l = k /\ String.length k = n.

Definition roadsWFb (roads : Lanes) (n : nat) : bool :=
  forallb (fun kl => LaneType_eqb (Lane.type (snd kl)) ROAD &&
                     String.eqb (Lane.id (snd kl)) (fst kl) &&
                     Nat.eqb (String.length (fst kl)) n) roads &&
  (fix nodup (ks : list string) : bool :=
     match ks with
     | [] => true
     | k :: ks' => negb (existsb (String.eqb k) ks') && nodup ks'
     end) (JSMap.keys roads).

(** A JUNCTION lane of the network [net] that connects [inLane] to
    [outLane]. *)
Definition junctionBetween (net : Lanes) (inLane outLane : Lane.lane) : Prop :=
  exists k J, In (k, J) net /\ Lane.type J = JUNCTION /\
              Lane.prevLanes J = [Lane.id inLane] /\
              Lane.nextLanes J = [Lane.id outLane].

(** The state of the map at any point of the two loops. *)
Definition junctionsInv {M : JSMath} (roads m : Lanes) : Prop :=
  NoDup (JSMap.keys m) /\
  (forall k l0, In (k, l0) roads ->
     exists l, JSMap.get m k = Some l /\ sameCore l l0) /\
  (forall k J, JSMap.get m k = Some J -> JSMap.get roads k = None ->
     exists a b la,
       In a (JSMap.values roads) /\ In b (JSMap.values roads) /\
       connects a b /\ tooSharp a b = false /\
       k = junctionId a b /\ J = newJunction a b /\
       JSMap.get m (Lane.id a) = Some la /\ In k (Lane.nextLanes la)).

(** A lane that the inner loop may meet: a junction, or a version of a
    road. *)
Definition known (roads : Lanes) (o : Lane.lane) : Prop :=
  Lane.type o <> ROAD \/
  exists o0, In o0 (JSMap.values roads) /\ sameCore o o0.


(** The junction from [a] to [b] is in the map, under its id. *)
Definition hasJunction {M : JSMath} (m : Lanes) (a b : Lane.lane) : Prop :=
  JSMap.get m (junctionId a b) = Some (newJunction a b).

(** ** The junction filter and the angle of a turn *)

(** What the junction filter needs of [Math].  [Math.sqrt] is positive and
    its square is within a relative [1e-9] of the argument, from [1/16]
    on; and [Math.acos], which is decreasing with
    [acos(-0.80901...) = 0.8 pi], puts its argument on the right side of
    [0.8 pi] once the argument is [1e-4] away from that cosine. *)
Definition sqrtTolerance : Q := 1 # 1000000000.

Definition MathAccurate (M : JSMath) : Prop :=
  (forall x : Q, 1 # 16 <= x ->
     0 < Math_sqrt x /\
     (1 - sqrtTolerance) * x <= Math_sqrt x * Math_sqrt x /\
     Math_sqrt x * Math_sqrt x <= (1 + sqrtTolerance) * x) /\
  (forall x : Q, -1 <= x -> x <= - 0.8091 -> Math_PI * 0.8 < Math_acos x) /\
  (forall x : Q, - 0.8089 <= x -> x <= 1 -> Math_acos x <= Math_PI * 0.8).

(** The direction of travel along a straight lane, from its first point to
    its last: the exit tangent and the entry tangent of the lane, before
    normalisation. *)
Definition heading (l : Lane.lane) : THREE.Vector3 :=
  match Lane.path l with
  | THREE.LineCurve3 v1 v2 => THREE.sub v2 v1
  | THREE.QuadraticBezierCurve3 v0 v1 v2 => THREE.sub v2 v0
  end.

(** A straight lane of at least a quarter of a unit. *)
Definition straight (l : Lane.lane) : bool :=
  match Lane.path l with
  | THREE.LineCurve3 v1 v2 => Qle_bool (1 # 16) (THREE.lengthSq (THREE.sub v2 v1))
  | THREE.QuadraticBezierCurve3 _ _ _ => false
  end.

(** The angle between [u] and [w] through its cosine
    [dot u w / (|u| |w|)], without square roots: for [c > 0], the cosine
    is at most [- c], and the cosine is at least [- c]. *)
Definition cosAtMost (c : Q) (u w : THREE.Vector3) : Prop :=
  THREE.dot u w <= 0 /\
  c * c * (THREE.lengthSq u * THREE.lengthSq w) <= THREE.dot u w * THREE.dot u w.

Definition cosAtLeast (c : Q) (u w : THREE.Vector3) : Prop :=
  0 <= THREE.dot u w \/
  THREE.dot u w * THREE.dot u w <= c * c * (THREE.lengthSq u * THREE.lengthSq w).

(** [w] points straight back along [u]: the cosine of the turn is [-1]. *)
Definition reversalb (u w : THREE.Vector3) : bool :=
  Qle_bool (THREE.dot u w) 0 &&
  Qle_bool (THREE.lengthSq u * THREE.lengthSq w) (THREE.dot u w * THREE.dot u w).

(* ================================================================== *)
(** ** Cars: routes along the network                                  *)
(* ================================================================== *)

(** A car is routed when the target lane it is committed to, if any, is a
    successor of the lane it is on. *)
Definition CarRouted (lanes : Lanes) (c : Car.car) : Prop :=
  forall l, JSMap.get lanes (Car.laneId c) = Some l ->
            truthy (Car.targetLaneId c) = true ->
            In (strOf (Car.targetLaneId c)) (Lane.nextLanes l).

(** A network without dead ends: every lane lists a successor. *)
Definition noDeadEnd (lanes : Lanes) : Prop :=
  forall l, In l (JSMap.values lanes) -> Lane.nextLanes l <> [].

Definition noDeadEndb (lanes : Lanes) : bool :=
  forallb (fun l => Nat.ltb 0 (List.length (Lane.nextLanes l))) (JSMap.values lanes).

(** The successors that the junction loop has pushed onto the roads: each
    is the id of the junction, present in the map, from that road to a
    road that it connects to. *)
Definition successorsInv {M : JSMath} (roads m : Lanes) : Prop :=
  forall k l0 l s,
    In (k, l0) roads -> JSMap.get m k = Some l -> In s (Lane.nextLanes l) ->
    exists b, In b (JSMap.values roads) /\ connects l0 b /\
              tooSharp l0 b = false /\ s = junctionId l0 b /\
              hasJunction m l0 b.


(* ================================================================== *)
(** ** An executable [Math]                                            *)
(* ================================================================== *)

(** [Math.sqrt]: exact on the square of a rational, elsewhere rounded down
    to sixteen decimal places. *)
Definition sqrtApprox (q : Q) : Q :=
  let q := Qred q in
  if Qle_bool q 0 then 0
  else
    let n := Qnum q in
    let d := Zpos (Qden q) in
    let rn := Z.sqrt n in
    let rd := Z.sqrt d in
    if ((rn * rn =? n) && (rd * rd =? d))%Z then Qmake rn (Z.to_pos rd)
    else Qred (Qmake (Z.sqrt (n * 10 ^ 32 / d)) (10 ^ 16)).

(** [Math.acos] after Abramowitz and Stegun 4.4.45 (absolute error below
    [5e-5] on [[0, 1]]), reflected for negative arguments. *)
Definition acosPoly (x : Q) : Q :=
  sqrtApprox (1 - x) *
  (1.5707288 + x * (-0.2121144 + x * (0.0742610 + x * -0.0187293))).

Definition piApprox : Q := 3.141592653589793.

Definition acosApprox (x : Q) : Q :=
  if Qle_bool 0 x then Qred (acosPoly x) else Qred (piApprox - acosPoly (- x)).

#[export] Instance approxMath : JSMath := {
  Math_sqrt := sqrtApprox;
  Math_acos := acosApprox;
  Math_PI := piApprox
}.

(** The step of [sqrtApprox], and the polynomial of [acosPoly]. *)
Definition sqrtStep : Q := 1 # 10000000000000000.

Definition acosCoeffs (y : Q) : Q :=
  1.5707288 + y * (-0.2121144 + y * (0.0742610 + y * -0.0187293)).


(* ================================================================== *)
(** ** Concrete runs                                                   *)
(* ================================================================== *)

(** The city as [buildNetwork] builds it when every draw of
    [Math.random()] is [1/2]: lights start with [timer = 5]. *)
Definition cityDraw : nat -> nat -> Q := fun _ _ => 1 # 2.
Definition cityLanes : Lanes := buildJunctions (M := approxMath) buildRoads.
Definition cityLights : Lights := buildLights cityDraw cityDraw.

Definition carDraw : nat -> Q := fun _ => 1 # 2.

(** Three cars queueing on the road from node [0_0] to node [1_0], whose
    signal is red: the middle car is 2 units behind the front car. *)
Definition queueFront : Car.car := Car.mk 0 true "R_0_0_1_0" 130 5 0 0%Z None.
Definition queueMiddle : Car.car := Car.mk 1 true "R_0_0_1_0" 128 5 0 0%Z None.
Definition queueBack : Car.car := Car.mk 2 true "R_0_0_1_0" 100 5 0 0%Z None.

Definition queue : list Car.car := [queueFront; queueMiddle; queueBack].
Definition queueReversed : list Car.car := [queueBack; queueMiddle; queueFront].

(** One tick of the city at the physics rate. *)
Abbreviation cityTick cars :=
  (updatePhysics (M := approxMath) cityLanes carDraw carDraw PHYSICS_DT cityLights cars).

(** The worked scenario of the car-following model: a leader at [t = 50]
    with [v = 10] and a follower at [t = 0] with [v = 14] on one lane. *)
Definition pairLeader : Car.car := Car.mk 0 true "R_0_0_1_0" 50 10 0 0%Z None.
Definition pairFollower : Car.car := Car.mk 1 true "R_0_0_1_0" 0 14 0 0%Z None.
Definition pair : list Car.car := [pairLeader; pairFollower].
Definition pairReversed : list Car.car := [pairFollower; pairLeader].
(** A car at rest on the road from node [0_0] to node [1_0], far from the
    stop line. *)
Definition restingCar : Car.car := Car.mk 0 true "R_0_0_1_0" 10 0 0 0%Z None.

(** A car on a lane that no map holds. *)
Definition strayCar : Car.car := Car.mk 0 true "nowhere" 0 7 0 0%Z None.

(** A hand held up in front of the camera: twenty-one landmarks in a line
    above the wrist. *)
Definition handLandmarks : list GestureService.Landmark :=
  map (fun i => GestureService.mkLandmark 0.5 (0.8 - 0.03 * inject_Z (Z.of_nat i)) 0)
      (seq 0 21).

Definition playing (currentTime : Q) : GestureService.Video :=
  GestureService.mkVideo false false 4 640 currentTime.

(** The service with a hand in view at video time [currentTime], and
    before the tracker has loaded. *)
Definition handEnv (currentTime : Q) : GestureService.Env :=
  GestureService.mkEnv true (Some (playing currentTime))
                       (GestureService.Result (Some [handLandmarks])).

(** The same service when the tracker finds no hand in the frame. *)
Definition emptyFrameEnv (currentTime : Q) : GestureService.Env :=
  GestureService.mkEnv true (Some (playing currentTime))
                       (GestureService.Result (Some [])).

Definition loadingEnv : GestureService.Env :=
  GestureService.mkEnv false None (GestureService.Result None).


(* ================================================================== *)
(** * Properties                                                       *)
(* ================================================================== *)

(** ** Numbers *)

Module JSFacts.
Import JS.
Open Scope Q_scope.

Lemma ltb_lt x y : ltb x y = true <-> x < y.
Proof.
  unfold ltb. rewrite negb_true_iff.
  split; intro H.
  - apply Qnot_le_lt. intro Hle. apply Qle_bool_iff in Hle. congruence.
  - destruct (Qle_bool y x) eqn:E; [|reflexivity].
    apply Qle_bool_iff in E. exfalso. apply (Qlt_not_le _ _ H E).
Qed.

Lemma ltb_ge x y : ltb x y = false <-> y <= x.
Proof.
  unfold ltb. rewrite negb_false_iff. apply Qle_bool_iff.
Qed.

Lemma geb_ge x y : geb x y = true <-> y <= x.
Proof. apply Qle_bool_iff. Qed.

Lemma geb_lt x y : geb x y = false <-> x < y.
Proof.
  unfold geb. split; intro H.
  - apply Qnot_le_lt. intro Hle. apply Qle_bool_iff in Hle. congruence.
  - destruct (Qle_bool y x) eqn:E; [|reflexivity].
    apply Qle_bool_iff in E. exfalso. apply (Qlt_not_le _ _ H E).
Qed.

Lemma eqb_eq x y : eqb x y = true <-> x == y.
Proof. apply Qeq_bool_iff. Qed.

Lemma Math_max_spec x y :
  (x <= y /\ Math_max x y = y) \/ (y < x /\ Math_max x y = x).
Proof.
  unfold Math_max. destruct (Qle_bool x y) eqn:E.
  - left. split; [now apply Qle_bool_iff | reflexivity].
  - right. split; [|reflexivity].
    apply Qnot_le_lt. intro H. apply Qle_bool_iff in H. congruence.
Qed.

Lemma Math_min_spec x y :
  (x <= y /\ Math_min x y = x) \/ (y < x /\ Math_min x y = y).
Proof.
  unfold Math_min. destruct (Qle_bool x y) eqn:E.
  - left. split; [now apply Qle_bool_iff | reflexivity].
  - right. split; [|reflexivity].
    apply Qnot_le_lt. intro H. apply Qle_bool_iff in H. congruence.
Qed.

Lemma Math_max_l x y : x <= Math_max x y.
Proof. destruct (Math_max_spec x y) as [[H ->]|[H ->]]; lra. Qed.

Lemma Math_max_r x y : y <= Math_max x y.
Proof. destruct (Math_max_spec x y) as [[H ->]|[H ->]]; lra. Qed.

(** The integer part of a number lying in [[n, n+1)] is [n]. *)
Lemma floor_unique (x : Q) (n : Z) :
  inject_Z n <= x -> x < inject_Z (n + 1) -> Qfloor x = n.
Proof.
  intros Hlo Hhi.
  pose proof (Qfloor_le x) as H1.
  pose proof (Qlt_floor x) as H2.
  assert (A : (n < Qfloor x + 1)%Z).
  { rewrite Zlt_Qlt. eapply Qle_lt_trans; eauto. }
  assert (B : (Qfloor x < n + 1)%Z).
  { rewrite Zlt_Qlt. eapply Qle_lt_trans; eauto. }
  lia.
Qed.

Lemma trunc_floor (x : Q) : 0 <= x -> trunc x = Qfloor x.
Proof.
  intros H. unfold trunc, Qfloor. destruct x as [n d]. simpl.
  apply Z.quot_div_nonneg; [|reflexivity].
  unfold Qle in H. simpl in H. lia.
Qed.

(** For a non-negative dividend and a positive modulus the remainder
    lies in [[0, m)]. *)
Lemma rem_range (x m : Q) : 0 <= x -> 0 < m -> 0 <= rem x m /\ rem x m < m.
Proof.
  intros Hx Hm. unfold rem.
  assert (Hq : 0 <= x / m).
  { apply Qle_shift_div_l; [exact Hm | lra]. }
  rewrite (trunc_floor _ Hq).
  pose proof (Qfloor_le (x / m)) as H1.
  pose proof (Qlt_floor (x / m)) as H2.
  rewrite inject_Z_plus in H2.
  assert (E : x == (x / m) * m) by (field; lra).
  set (f := inject_Z (Qfloor (x / m))) in *.
  change (inject_Z 1) with 1 in H2.
  split.
  - assert (f * m <= (x / m) * m) by (apply Qmult_le_compat_r; lra). lra.
  - assert ((x / m) * m < (f + 1) * m) by (apply Qmult_lt_compat_r; lra). lra.
Qed.

(** Any number in [[0, m)] that differs from [x] by a whole, non-negative
    multiple of [m] is the remainder of [x]. *)
Lemma rem_unique (x m r : Q) (k : Z) :
  (0 <= k)%Z -> 0 < m -> 0 <= r -> r < m ->
  x == inject_Z k * m + r -> rem x m == r.
Proof.
  intros Hk0 Hm Hr0 Hr1 E.
  assert (Hk0' : 0 <= inject_Z k).
  { change 0 with (inject_Z 0). now rewrite <- Zle_Qle. }
  assert (Hkm : 0 <= inject_Z k * m) by (apply Qmult_le_0_compat; lra).
  assert (Hk : inject_Z k <= x / m).
  { apply Qle_shift_div_l; [exact Hm | lra]. }
  assert (Hk1 : x / m < inject_Z (k + 1)).
  { apply Qlt_shift_div_r; [exact Hm |].
    rewrite inject_Z_plus. change (inject_Z 1) with 1. lra. }
  unfold rem. rewrite trunc_floor by lra.
  rewrite (floor_unique _ _ Hk Hk1). lra.
Qed.

Lemma rem_add_period (x m : Q) :
  0 <= x -> 0 < m -> rem (x + m) m == rem x m.
Proof.
  intros Hx Hm.
  destruct (rem_range _ _ Hx Hm) as [R0 R1].
  assert (Hq : 0 <= x / m).
  { apply Qle_shift_div_l; [exact Hm | lra]. }
  apply rem_unique with (k := (Qfloor (x / m) + 1)%Z); try assumption.
  - assert (0 <= Qfloor (x / m))%Z.
    { change 0%Z with (Qfloor 0). now apply Qfloor_resp_le. }
    lia.
  - unfold rem in *. rewrite trunc_floor by exact Hq.
    rewrite inject_Z_plus. change (inject_Z 1) with 1. lra.
Qed.

End JSFacts.

(** ** Maps *)

Module JSMapFacts.
Import JSMap.
Section Facts.
Variable V : Type.
Implicit Types (m : JSMap.t V) (k : string) (v : V).

Lemma get_set_same m k v : get (set m k v) k = Some v.
Proof.
  induction m as [|[k' v'] m IH]; simpl.
  - now rewrite String.eqb_refl.
  - destruct (String.eqb k' k) eqn:E; simpl; rewrite E; auto.
Qed.

Lemma get_set_other m k k' v : k <> k' -> get (set m k v) k' = get m k'.
Proof.
  intros Hne. induction m as [|[k0 v0] m IH]; simpl.
  - destruct (String.eqb k k') eqn:E; [|reflexivity].
    apply String.eqb_eq in E. contradiction.
  - destruct (String.eqb k0 k) eqn:E; simpl.
    + apply String.eqb_eq in E. subst k0.
      destruct (String.eqb k k') eqn:E'; [|reflexivity].
      apply String.eqb_eq in E'. contradiction.
    + destruct (String.eqb k0 k'); auto.
Qed.

Lemma get_set m k k' v :
  get (set m k v) k' = if String.eqb k k' then Some v else get m k'.
Proof.
  destruct (String.eqb k k') eqn:E.
  - apply String.eqb_eq in E. subst. apply get_set_same.
  - apply String.eqb_neq in E. now apply get_set_other.
Qed.

Lemma get_In m k v : get m k = Some v -> In (k, v) m.
Proof.
  induction m as [|[k' v'] m IH]; simpl; [discriminate|].
  destruct (String.eqb k' k) eqn:E.
  - apply String.eqb_eq in E. intros [= ->]. subst. now left.
  - intros H. right. auto.
Qed.

Lemma In_get_key m k v : In (k, v) m -> exists v', get m k = Some v'.
Proof.
  induction m as [|[k' v'] m IH]; simpl; [tauto|].
  intros [[= -> ->]|H].
  - rewrite String.eqb_refl. eauto.
  - destruct (String.eqb k' k); eauto.
Qed.

Lemma In_get_NoDup m k v :
  NoDup (keys m) -> In (k, v) m -> get m k = Some v.
Proof.
  induction m as [|[k' v'] m IH]; simpl; [tauto|].
  intros Hnd [[= -> ->]|H].
  - now rewrite String.eqb_refl.
  - inversion Hnd as [|? ? Hnotin Hnd']; subst.
    destruct (String.eqb k' k) eqn:E.
    + apply String.eqb_eq in E. subst k'.
      exfalso. apply Hnotin. unfold keys.
      change k with (fst (k, v)). now apply in_map.
    + auto.
Qed.

End Facts.
End JSMapFacts.

(** ** Signal controller *)

Section SignalFacts.
Import JS JSFacts.
Open Scope Q_scope.


Lemma CYCLE_value : CYCLE == 32.
Proof. reflexivity. Qed.

Lemma updateLight_permissions dt l :
  (permissionNS (updateLight dt l), permissionEW (updateLight dt l))
  = permissionsAt (TrafficLight.timer l + dt).
Proof.
  unfold updateLight, permissionsAt, permissionNS, permissionEW.
  destruct (signalColors _) as [ns ew]. reflexivity.
Qed.

Lemma updateLight_timer dt l :
  TrafficLight.timer (updateLight dt l) = TrafficLight.timer l + dt.
Proof.
  unfold updateLight. destruct (signalColors _). reflexivity.
Qed.



Lemma reachableLight_timer l : reachableLight l -> 0 <= TrafficLight.timer l.
Proof.
  induction 1 as [n rp rt H0 H1 | dt l Hdt Hl IH].
  - simpl. lra.
  - rewrite updateLight_timer. lra.
Qed.

Lemma rem_decomp (x m : Q) :
  0 <= x -> 0 < m ->
  exists k : Z, (0 <= k)%Z /\ x == inject_Z k * m + rem x m /\
                0 <= rem x m /\ rem x m < m.
Proof.
  intros Hx Hm.
  assert (Hq : 0 <= x / m).
  { apply Qle_shift_div_l; [exact Hm | lra]. }
  exists (Qfloor (x / m)). split; [|split].
  - change 0%Z with (Qfloor 0). now apply Qfloor_resp_le.
  - unfold rem. rewrite trunc_floor by exact Hq. lra.
  - now apply rem_range.
Qed.





Lemma ltb_Qeq (a a' b : Q) : a == a' -> JS.ltb a b = JS.ltb a' b.
Proof.
  intros E. unfold JS.ltb. f_equal. now rewrite E.
Qed.

Lemma signalColors_Qeq (r r' : Q) : r == r' -> signalColors r = signalColors r'.
Proof.
  intros E. unfold signalColors. now rewrite !(ltb_Qeq _ _ _ E).
Qed.

Lemma Qle_bool_false (a b : Q) : Qle_bool a b = false <-> b < a.
Proof. apply (geb_lt b a). Qed.

(** Decides the numeric tests of the goal from the hypotheses. *)
Ltac eval_tests :=
  repeat match goal with
  | |- context [JS.ltb ?a ?b] =>
      first [ rewrite (proj2 (ltb_lt a b)) by lra
            | rewrite (proj2 (ltb_ge a b)) by lra ]
  | |- context [Qle_bool ?a ?b] =>
      first [ rewrite (proj2 (Qle_bool_iff a b)) by lra
            | rewrite (proj2 (Qle_bool_false a b)) by lra ]
  end.

Lemma signalColors_table (r : Q) :
  0 <= r -> r < CYCLE ->
  phaseTable T_GREEN T_YELLOW T_RED_CLEAR r
  = Some (signalOfColor (fst (signalColors r)),
          signalOfColor (snd (signalColors r))).
Proof.
  intros H0 H1. assert (EC : CYCLE == 32) by reflexivity. rewrite EC in H1.
  unfold phaseTable, signalColors, T_GREEN, T_YELLOW, T_RED_CLEAR.
  destruct (Qlt_le_dec r 10); [eval_tests; reflexivity|].
  destruct (Qlt_le_dec r 14); [eval_tests; reflexivity|].
  destruct (Qlt_le_dec r 16); [eval_tests; reflexivity|].
  destruct (Qlt_le_dec r 26); [eval_tests; reflexivity|].
  destruct (Qlt_le_dec r 30); eval_tests; reflexivity.
Qed.

Lemma In_set_inv {V : Type} (m : JSMap.t V) k0 v0 k v :
  In (k, v) (JSMap.set m k0 v0) -> (k, v) = (k0, v0) \/ In (k, v) m.
Proof.
  induction m as [|[k1 v1] m IH]; simpl.
  - intros [H|[]]. left. now symmetry.
  - destruct (String.eqb k1 k0) eqn:E; simpl.
    + apply String.eqb_eq in E. subst k1.
      intros [H|H]; [left; now symmetry | right; now right].
    + intros [H|H]; [right; now left|].
      destruct (IH H) as [A|A]; [now left | right; now right].
Qed.

(** Every light of the built network is a [newLight] of its node's draws. *)
Lemma lights_fold_entries rPhase rTimer (xs zs : list nat) (m : Lights) :
  (forall node l, In (node, l) m ->
     exists x z, l = newLight (nodeIdOf x z) (rPhase x z) (rTimer x z)) ->
  forall node l,
    In (node, l)
       (fold_left (fun lights x =>
          fold_left (fun lights z =>
            let nodeId := nodeIdOf x z in
            JSMap.set lights nodeId (newLight nodeId (rPhase x z) (rTimer x z)))
            zs lights)
          xs m) ->
    exists x z, l = newLight (nodeIdOf x z) (rPhase x z) (rTimer x z).
Proof.
  revert m. induction xs as [|x xs IHx]; intros m Hm; simpl; [exact Hm|].
  apply IHx. clear IHx. revert m Hm.
  induction zs as [|z zs IHz]; intros m Hm; simpl; [exact Hm|].
  apply IHz. intros node l Hin.
  apply In_set_inv in Hin. destruct Hin as [[= _ ->]|Hin]; eauto.
Qed.

Lemma buildLights_entries rPhase rTimer node l :
  In (node, l) (buildLights rPhase rTimer) ->
  exists x z, l = newLight (nodeIdOf x z) (rPhase x z) (rTimer x z).
Proof.
  unfold buildLights. apply lights_fold_entries. intros ? ? [].
Qed.



(** C4 (as amended): the builder initialises every light's timer to
    [Math.random() * 10], an offset in [[0, 10)]: it lies within the cycle
    but covers only the first (NS-green) window [[0, G)] of the 32 s
    cycle. *)
Theorem light_timer_initial_offset rPhase rTimer node (l : TrafficLight.light) :
  (forall x z, 0 <= rTimer x z /\ rTimer x z < 1) ->
  In (node, l) (buildLights rPhase rTimer) ->
  0 <= TrafficLight.timer l /\ TrafficLight.timer l < T_GREEN /\
  T_GREEN < CYCLE.
Proof.
  intros Hr Hin.
  destruct (buildLights_entries _ _ _ _ Hin) as (x & z & ->).
  destruct (Hr x z) as [H0 H1]. simpl. unfold T_GREEN.
  split; [lra|]. split; [lra | reflexivity].
Qed.

Lemma light_timer_initial_offset_witness :
  let l := newLight "0_0" (1 # 2) (1 # 2) in
  0 <= TrafficLight.timer l /\ TrafficLight.timer l < T_GREEN /\
  T_GREEN < CYCLE.
Proof.
  apply (light_timer_initial_offset (fun _ _ => 1 # 2) (fun _ _ => 1 # 2) "0_0").
  - intros x z. split; [discriminate | reflexivity].
  - left. reflexivity.
Defined.

(** C4 (as stated) fails: the offset 20 lies in [[0, cycleLength)], yet no
    draw of [Math.random()] in [[0, 1)] initialises a timer to it. *)
Lemma light_timer_not_full_cycle :
  ~ (forall tau : Q, 0 <= tau -> tau < CYCLE ->
       exists rPhase rTimer : Q,
         0 <= rTimer /\ rTimer < 1 /\
         TrafficLight.timer (newLight "0_0" rPhase rTimer) == tau).
Proof.
  intros H. destruct (H 20) as (rp & rt & H0 & H1 & E);
    [discriminate | reflexivity |].
  simpl in E. lra.
Qed.

End SignalFacts.

(** ** Arrays of objects and [forEach] *)

Section ArrayFacts.
Variable A : Type.
Implicit Types (l : list A) (x y : A) (i j k : nat).

Lemma length_updateAt l i x : List.length (updateAt l i x) = List.length l.
Proof.
  revert i. induction l as [|a l IH]; intros [|i]; simpl; auto.
Qed.

Lemma nth_error_updateAt_same l i x :
  (i < List.length l)%nat -> nth_error (updateAt l i x) i = Some x.
Proof.
  revert i. induction l as [|a l IH]; intros [|i] H; simpl in *; try lia; auto.
  apply IH. lia.
Qed.

Lemma nth_error_updateAt_other l i j x :
  i <> j -> nth_error (updateAt l i x) j = nth_error l j.
Proof.
  revert i j. induction l as [|a l IH]; intros [|i] [|j] H; simpl; auto.
  contradiction.
Qed.

Lemma map_updateAt (B : Type) (f : A -> B) l i x y :
  nth_error l i = Some x -> f y = f x -> map f (updateAt l i y) = map f l.
Proof.
  revert i. induction l as [|a l IH]; intros [|i] H E; simpl in *; try discriminate.
  - injection H as ->. now rewrite E.
  - f_equal. now apply IH.
Qed.

Variable body : list A -> nat -> A -> option A.

Lemma forEach_None (ks : list nat) :
  fold_left (forEachStep body) ks None = None.
Proof. induction ks; simpl; auto. Qed.

Lemma forEachStep_Some (cur : list A) (k : nat) :
  forEachStep body (Some cur) k
  = match nth_error cur k with
    | Some x => match body cur k x with
                | Some y => Some (updateAt cur k y)
                | None => None
                end
    | None => None
    end.
Proof. reflexivity. Qed.

(** Invariant rule for a [forEach] whose every turn succeeds. *)
Lemma forEach_total (I : nat -> list A -> Prop) (arr : list A) :
  I O arr ->
  (forall k cur, (k < List.length arr)%nat -> I k cur ->
     exists x y, nth_error cur k = Some x /\ body cur k x = Some y /\
                 I (S k) (updateAt cur k y)) ->
  exists out, forEach body arr = Some out /\ I (List.length arr) out.
Proof.
  intros H0 Hstep. unfold forEach.
  set (n := List.length arr) in *.
  assert (G : forall m k cur, (k + m = n)%nat -> I k cur ->
            exists out, fold_left (forEachStep body) (seq k m) (Some cur) = Some out
                        /\ I n out).
  { induction m as [|m IH]; intros k cur E Hk; cbn [fold_left seq].
    - replace n with k by lia. eauto.
    - destruct (Hstep k cur) as (x & y & Hx & Hy & HI); [lia | exact Hk |].
      rewrite forEachStep_Some, Hx, Hy.
      apply IH; [lia | exact HI]. }
  apply (G n O arr); [lia | exact H0].
Qed.

(** Invariant rule for a [forEach] that is known to have completed. *)
Lemma forEach_partial (I : nat -> list A -> Prop) (arr out : list A) :
  I O arr ->
  (forall k cur x y, (k < List.length arr)%nat -> I k cur ->
     nth_error cur k = Some x -> body cur k x = Some y ->
     I (S k) (updateAt cur k y)) ->
  forEach body arr = Some out -> I (List.length arr) out.
Proof.
  intros H0 Hstep. unfold forEach.
  set (n := List.length arr) in *.
  assert (G : forall m k cur, (k + m = n)%nat -> I k cur ->
            fold_left (forEachStep body) (seq k m) (Some cur) = Some out ->
            I n out).
  { induction m as [|m IH]; intros k cur E Hk; cbn [fold_left seq].
    - replace n with k by lia. now intros [= <-].
    - rewrite forEachStep_Some.
      destruct (nth_error cur k) as [x|] eqn:Hx;
        [|rewrite forEach_None; discriminate].
      destruct (body cur k x) as [y|] eqn:Hy;
        [|rewrite forEach_None; discriminate].
      apply IH; [lia|]. apply (Hstep k cur x y); auto. lia. }
  apply (G n O arr); [lia | exact H0].
Qed.

End ArrayFacts.

(** ** Pass 1: what a car perceives *)

Section PerceiveFacts.
Context {M : JSMath}.
Variable lanes : Lanes.
Variables rTarget rRespawn : nat -> Q.
Import JS JSFacts.
Open Scope Q_scope.

Lemma decide_t car p : Car.t (decide car p) = Car.t car.
Proof. unfold decide. destruct (JS.ltb _ _); reflexivity. Qed.

Lemma decide_laneId car p : Car.laneId (decide car p) = Car.laneId car.
Proof. unfold decide. destruct (JS.ltb _ _); reflexivity. Qed.

Lemma decide_id car p : Car.id (decide car p) = Car.id car.
Proof. unfold decide. destruct (JS.ltb _ _); reflexivity. Qed.

Lemma decide_target car p : Car.targetLaneId (decide car p) = target p.
Proof. unfold decide. destruct (JS.ltb _ _); reflexivity. Qed.

(** Two arrays that hold the same positions hold cars at the same
    indices. *)
Lemma sameT_nth (cur snap : list Car.car) (j : nat) :
  map Car.t cur = map Car.t snap ->
  option_map Car.t (nth_error cur j) = option_map Car.t (nth_error snap j).
Proof.
  intros E. rewrite <- !nth_error_map. now rewrite E.
Qed.

Lemma lastCarOn_sameT byLane (cur snap : list Car.car) tgt :
  map Car.t cur = map Car.t snap ->
  option_map Car.t (lastCarOn byLane cur tgt)
  = option_map Car.t (lastCarOn byLane snap tgt).
Proof.
  intros E. unfold lastCarOn.
  destruct (truthy tgt); [|reflexivity].
  destruct (JSMap.get byLane (strOf tgt)) as [l|]; [|reflexivity].
  destruct (Nat.ltb 0 (List.length l)); [|reflexivity].
  destruct (lastOf l) as [j|]; simpl; [|reflexivity].
  now apply sameT_nth.
Qed.

(** The gap and the committed target that a car perceives depend on the
    other cars through their positions only, which pass 1 never moves. *)
Lemma perceive_gap_stable byLane lights (cur snap : list Car.car) i car :
  map Car.t cur = map Car.t snap ->
  option_map (fun p => (gap p, target p))
             (perceive lanes rTarget byLane lights cur i car)
  = option_map (fun p => (gap p, target p))
               (perceive lanes rTarget byLane lights snap i car).
Proof.
  intros E. unfold perceive.
  destruct (leaderOf byLane car i) as [j|].
  - pose proof (sameT_nth _ _ j E) as Ej.
    destruct (nth_error cur j) as [c1|], (nth_error snap j) as [c2|];
      simpl in *; try discriminate; [|reflexivity].
    injection Ej as ->. reflexivity.
  - destruct (JSMap.get lanes (Car.laneId car)) as [currentLane|]; [|reflexivity].
    simpl.
    destruct (Lane.type currentLane).
    + destruct (getTrafficLightState lights currentLane); try reflexivity.
      set (tgt := if negb _ && _ then _ else _).
      pose proof (lastCarOn_sameT byLane _ _ tgt E) as El.
      destruct (lastCarOn byLane cur tgt) as [c1|],
               (lastCarOn byLane snap tgt) as [c2|];
        simpl in *; try discriminate; [|reflexivity].
      injection El as ->.
      destruct (JS.ltb _ 50); reflexivity.
    + set (tgt := if negb _ && _ then _ else _).
      pose proof (lastCarOn_sameT byLane _ _ tgt E) as El.
      destruct (lastCarOn byLane cur tgt) as [c1|],
               (lastCarOn byLane snap tgt) as [c2|];
        simpl in *; try discriminate; [|reflexivity].
      injection El as ->. reflexivity.
Qed.

End PerceiveFacts.

(** ** The hard stop below [MIN_GAP] *)

Section Clamp.
Context {M : JSMath}.
Variable lanes : Lanes.
Variables rTarget rRespawn : nat -> Q.
Import JS JSFacts.
Open Scope Q_scope.

(** The record that pass 1 leaves for a car whose gap is below [MIN_GAP]. *)
Lemma decide_clamped car p :
  gap p < MIN_GAP ->
  decide car p
  = Car.mk (Car.id car) (Car.active car) (Car.laneId car) (Car.t car)
           0 (- IDM_B * 4) (Car.color car) (target p).
Proof.
  intros H. unfold decide. apply ltb_lt in H. now rewrite H.
Qed.

(** Pass 1 leaves every position in place and, at a car that perceives a
    gap below [MIN_GAP], the clamped record. *)
Lemma pass1_clamps byLane lights cars cars1 i car p :
  nth_error cars i = Some car ->
  perceive lanes rTarget byLane lights cars i car = Some p ->
  gap p < MIN_GAP ->
  pass1 lanes rTarget byLane lights cars = Some cars1 ->
  List.length cars1 = List.length cars /\
  nth_error cars1 i = Some (decide car p).
Proof.
  intros Hi Hp Hgap Hrun.
  assert (Hlt : (i < List.length cars)%nat).
  { apply nth_error_Some. congruence. }
  set (I := fun (k : nat) (cur : list Car.car) =>
              List.length cur = List.length cars /\
              map Car.t cur = map Car.t cars /\
              ((k <= i)%nat -> nth_error cur i = Some car) /\
              ((i < k)%nat -> nth_error cur i = Some (decide car p))).
  assert (Fin : I (List.length cars) cars1).
  { apply (forEach_partial _ (pass1Body lanes rTarget byLane lights) I cars cars1);
      [| |exact Hrun].
    - repeat split; auto. intros; lia.
    - intros k cur x y Hk (HL & HT & Hbefore & Hafter) Hx Hy.
      unfold pass1Body in Hy.
      destruct (perceive lanes rTarget byLane lights cur k x) as [p'|] eqn:Hp';
        simpl in Hy; [|discriminate].
      injection Hy as <-.
      repeat split.
      + now rewrite length_updateAt.
      + rewrite (map_updateAt _ _ Car.t cur k x); auto. apply decide_t.
      + intros Hle. rewrite nth_error_updateAt_other by lia. apply Hbefore. lia.
      + intros Hlt'. destruct (Nat.eq_dec k i) as [->|Hne].
        * rewrite nth_error_updateAt_same by lia.
          rewrite Hbefore in Hx by lia. injection Hx as <-.
          pose proof (perceive_gap_stable lanes rTarget byLane lights cur cars i car HT) as S.
          rewrite Hp', Hp in S. simpl in S. injection S as Sg St.
          f_equal. rewrite !decide_clamped by (rewrite ?Sg; exact Hgap).
          now rewrite St.
        * rewrite nth_error_updateAt_other by exact Hne. apply Hafter. lia. }
  destruct Fin as (HL & _ & _ & Hafter). split; [exact HL|].
  apply Hafter. exact Hlt.
Qed.

(** Pass 2 integrates every car from its own record. *)
Lemma pass2_pointwise dt cars1 cars2 i c1 :
  nth_error cars1 i = Some c1 ->
  pass2 lanes rRespawn dt cars1 = Some cars2 ->
  exists c2, integrate lanes rRespawn dt c1 = Some c2 /\ nth_error cars2 i = Some c2.
Proof.
  intros Hi Hrun.
  assert (Hlt : (i < List.length cars1)%nat).
  { apply nth_error_Some. congruence. }
  set (I := fun (k : nat) (cur : list Car.car) =>
              List.length cur = List.length cars1 /\
              ((k <= i)%nat -> nth_error cur i = Some c1) /\
              ((i < k)%nat -> exists c2, integrate lanes rRespawn dt c1 = Some c2 /\
                                         nth_error cur i = Some c2)).
  assert (Fin : I (List.length cars1) cars2).
  { apply (forEach_partial _ (fun _ _ car => integrate lanes rRespawn dt car) I cars1 cars2);
      [| |exact Hrun].
    - repeat split; auto. intros; lia.
    - intros k cur x y Hk (HL & Hbefore & Hafter) Hx Hy.
      repeat split.
      + now rewrite length_updateAt.
      + intros Hle. rewrite nth_error_updateAt_other by lia. apply Hbefore. lia.
      + intros Hlt'. destruct (Nat.eq_dec k i) as [->|Hne].
        * rewrite nth_error_updateAt_same by lia.
          rewrite Hbefore in Hx by lia. injection Hx as <-. eauto.
        * rewrite nth_error_updateAt_other by exact Hne. apply Hafter. lia. }
  destruct Fin as (_ & _ & Hafter). apply Hafter. exact Hlt.
Qed.

(** Integrating a stopped car that carries a negative acceleration. *)
Lemma integrate_stopped dt c1 c2 :
  Car.v c1 = 0 -> Car.a c1 < 0 ->
  integrate lanes rRespawn dt c1 = Some c2 ->
  Car.v c2 == 0 /\ Car.a c2 = 0.
Proof.
  intros Hv Ha. unfold integrate. rewrite Hv.
  apply ltb_lt in Ha. rewrite Ha. simpl.
  assert (E : Math_max 0 (0 + 0 * dt) == 0).
  { destruct (Math_max_spec 0 (0 + 0 * dt)) as [[_ ->]|[_ ->]]; ring. }
  destruct (JSMap.get lanes (Car.laneId c1)) as [lane|]; simpl; [|discriminate].
  destruct (geb _ _).
  - destruct (truthy _).
    + intros [= <-]. simpl. split; [exact E | reflexivity].
    + destruct (nthZ _ _); simpl; [|discriminate].
      intros [= <-]. simpl. split; [exact E | reflexivity].
  - intros [= <-]. simpl. split; [exact E | reflexivity].
Qed.

(** A car that perceives a gap below [MIN_GAP] ends the tick stopped, with
    a stored acceleration of 0. *)
Lemma clamped_car_after_tick lights cars dt i car p lights' cars' :
  nth_error cars i = Some car ->
  perceive lanes rTarget (carsByLaneOf cars) (updateTrafficLights dt lights)
           cars i car = Some p ->
  gap p < MIN_GAP ->
  updatePhysics lanes rTarget rRespawn dt lights cars = Some (lights', cars') ->
  exists c', nth_error cars' i = Some c' /\ Car.v c' == 0 /\ Car.a c' = 0.
Proof.
  intros Hi Hp Hgap Hrun. unfold updatePhysics in Hrun.
  destruct (pass1 _ _ _ _ cars) as [cars1|] eqn:H1; simpl in Hrun; [|discriminate].
  destruct (pass2 _ _ dt cars1) as [cars2|] eqn:H2; simpl in Hrun; [|discriminate].
  injection Hrun as _ <-.
  destruct (pass1_clamps _ _ _ _ _ _ _ Hi Hp Hgap H1) as [_ Hc1].
  rewrite (decide_clamped car p Hgap) in Hc1.
  destruct (pass2_pointwise _ _ _ _ _ Hc1 H2) as (c2 & Hint & Hc2).
  exists c2. split; [exact Hc2|].
  eapply (integrate_stopped dt); [| |exact Hint]; reflexivity.
Qed.

(** C1 (as amended): when the gap that a car perceives is below [MIN_GAP],
    pass 1 stores speed 0 and the emergency value [-IDM_B * 4] on it; at
    the end of the tick its speed is exactly 0 and its stored acceleration
    is 0, because pass 2 resets the negative acceleration of a stopped
    car. *)
Theorem hard_stop_clamp lights cars dt i car p lights' cars' :
  nth_error cars i = Some car ->
  perceive lanes rTarget (carsByLaneOf cars) (updateTrafficLights dt lights)
           cars i car = Some p ->
  gap p < MIN_GAP ->
  updatePhysics lanes rTarget rRespawn dt lights cars = Some (lights', cars') ->
  (exists cars1 c1,
      pass1 lanes rTarget (carsByLaneOf cars) (updateTrafficLights dt lights) cars
      = Some cars1 /\
      nth_error cars1 i = Some c1 /\
      Car.v c1 = 0 /\ Car.a c1 = - IDM_B * 4) /\
  (exists c', nth_error cars' i = Some c' /\ Car.v c' == 0 /\ Car.a c' = 0).
Proof.
  intros Hi Hp Hgap Hrun. split.
  - unfold updatePhysics in Hrun.
    destruct (pass1 _ _ _ _ cars) as [cars1|] eqn:H1; simpl in Hrun; [|discriminate].
    destruct (pass1_clamps _ _ _ _ _ _ _ Hi Hp Hgap H1) as [_ Hc1].
    rewrite (decide_clamped car p Hgap) in Hc1.
    eexists _, _. split; [reflexivity|]. split; [exact Hc1|]. split; reflexivity.
  - eapply clamped_car_after_tick; eauto.
Qed.

End Clamp.

(** The middle car of the queue perceives a gap of [130 - 128 - 4.6]. *)
Lemma queueMiddle_perceives :
  exists p,
    perceive cityLanes carDraw (carsByLaneOf queue)
             (updateTrafficLights PHYSICS_DT cityLights) queue 1 queueMiddle
    = Some p /\ gap p < MIN_GAP.
Proof.
  eexists. split; [lazy; reflexivity | lazy; reflexivity].
Qed.

Lemma cityTick_queue_runs :
  exists lights' cars', cityTick queue = Some (lights', cars').
Proof.
  destruct (cityTick queue) as [[L C]|] eqn:E; [eauto|].
  exfalso. lazy in E. discriminate E.
Qed.

Lemma hard_stop_clamp_witness :
  exists lights' cars' c',
    cityTick queue = Some (lights', cars') /\
    nth_error cars' 1 = Some c' /\ Car.v c' == 0 /\ Car.a c' = 0.
Proof.
  destruct cityTick_queue_runs as (L & C & E).
  destruct queueMiddle_perceives as (p & Hp & Hgap).
  assert (Hi : nth_error queue 1 = Some queueMiddle) by reflexivity.
  destruct (hard_stop_clamp (M := approxMath) cityLanes carDraw carDraw
              cityLights queue PHYSICS_DT 1 queueMiddle p L C
              Hi Hp Hgap E) as [_ (c' & H)].
  exists L, C, c'. split; [exact E | exact H].
Defined.

(** C1 (as stated) fails: the middle car of the queue perceives a gap
    below [MIN_GAP], yet at the end of the tick its stored acceleration is
    not the emergency-braking value [-IDM_B * 4]. *)
Lemma hard_stop_acceleration_not_kept :
  exists p lights' cars' c',
    perceive cityLanes carDraw (carsByLaneOf queue)
             (updateTrafficLights PHYSICS_DT cityLights) queue 1 queueMiddle
    = Some p /\ gap p < MIN_GAP /\
    cityTick queue = Some (lights', cars') /\
    nth_error cars' 1 = Some c' /\
    ~ Car.a c' == - IDM_B * 4.
Proof.
  destruct cityTick_queue_runs as (L & C & E).
  destruct queueMiddle_perceives as (p & Hp & Hgap).
  assert (Hi : nth_error queue 1 = Some queueMiddle) by reflexivity.
  destruct (clamped_car_after_tick (M := approxMath) cityLanes carDraw carDraw
              cityLights queue PHYSICS_DT 1 queueMiddle p L C
              Hi Hp Hgap E) as (c' & Hc & _ & Ha).
  exists p, L, C, c'. repeat split; auto.
  rewrite Ha. intros H. discriminate H.
Qed.

(** ** The car-following model on the worked scenario *)

Section WorkedScenario.
Context {M : JSMath}.
Import JS JSFacts.
Open Scope Q_scope.

Lemma pair_perception lanes rTarget lights :
  perceive lanes rTarget (carsByLaneOf pair) lights pair 1 pairFollower
  = Some (mkPerception (50 - 0 - CAR_LENGTH) (14 - 10) None).
Proof. reflexivity. Qed.

(** The desired spacing and the acceleration of the follower, for a square
    root of [IDM_A * IDM_B = 3.75] that is right to three decimals. *)
Lemma follower_numbers :
  1.936 < Math_sqrt (IDM_A * IDM_B) -> Math_sqrt (IDM_A * IDM_B) < 1.937 ->
  39.85 < s_star 14 (14 - 10) /\ s_star 14 (14 - 10) < 39.87 /\
  -1.157 < idmAcc 14 (50 - 0 - CAR_LENGTH) (14 - 10) /\
  idmAcc 14 (50 - 0 - CAR_LENGTH) (14 - 10) < -1.155.
Proof.
  intros Hlo Hhi.
  set (r := Math_sqrt (IDM_A * IDM_B)) in *.
  set (x := (14 * (14 - 10)) / (2 * r)).
  assert (Hx : x * (2 * r) == 56) by (unfold x; field; lra).
  assert (Hx1 : 14.45 < x) by nra.
  assert (Hx2 : x < 14.47) by nra.
  assert (Es : s_star 14 (14 - 10) = IDM_S0 + Math_max 0 (14 * IDM_T + x))
    by reflexivity.
  assert (Em : Math_max 0 (14 * IDM_T + x) = 14 * IDM_T + x).
  { destruct (Math_max_spec 0 (14 * IDM_T + x)) as [[_ E]|[H _]]; [exact E|].
    unfold IDM_T in H. exfalso. lra. }
  rewrite Es, Em. unfold IDM_S0, IDM_T.
  split; [lra|]. split; [lra|].
  unfold idmAcc. rewrite Es, Em. unfold IDM_S0, IDM_T, IDM_A, IDM_V0, CAR_LENGTH.
  set (s := 3.0 + (14 * 1.6 + x)).
  assert (Hs1 : 39.85 < s) by (unfold s; lra).
  assert (Hs2 : s < 39.87) by (unfold s; lra).
  assert (Eg : Math_max 0.1 (50 - 0 - 4.6) = 50 - 0 - 4.6) by reflexivity.
  rewrite Eg.
  set (q := s / (50 - 0 - 4.6)).
  assert (Hq : q * 45.4 == s) by (unfold q; field).
  assert (Ep : Math_pow (14 / 14.0) 4 == 1) by reflexivity.
  assert (Eq2 : Math_pow q 2 == q * q) by (simpl; ring).
  rewrite Ep, Eq2.
  assert (Hq1 : 0.8777 < q) by lra.
  assert (Hq2 : q < 0.8782) by lra.
  split; nra.
Qed.

Lemma follower_decides p :
  p = mkPerception (50 - 0 - CAR_LENGTH) (14 - 10) None ->
  Car.a (decide pairFollower p) = idmAcc 14 (50 - 0 - CAR_LENGTH) (14 - 10).
Proof. intros ->. reflexivity. Qed.

(** C5 (as amended): in the worked scenario the follower perceives
    [gap = 45.4] and a closing speed of 4; its desired spacing is about
    39.86 (the interaction term [14 * 4 / (2 sqrt 3.75)] is about 14.46),
    and its acceleration is about -1.156. *)
Theorem worked_scenario_numbers lanes rTarget lights :
  1.936 < Math_sqrt (IDM_A * IDM_B) -> Math_sqrt (IDM_A * IDM_B) < 1.937 ->
  exists p,
    perceive lanes rTarget (carsByLaneOf pair) lights pair 1 pairFollower = Some p /\
    gap p == 45.4 /\ dv p == 4 /\
    39.85 < s_star (Car.v pairFollower) (dv p) /\
    s_star (Car.v pairFollower) (dv p) < 39.87 /\
    -1.157 < Car.a (decide pairFollower p) /\
    Car.a (decide pairFollower p) < -1.155.
Proof.
  intros Hlo Hhi.
  destruct (follower_numbers Hlo Hhi) as (S1 & S2 & A1 & A2).
  eexists. split; [apply pair_perception|].
  rewrite (follower_decides _ eq_refl). simpl gap. simpl dv.
  split; [reflexivity|]. split; [reflexivity|]. auto.
Qed.

End WorkedScenario.

Lemma sqrtApprox_AB :
  1.936 < Math_sqrt (JSMath := approxMath) (IDM_A * IDM_B) /\
  Math_sqrt (JSMath := approxMath) (IDM_A * IDM_B) < 1.937.
Proof. split; vm_compute; reflexivity. Qed.

Lemma worked_scenario_numbers_witness :
  exists p,
    perceive cityLanes carDraw (carsByLaneOf pair) cityLights pair 1 pairFollower
    = Some p /\
    gap p == 45.4 /\ dv p == 4 /\
    39.85 < s_star (M := approxMath) (Car.v pairFollower) (dv p) /\
    s_star (M := approxMath) (Car.v pairFollower) (dv p) < 39.87 /\
    -1.157 < Car.a (decide (M := approxMath) pairFollower p) /\
    Car.a (decide (M := approxMath) pairFollower p) < -1.155.
Proof.
  apply (worked_scenario_numbers (M := approxMath) cityLanes carDraw cityLights).
  - vm_compute; reflexivity.
  - vm_compute; reflexivity.
Defined.

(** C5 (as stated) fails: the follower perceives [gap = 45.4] and a closing
    speed of 4, but its desired spacing is not 45.8 and its acceleration is
    not within 0.01 of -1.53. *)
Lemma worked_scenario_not_as_stated :
  exists p,
    perceive cityLanes carDraw (carsByLaneOf pair) cityLights pair 1 pairFollower
    = Some p /\
    gap p == 45.4 /\ dv p == 4 /\
    ~ s_star (M := approxMath) (Car.v pairFollower) (dv p) == 45.8 /\
    ~ (-1.54 < Car.a (decide (M := approxMath) pairFollower p) /\
       Car.a (decide (M := approxMath) pairFollower p) < -1.52).
Proof.
  destruct sqrtApprox_AB as [Hlo Hhi].
  destruct (follower_numbers (M := approxMath) Hlo Hhi) as (S1 & S2 & A1 & A2).
  eexists. split; [apply pair_perception|].
  rewrite (follower_decides (M := approxMath) _ eq_refl). simpl gap. simpl dv.
  split; [reflexivity|]. split; [reflexivity|]. split.
  - intros E. change (Car.v pairFollower) with 14 in E. rewrite E in S2.
    revert S2. apply Qle_not_lt. discriminate.
  - intros [_ B]. lra.
Qed.

(** ** [initCars] *)

Section InitCars.
Import JS JSFacts.
Open Scope Q_scope.

(** [arr[Math.floor(Math.random() * arr.length)]] is an element of a
    non-empty array. *)
Lemma random_pick {A : Type} (l : list A) (r : Q) :
  0 <= r -> r < 1 -> l <> [] ->
  exists x, nthZ l (Math_floor (r * inject_Z (Z.of_nat (List.length l)))) = Some x
            /\ In x l.
Proof.
  intros H0 H1 Hne.
  set (n := List.length l).
  assert (Hn : (0 < n)%nat).
  { unfold n. destruct l; [contradiction | simpl; lia]. }
  assert (Hq : 0 < inject_Z (Z.of_nat n)).
  { change 0 with (inject_Z 0). rewrite <- Zlt_Qlt. lia. }
  assert (Hlo : 0 <= r * inject_Z (Z.of_nat n)) by (apply Qmult_le_0_compat; lra).
  assert (Hhi : r * inject_Z (Z.of_nat n) < inject_Z (Z.of_nat n)) by nra.
  set (k := Math_floor (r * inject_Z (Z.of_nat n))).
  assert (Hk0 : (0 <= k)%Z).
  { unfold k, Math_floor. change 0%Z with (Qfloor 0). now apply Qfloor_resp_le. }
  assert (Hk1 : (k < Z.of_nat n)%Z).
  { unfold k, Math_floor. rewrite Zlt_Qlt.
    eapply Qle_lt_trans; [apply Qfloor_le | exact Hhi]. }
  unfold nthZ. destruct (Z.ltb k 0) eqn:E; [apply Z.ltb_lt in E; lia|].
  destruct (nth_error l (Z.to_nat k)) as [x|] eqn:Ex.
  - exists x. split; [reflexivity|]. eapply nth_error_In; eauto.
  - apply nth_error_None in Ex. fold n in Ex. lia.
Qed.

Lemma startLanesOf_spec lanes l :
  In l (startLanesOf lanes) <->
  In l (JSMap.values lanes) /\ Lane.type l = ROAD.
Proof.
  unfold startLanesOf. rewrite filter_In.
  destruct (Lane.type l); simpl; intuition congruence.
Qed.

Lemma newCar_fresh lanes i lane r :
  In lane (startLanesOf lanes) -> 0 < Lane.len lane -> 0 <= r -> r < 1 ->
  freshOn lanes (newCar i lane r).
Proof.
  intros Hin Hlen H0 H1. apply startLanesOf_spec in Hin. destruct Hin as [Hin Hty].
  exists lane. unfold newCar, IDM_V0. simpl.
  assert (0 <= r * Lane.len lane) by (apply Qmult_le_0_compat; lra).
  assert (r * Lane.len lane < Lane.len lane) by nra.
  repeat split; auto; try lra; reflexivity.
Qed.

Lemma initCarsFrom_spec lanes rLane rPos (idxs : list nat) :
  startLanesOf lanes <> [] ->
  (forall l, In l (startLanesOf lanes) -> 0 < Lane.len l) ->
  (forall i, 0 <= rLane i /\ rLane i < 1) ->
  (forall i, 0 <= rPos i /\ rPos i < 1) ->
  exists cars,
    initCarsFrom (startLanesOf lanes) rLane rPos idxs = Some cars /\
    map Car.id cars = idxs /\
    Forall (freshOn lanes) cars.
Proof.
  intros Hne Hlen HrL HrP.
  induction idxs as [|i idxs (cars & E & Hid & Hall)]; cbn [initCarsFrom].
  - exists []. auto.
  - destruct (HrL i) as [L0 L1]. destruct (HrP i) as [P0 P1].
    destruct (random_pick (startLanesOf lanes) (rLane i) L0 L1 Hne) as (lane & El & Hin).
    rewrite El. cbn [bind]. rewrite E. cbn [bind].
    eexists. split; [reflexivity|]. split; [simpl; now f_equal|].
    constructor; [|exact Hall].
    apply newCar_fresh; auto.
Qed.

(** C10: [initCars] creates [CAR_COUNT] cars, each on a ROAD lane (never a
    JUNCTION lane), at a position in [[0, 0.9 len)] of that lane, with
    half the desired speed (which is positive), zero acceleration and no
    committed target lane; the position is on the lane and the speed is
    non-negative before the first tick. *)
Theorem initCars_initial_state (lanes : Lanes) (rLane rPos : nat -> Q) :
  startLanesOf lanes <> [] ->
  (forall l, In l (startLanesOf lanes) -> 0 < Lane.len l) ->
  (forall i, 0 <= rLane i /\ rLane i < 1) ->
  (forall i, 0 <= rPos i /\ rPos i < 1) ->
  exists cars,
    initCars lanes rLane rPos = Some cars /\
    List.length cars = CAR_COUNT /\
    Forall (freshOn lanes) cars.
Proof.
  intros Hne Hlen HrL HrP.
  destruct (initCarsFrom_spec lanes rLane rPos (seq 0 CAR_COUNT) Hne Hlen HrL HrP)
    as (cars & E & Hid & Hall).
  exists cars. split; [exact E|]. split; [|exact Hall].
  rewrite <- (length_map Car.id), Hid. apply length_seq.
Qed.

End InitCars.

(** ** [carsByLane] *)

Section ByLane.
Open Scope nat_scope.

Lemma get_modify {V : Type} (m : JSMap.t V) k k' (f : V -> V) :
  JSMap.get (JSMap.modify m k f) k'
  = if String.eqb k k' then option_map f (JSMap.get m k') else JSMap.get m k'.
Proof.
  induction m as [|[k0 v0] m IH]; simpl.
  - now destruct (String.eqb k k').
  - destruct (String.eqb k0 k) eqn:E0; simpl.
    + apply String.eqb_eq in E0. subst k0.
      destruct (String.eqb k k'); reflexivity.
    + destruct (String.eqb k0 k') eqn:E1.
      * apply String.eqb_eq in E1. subst k0.
        rewrite String.eqb_sym in E0. now rewrite E0.
      * exact IH.
Qed.

Lemma get_map_values {V W : Type} (g : V -> W) (m : JSMap.t V) k :
  JSMap.get (map (fun kv => (fst kv, g (snd kv))) m) k
  = option_map g (JSMap.get m k).
Proof.
  induction m as [|[k0 v0] m IH]; simpl; [reflexivity|].
  destruct (String.eqb k0 k); auto.
Qed.

Lemma groupCar_get (m : CarsByLane) a c k :
  JSMap.get (groupCar m (a, c)) k
  = if String.eqb (Car.laneId c) k
    then Some (match JSMap.get m k with Some l => l | None => [] end ++ [a])
    else JSMap.get m k.
Proof.
  unfold groupCar, JSMap.has.
  destruct (String.eqb (Car.laneId c) k) eqn:E.
  - apply String.eqb_eq in E. subst k.
    destruct (JSMap.get m (Car.laneId c)) as [l|] eqn:G.
    + rewrite get_modify, String.eqb_refl, G. reflexivity.
    + rewrite get_modify, String.eqb_refl.
      rewrite JSMapFacts.get_set_same. reflexivity.
  - destruct (JSMap.get m (Car.laneId c)) as [l|] eqn:G.
    + rewrite get_modify, E. reflexivity.
    + rewrite get_modify, E.
      rewrite JSMapFacts.get_set_other; [reflexivity|].
      intros H. rewrite H, String.eqb_refl in E. discriminate.
Qed.

Lemma group_fold_get (cs : list Car.car) (a : nat) (m : CarsByLane) k :
  JSMap.get (fold_left groupCar (combine (seq a (List.length cs)) cs) m) k
  = match JSMap.get m k, idxOn cs a k with
    | Some l, r => Some (l ++ r)
    | None, [] => None
    | None, r => Some r
    end.
Proof.
  revert a m. induction cs as [|c cs IH]; intros a m;
    cbn [fold_left combine seq List.length idxOn].
  - destruct (JSMap.get m k); [now rewrite app_nil_r | reflexivity].
  - rewrite IH, groupCar_get.
    destruct (String.eqb (Car.laneId c) k) eqn:E.
    + destruct (JSMap.get m k) as [l|]; simpl.
      * now rewrite <- app_assoc.
      * reflexivity.
    + reflexivity.
Qed.

Lemma groupByLane_get (cars : list Car.car) k :
  JSMap.get (groupByLane cars) k
  = match idxOn cars 0 k with
    | [] => None
    | r => Some r
    end.
Proof.
  unfold groupByLane. rewrite group_fold_get. reflexivity.
Qed.

Lemma carsByLaneOf_get (cars : list Car.car) k :
  JSMap.get (carsByLaneOf cars) k
  = match idxOn cars 0 k with
    | [] => None
    | r => Some (sortByT cars r)
    end.
Proof.
  unfold carsByLaneOf. rewrite get_map_values, groupByLane_get.
  destruct (idxOn cars 0 k); reflexivity.
Qed.

Lemma idxOn_spec (cs : list Car.car) (a : nat) k j :
  In j (idxOn cs a k) <->
  exists c, nth_error cs (j - a) = Some c /\ a <= j /\ Car.laneId c = k.
Proof.
  revert a. induction cs as [|c cs IH]; intros a.
  - simpl. split; [tauto|]. intros (c & H & _). destruct (j - a); discriminate.
  - assert (Tail : In j (idxOn cs (S a) k) <->
                   exists c', nth_error (c :: cs) (j - a) = Some c' /\
                              S a <= j /\ Car.laneId c' = k).
    { rewrite IH. split; intros (c' & H & Hle & Hl); exists c'.
      - replace (j - a) with (S (j - S a)) by lia. auto.
      - replace (j - a) with (S (j - S a)) in H by lia. auto. }
    simpl idxOn.
    destruct (String.eqb (Car.laneId c) k) eqn:E.
    + apply String.eqb_eq in E. simpl In. rewrite Tail. split.
      * intros [<-|(c' & H & Hle & Hl)].
        -- exists c. rewrite Nat.sub_diag. auto.
        -- exists c'. auto with arith.
      * intros (c' & H & Hle & Hl).
        destruct (Nat.eq_dec a j) as [->|Hne]; [now left|]. right.
        exists c'. split; [exact H|]. split; [lia | exact Hl].
    + rewrite Tail. split.
      * intros (c' & H & Hle & Hl). exists c'. auto with arith.
      * intros (c' & H & Hle & Hl).
        destruct (Nat.eq_dec a j) as [->|Hne].
        -- rewrite Nat.sub_diag in H. simpl in H.
           assert (c' = c) by congruence. subst c'.
           rewrite Hl, String.eqb_refl in E. discriminate.
        -- exists c'. split; [exact H|]. split; [lia | exact Hl].
Qed.

Lemma insertByT_perm cars x l : Permutation (insertByT cars x l) (x :: l).
Proof.
  induction l as [|y l IH]; simpl; [reflexivity|].
  destruct (Qle_bool _ _); [reflexivity|].
  rewrite IH. apply perm_swap.
Qed.

Lemma sortByT_perm cars l : Permutation (sortByT cars l) l.
Proof.
  induction l as [|x l IH]; simpl; [reflexivity|].
  rewrite insertByT_perm. now constructor.
Qed.

(** Every reference held by [carsByLane] is a car of the array, on the
    lane it is listed under. *)
Lemma carsByLaneOf_members (cars : list Car.car) k l j :
  JSMap.get (carsByLaneOf cars) k = Some l ->
  (In j l <-> exists c, nth_error cars j = Some c /\ Car.laneId c = k).
Proof.
  rewrite carsByLaneOf_get. intros H.
  assert (E : Permutation l (idxOn cars 0 k)).
  { destruct (idxOn cars 0 k) as [|i r]; [discriminate|].
    injection H as <-. apply (sortByT_perm cars (i :: r)). }
  split.
  - intros Hin. apply (Permutation_in _ E) in Hin.
    apply idxOn_spec in Hin. destruct Hin as (c & Hc & _ & Hl).
    rewrite Nat.sub_0_r in Hc. eauto.
  - intros (c & Hc & Hl). apply (Permutation_in _ (Permutation_sym E)).
    apply idxOn_spec. exists c. rewrite Nat.sub_0_r. auto with arith.
Qed.

End ByLane.

(** ** The position of a car stays on its lane *)

Section Invariant.
Context {M : JSMath}.
Variable lanes : Lanes.
Variables rTarget rRespawn : nat -> Q.
Variable dt : Q.
Import JS JSFacts.
Open Scope Q_scope.

Lemma wfNetb_WFNet : wfNetb lanes dt = true -> WFNet lanes dt.
Proof.
  unfold wfNetb, WFNet. rewrite andb_true_iff, forallb_forall.
  intros [Hall Hkeys]. split.
  - intros l Hin.
    specialize (Hall l Hin). unfold laneOKb in Hall.
    rewrite !andb_true_iff, forallb_forall in Hall.
    destruct Hall as [[H0 H1] Hn].
    split; [now apply ltb_lt|]. split; [now apply Qle_bool_iff|].
    intros n Hnin. specialize (Hn n Hnin). rewrite andb_true_iff in Hn.
    destruct Hn as [Hne Hhas]. split.
    + intros ->. discriminate Hne.
    + unfold JSMap.has in Hhas. destruct (JSMap.get lanes n); [eauto|discriminate].
  - intros E. rewrite E in Hkeys. discriminate Hkeys.
Qed.

Lemma get_In_values {V : Type} (m : JSMap.t V) k v :
  JSMap.get m k = Some v -> In v (JSMap.values m).
Proof.
  intros H. apply JSMapFacts.get_In in H. unfold JSMap.values.
  change v with (snd (k, v)). now apply in_map.
Qed.

Hypothesis Hdt : 0 <= dt.
Hypothesis HWF : WFNet lanes dt.
Hypothesis HrR : forall i, 0 <= rRespawn i /\ rRespawn i < 1.

Lemma leaderOf_In byLane car i j :
  leaderOf byLane car i = Some j ->
  exists l, JSMap.get byLane (Car.laneId car) = Some l /\ In j l.
Proof.
  unfold leaderOf.
  destruct (JSMap.get byLane (Car.laneId car)) as [l|].
  - destruct (Z.ltb 0 _); [|discriminate].
    unfold nthZ. destruct (Z.ltb _ 0); [discriminate|].
    intros H. exists l. split; [reflexivity|]. eapply nth_error_In; eauto.
  - simpl. discriminate.
Qed.

Lemma nextLane_targetOK l k (o : option string) :
  JSMap.get lanes k = Some l ->
  (forall s, o = Some s -> In s (Lane.nextLanes l)) ->
  targetOK lanes o.
Proof.
  intros Hl Hin Ht. destruct o as [s|]; [|discriminate].
  destruct HWF as [HW _].
  destruct (HW l (get_In_values _ _ _ Hl)) as (_ & _ & Hn).
  destruct (Hn s (Hin s eq_refl)) as [_ He]. exact He.
Qed.

Lemma nthZ_In {A : Type} (l : list A) k x : nthZ l k = Some x -> In x l.
Proof.
  unfold nthZ. destruct (Z.ltb k 0); [discriminate|]. apply nth_error_In.
Qed.

(** Pass 1 perceives something for every car that is on a lane, and commits
    it to existing lanes only. *)
Lemma perceive_total byLane lights (cur : list Car.car) i car :
  (forall k l j, JSMap.get byLane k = Some l -> In j l ->
                 (j < List.length cur)%nat) ->
  CarOK lanes dt car ->
  exists p, perceive lanes rTarget byLane lights cur i car = Some p /\
            targetOK lanes (target p).
Proof.
  intros Hvalid (l & Hl & _ & _ & _ & _ & Htgt). unfold perceive.
  destruct (leaderOf byLane car i) as [j|] eqn:Elead.
  - destruct (leaderOf_In _ _ _ _ Elead) as (peers & Hp & Hin).
    specialize (Hvalid _ _ _ Hp Hin).
    destruct (nth_error cur j) as [leader|] eqn:Ej.
    + simpl. eexists. split; [reflexivity | exact Htgt].
    + apply nth_error_None in Ej. lia.
  - rewrite Hl. cbn [bind].
    assert (Hpick : forall (o : option string),
              (forall s, o = Some s -> In s (Lane.nextLanes l)) ->
              targetOK lanes
                (if negb (truthy (Car.targetLaneId car)) &&
                    Nat.ltb 0 (List.length (Lane.nextLanes l))
                 then o else Car.targetLaneId car)).
    { intros o Ho.
      destruct (negb (truthy (Car.targetLaneId car)) &&
                Nat.ltb 0 (List.length (Lane.nextLanes l)))%bool; [|exact Htgt].
      eapply nextLane_targetOK; eauto. }
    destruct (Lane.type l).
    + destruct (getTrafficLightState lights l).
      * set (tgt := if negb _ && _ then _ else _).
        assert (Ht : targetOK lanes tgt).
        { apply Hpick. intros s Hs. eapply nthZ_In; eauto. }
        destruct (lastCarOn byLane cur tgt);
          [destruct (JS.ltb _ 50)|]; eexists; (split; [reflexivity | exact Ht]).
      * eexists. split; [reflexivity | exact Htgt].
      * eexists. split; [reflexivity | exact Htgt].
    + set (tgt := if negb _ && _ then _ else _).
      assert (Ht : targetOK lanes tgt).
      { apply Hpick. intros s Hs. eapply nth_error_In; eauto. }
      destruct (lastCarOn byLane cur tgt);
        eexists; (split; [reflexivity | exact Ht]).
Qed.

Lemma Math_pow_2_nonneg x : 0 <= Math_pow x 2.
Proof. simpl. nra. Qed.

Lemma Math_pow_4_nonneg x : 0 <= Math_pow x 4.
Proof.
  simpl. assert (0 <= x * x) by nra.
  setoid_replace (x * (x * (x * (x * 1)))) with ((x * x) * (x * x)) by ring. nra.
Qed.

Lemma idmAcc_le v g d :
  idmAcc v g d <= IDM_A * (1 - Math_pow (v / IDM_V0) 4).
Proof.
  unfold idmAcc.
  pose proof (Math_pow_2_nonneg (s_star v d / Math_max 0.1 g)) as H.
  unfold IDM_A. lra.
Qed.

Lemma decide_mid car p :
  CarOK lanes dt car -> targetOK lanes (target p) ->
  CarMid lanes dt (decide car p).
Proof.
  intros (l & Hl & T0 & T1 & V0 & V1 & _) Htgt. unfold decide.
  destruct (JS.ltb (gap p) MIN_GAP).
  - split.
    + exists l. simpl. unfold speedCap, IDM_V0, IDM_A in *.
      assert (0 <= 1.5 * dt) by (apply Qmult_le_0_compat; lra).
      repeat split; auto; lra.
    + simpl. vm_compute. discriminate.
  - split.
    + exists l. simpl. repeat split; auto.
    + simpl. apply idmAcc_le.
Qed.

Lemma keys_get {V : Type} (m : JSMap.t V) k :
  In k (JSMap.keys m) -> exists v, JSMap.get m k = Some v.
Proof.
  induction m as [|[k0 v0] m IH]; simpl; [tauto|].
  intros [->|H].
  - rewrite String.eqb_refl. eauto.
  - destruct (String.eqb k0 k); eauto.
Qed.

Lemma speedCap_nonneg : 0 <= speedCap dt.
Proof.
  unfold speedCap, IDM_V0, IDM_A.
  assert (0 <= 1.5 * dt) by (apply Qmult_le_0_compat; lra). lra.
Qed.

(** The speed after integration stays within the cap: above the desired
    speed the free-road term makes the acceleration negative. *)
Lemma new_speed_bounds (v a : Q) :
  0 <= v -> v <= speedCap dt ->
  a <= IDM_A * (1 - Math_pow (v / IDM_V0) 4) ->
  let a1 := if JS.eqb v 0 && JS.ltb a 0 then 0 else a in
  0 <= Math_max 0 (v + a1 * dt) /\ Math_max 0 (v + a1 * dt) <= speedCap dt.
Proof.
  intros V0 V1 Ha a1. split; [apply Math_max_l|].
  pose proof speedCap_nonneg as Hc.
  assert (Hsum : v + a1 * dt <= speedCap dt).
  { unfold a1. destruct (JS.eqb v 0 && JS.ltb a 0).
    - lra.
    - set (x := v / IDM_V0) in *.
      assert (Ex : x * 14 == v) by (unfold x, IDM_V0; field).
      assert (Hx : 0 <= x) by lra.
      simpl in Ha. unfold IDM_A in Ha. unfold speedCap, IDM_V0, IDM_A in *.
      assert (Hx2 : 0 <= x * x) by nra.
      setoid_replace (x * (x * (x * (x * 1)))) with ((x * x) * (x * x)) in Ha by ring.
      destruct (Qlt_le_dec 1 x) as [Hgt|Hle].
      + assert (1 < x * x) by nra.
        assert (1 < (x * x) * (x * x)) by nra.
        assert (a <= 0) by lra.
        assert (a * dt <= 0) by nra. lra.
      + assert (0 <= (x * x) * (x * x)) by nra.
        assert (a <= 1.5) by lra.
        assert (a * dt <= 1.5 * dt) by nra. lra. }
  destruct (Math_max_spec 0 (v + a1 * dt)) as [[_ ->]|[_ ->]]; lra.
Qed.

(** Pass 2 moves a car along its lane, onto its target lane, or back to
    the start of a road. *)
Lemma integrate_ok c :
  CarMid lanes dt c ->
  exists c', integrate lanes rRespawn dt c = Some c' /\ CarOK lanes dt c'.
Proof.
  intros [(l & Hl & T0 & T1 & V0 & V1 & Htgt) Ha].
  destruct (new_speed_bounds _ _ V0 V1 Ha) as [W0 W1].
  unfold integrate. rewrite Hl. cbn [bind].
  set (a1 := if JS.eqb (Car.v c) 0 && JS.ltb (Car.a c) 0 then 0 else Car.a c) in *.
  set (v1 := Math_max 0 (Car.v c + a1 * dt)) in *.
  set (col := if JS.ltb a1 (-0.5) then _ else _).
  assert (Hstep0 : 0 <= v1 * dt) by (apply Qmult_le_0_compat; lra).
  assert (Hstep1 : v1 * dt <= speedCap dt * dt) by (apply Qmult_le_compat_r; lra).
  destruct HWF as [HW Hkeys].
  destruct (JS.geb (Car.t c + v1 * dt) (Lane.len l)) eqn:Ege.
  - apply geb_ge in Ege.
    destruct (truthy (Car.targetLaneId c)) eqn:Et.
    + destruct (Htgt Et) as (l' & Hl').
      destruct (HW _ (get_In_values _ _ _ Hl')) as (L0 & L1 & _).
      eexists. split; [reflexivity|].
      exists l'. simpl. repeat split; auto; try lra.
      intros Ht. discriminate Ht.
    + destruct (HrR (Car.id c)) as [R0 R1].
      destruct (random_pick _ _ R0 R1 Hkeys) as (k & Ek & Hin).
      rewrite Ek. cbn [bind].
      apply filter_In in Hin. destruct Hin as [Hin _].
      destruct (keys_get _ _ Hin) as (l' & Hl').
      destruct (HW _ (get_In_values _ _ _ Hl')) as (L0 & _ & _).
      eexists. split; [reflexivity|].
      exists l'. simpl. repeat split; auto; try lra.
  - apply geb_lt in Ege.
    eexists. split; [reflexivity|].
    exists l. simpl. repeat split; auto; lra.
Qed.

Lemma pass1_total byLane lights (cars : list Car.car) :
  (forall k l j, JSMap.get byLane k = Some l -> In j l ->
                 (j < List.length cars)%nat) ->
  Forall (CarOK lanes dt) cars ->
  exists cars1,
    pass1 lanes rTarget byLane lights cars = Some cars1 /\
    List.length cars1 = List.length cars /\
    Forall (CarMid lanes dt) cars1.
Proof.
  intros Hvalid Hall. rewrite Forall_forall in Hall.
  set (I := fun (k : nat) (cur : list Car.car) =>
              List.length cur = List.length cars /\
              forall j c, nth_error cur j = Some c ->
                          ((j < k)%nat -> CarMid lanes dt c) /\
                          ((k <= j)%nat -> CarOK lanes dt c)).
  destruct (forEach_total _ (pass1Body lanes rTarget byLane lights) I cars)
    as (out & Hrun & HL & Hout).
  - split; [reflexivity|]. intros j c Hj. split; [lia|].
    intros _. apply Hall. eapply nth_error_In; eauto.
  - intros k cur Hk [HL Hcur].
    destruct (nth_error cur k) as [x|] eqn:Hx;
      [|apply nth_error_None in Hx; lia].
    destruct (Hcur k x Hx) as [_ Hok]. specialize (Hok (Nat.le_refl k)).
    destruct (perceive_total byLane lights cur k x) as (p & Hp & Htgt); auto.
    { intros k0 l j Hg Hin. rewrite HL. eapply Hvalid; eauto. }
    exists x, (decide x p). split; [reflexivity|].
    split; [unfold pass1Body; now rewrite Hp|].
    split; [now rewrite length_updateAt|].
    intros j c Hj. destruct (Nat.eq_dec k j) as [<-|Hne].
    + rewrite nth_error_updateAt_same in Hj by lia.
      injection Hj as <-. split; [|lia]. intros _. now apply decide_mid.
    + rewrite nth_error_updateAt_other in Hj by exact Hne.
      destruct (Hcur j c Hj) as [A B]. split; intros; [apply A | apply B]; lia.
  - exists out. split; [exact Hrun|]. split; [exact HL|].
    apply Forall_forall. intros c Hin.
    destruct (In_nth_error _ _ Hin) as (j & Hj).
    destruct (Hout j c Hj) as [A _]. apply A.
    rewrite <- HL. apply nth_error_Some. congruence.
Qed.

Lemma pass2_total (cars1 : list Car.car) :
  Forall (CarMid lanes dt) cars1 ->
  exists cars2,
    pass2 lanes rRespawn dt cars1 = Some cars2 /\
    List.length cars2 = List.length cars1 /\
    Forall (CarOK lanes dt) cars2.
Proof.
  intros Hall. rewrite Forall_forall in Hall.
  set (I := fun (k : nat) (cur : list Car.car) =>
              List.length cur = List.length cars1 /\
              forall j c, nth_error cur j = Some c ->
                          ((j < k)%nat -> CarOK lanes dt c) /\
                          ((k <= j)%nat -> CarMid lanes dt c)).
  destruct (forEach_total _ (fun _ _ car => integrate lanes rRespawn dt car) I cars1)
    as (out & Hrun & HL & Hout).
  - split; [reflexivity|]. intros j c Hj. split; [lia|].
    intros _. apply Hall. eapply nth_error_In; eauto.
  - intros k cur Hk [HL Hcur].
    destruct (nth_error cur k) as [x|] eqn:Hx;
      [|apply nth_error_None in Hx; lia].
    destruct (Hcur k x Hx) as [_ Hmid]. specialize (Hmid (Nat.le_refl k)).
    destruct (integrate_ok x Hmid) as (y & Hy & Hok).
    exists x, y. split; [reflexivity|]. split; [exact Hy|].
    split; [now rewrite length_updateAt|].
    intros j c Hj. destruct (Nat.eq_dec k j) as [<-|Hne].
    + rewrite nth_error_updateAt_same in Hj by lia.
      injection Hj as <-. split; [|lia]. intros _. exact Hok.
    + rewrite nth_error_updateAt_other in Hj by exact Hne.
      destruct (Hcur j c Hj) as [A B]. split; intros; [apply A | apply B]; lia.
  - exists out. split; [exact Hrun|]. split; [exact HL|].
    apply Forall_forall. intros c Hin.
    destruct (In_nth_error _ _ Hin) as (j & Hj).
    destruct (Hout j c Hj) as [A _]. apply A.
    rewrite <- HL. apply nth_error_Some. congruence.
Qed.

Lemma carsByLaneOf_valid (cars : list Car.car) k l j :
  JSMap.get (carsByLaneOf cars) k = Some l -> In j l ->
  (j < List.length cars)%nat.
Proof.
  intros Hg Hin. apply (carsByLaneOf_members cars k l j Hg) in Hin.
  destruct Hin as (c & Hc & _). apply nth_error_Some. congruence.
Qed.

(** One tick keeps the invariant: it completes, and every car is on the
    lane it then occupies. *)
Lemma tick_keeps_cars_on_lanes lights (cars : list Car.car) :
  Forall (CarOK lanes dt) cars ->
  exists lights' cars',
    updatePhysics lanes rTarget rRespawn dt lights cars = Some (lights', cars') /\
    List.length cars' = List.length cars /\
    Forall (CarOK lanes dt) cars'.
Proof.
  intros Hall. unfold updatePhysics.
  destruct (pass1_total (carsByLaneOf cars) (updateTrafficLights dt lights) cars)
    as (cars1 & H1 & L1 & M1); [apply carsByLaneOf_valid | exact Hall |].
  destruct (pass2_total cars1 M1) as (cars2 & H2 & L2 & M2).
  rewrite H1. cbn [bind]. rewrite H2. cbn [bind].
  eexists _, _. split; [reflexivity|]. split; [congruence | exact M2].
Qed.

End Invariant.

Section Run.
Context {M : JSMath}.
Variable lanes : Lanes.
Variables rTarget rRespawn : nat -> nat -> Q.
Variable dt : Q.
Open Scope Q_scope.

(** C6: on a network whose lanes are longer than the distance a car
    covers in one tick, any number of ticks started from cars that are on
    their lanes ([0 <= t < len]) and within the speed cap completes, and at
    the end of the last tick every car is on the lane it then occupies,
    [0 <= t < len]: the wrap on a lane transition and the respawn keep [t]
    in range. *)
Theorem position_stays_on_lane (k n : nat) lights (cars : list Car.car) :
  0 <= dt ->
  WFNet lanes dt ->
  (forall k i, 0 <= rRespawn k i /\ rRespawn k i < 1) ->
  Forall (CarOK lanes dt) cars ->
  exists lights' cars',
    physicsSteps lanes rTarget rRespawn dt k n lights cars = Some (lights', cars') /\
    List.length cars' = List.length cars /\
    forall c, In c cars' ->
      exists l, JSMap.get lanes (Car.laneId c) = Some l /\
                0 <= Car.t c /\ Car.t c < Lane.len l.
Proof.
  intros Hdt HWF HrR.
  assert (G : forall n k lights cars,
             Forall (CarOK lanes dt) cars ->
             exists lights' cars',
               physicsSteps lanes rTarget rRespawn dt k n lights cars
               = Some (lights', cars') /\
               List.length cars' = List.length cars /\
               Forall (CarOK lanes dt) cars').
  { clear k n lights cars.
    induction n as [|n IH]; intros k lights cars Hall; cbn [physicsSteps].
    - exists lights, cars. auto.
    - destruct (tick_keeps_cars_on_lanes lanes (rTarget k) (rRespawn k) dt
                  Hdt HWF (HrR k) lights cars Hall) as (L1 & C1 & E1 & Len1 & Ok1).
      rewrite E1. cbn [bind fst snd].
      destruct (IH (S k) L1 C1 Ok1) as (L2 & C2 & E2 & Len2 & Ok2).
      exists L2, C2. split; [exact E2|]. split; [congruence | exact Ok2]. }
  intros Hall.
  destruct (G n k lights cars Hall) as (L & C & E & Len & Ok).
  exists L, C. split; [exact E|]. split; [exact Len|].
  intros c Hin. rewrite Forall_forall in Ok.
  destruct (Ok c Hin) as (l & Hl & T0 & T1 & _). eauto.
Qed.

End Run.

(** ** The city of the concrete runs *)

Section City.
Import JS JSFacts.
Open Scope Q_scope.

Lemma cityLanes_wellFormed : WFNet cityLanes PHYSICS_DT.
Proof. apply wfNetb_WFNet. vm_compute. reflexivity. Qed.

Lemma cityLanes_first_road :
  exists l, JSMap.get cityLanes "R_0_0_1_0" = Some l /\ Lane.len l == 136 /\
            Lane.type l = ROAD.
Proof.
  eexists. split; [lazy; reflexivity | split; reflexivity].
Qed.

Lemma queue_ok : Forall (CarOK cityLanes PHYSICS_DT) queue.
Proof.
  destruct cityLanes_first_road as (l & Hl & Hlen & _).
  assert (Hcap : 14 <= speedCap PHYSICS_DT) by discriminate.
  assert (G : forall i t v, 0 <= t -> t < 136 -> 0 <= v -> v <= 14 ->
                CarOK cityLanes PHYSICS_DT
                      (Car.mk i true "R_0_0_1_0" t v 0 0%Z None)).
  { intros i t v T0 T1 V0 V1. exists l.
    cbn [Car.laneId Car.t Car.v Car.targetLaneId].
    split; [exact Hl|]. split; [exact T0|]. split; [lra|].
    split; [exact V0|]. split; [lra|].
    intros Ht. discriminate Ht. }
  unfold queue, queueFront, queueMiddle, queueBack.
  repeat (apply Forall_cons;
          [apply G; [discriminate | reflexivity | discriminate | discriminate]|]).
  apply Forall_nil.
Qed.

Lemma carDraw_range : forall i : nat, 0 <= carDraw i /\ carDraw i < 1.
Proof. intros i. split; [discriminate | reflexivity]. Qed.

Lemma position_stays_on_lane_witness :
  exists lights' cars',
    physicsSteps (M := approxMath) cityLanes (fun _ => carDraw) (fun _ => carDraw)
                 PHYSICS_DT 0 600 cityLights queue = Some (lights', cars') /\
    List.length cars' = List.length queue /\
    forall c, In c cars' ->
      exists l, JSMap.get cityLanes (Car.laneId c) = Some l /\
                0 <= Car.t c /\ Car.t c < Lane.len l.
Proof.
  apply (position_stays_on_lane (M := approxMath) cityLanes
           (fun _ => carDraw) (fun _ => carDraw) PHYSICS_DT 0 600 cityLights queue).
  - discriminate.
  - exact cityLanes_wellFormed.
  - intros _. exact carDraw_range.
  - exact queue_ok.
Defined.

Lemma city_start_lanes :
  startLanesOf cityLanes <> [] /\
  forall l, In l (startLanesOf cityLanes) -> 0 < Lane.len l.
Proof.
  destruct cityLanes_first_road as (l & Hl & _ & Hty).
  split.
  - intros E.
    assert (Hin : In l (startLanesOf cityLanes)).
    { apply (proj2 (startLanesOf_spec cityLanes l)). split; [|exact Hty].
      exact (get_In_values cityLanes _ l Hl). }
    rewrite E in Hin. exact Hin.
  - intros l' Hin.
    apply (proj1 (startLanesOf_spec cityLanes l')) in Hin.
    destruct Hin as [Hin _].
    destruct cityLanes_wellFormed as [HW _].
    exact (proj1 (HW l' Hin)).
Qed.

Lemma initCars_initial_state_witness :
  exists cars,
    initCars cityLanes carDraw carDraw = Some cars /\
    List.length cars = CAR_COUNT /\
    Forall (freshOn cityLanes) cars.
Proof.
  apply (initCars_initial_state cityLanes carDraw carDraw).
  - exact (proj1 city_start_lanes).
  - exact (proj2 city_start_lanes).
  - exact carDraw_range.
  - exact carDraw_range.
Defined.

End City.

(** ** The junction loop *)

Section StringFacts.

Lemma string_length_append (s1 s2 : string) :
  String.length (s1 ++ s2) = (String.length s1 + String.length s2)%nat.
Proof. induction s1; simpl; auto. Qed.

Lemma string_append_inj (s1 s1' s2 s2' : string) :
  String.length s1 = String.length s1' ->
  (s1 ++ s2 = s1' ++ s2')%string -> s1 = s1' /\ s2 = s2'.
Proof.
  revert s1'. induction s1 as [|c s1 IH]; intros [|c' s1'] HL E;
    simpl in *; try discriminate.
  - auto.
  - injection E as -> E. injection HL as HL.
    destruct (IH _ HL E) as [-> ->]. auto.
Qed.

Lemma string_append_assoc (s1 s2 s3 : string) :
  ((s1 ++ s2) ++ s3 = s1 ++ (s2 ++ s3))%string.
Proof. induction s1; simpl; [reflexivity | now f_equal]. Qed.

End StringFacts.

Section MapFacts.
Variable V : Type.
Implicit Types (m : JSMap.t V) (k : string) (v : V).

Lemma keys_modify m k f : JSMap.keys (JSMap.modify m k f) = JSMap.keys m.
Proof.
  induction m as [|[k0 v0] m IH]; simpl; [reflexivity|].
  destruct (String.eqb k0 k); simpl; [reflexivity | now f_equal].
Qed.

Lemma keys_set m k v :
  JSMap.keys (JSMap.set m k v)
  = if JSMap.has m k then JSMap.keys m else (JSMap.keys m ++ [k])%list.
Proof.
  unfold JSMap.has.
  induction m as [|[k0 v0] m IH]; simpl; [reflexivity|].
  destruct (String.eqb k0 k) eqn:E; simpl; [reflexivity|].
  rewrite IH. destruct (JSMap.get m k); reflexivity.
Qed.

Lemma get_None_keys m k : JSMap.get m k = None <-> ~ In k (JSMap.keys m).
Proof.
  induction m as [|[k0 v0] m IH]; simpl; [tauto|].
  destruct (String.eqb k0 k) eqn:E.
  - apply String.eqb_eq in E. split; [discriminate | intros H; exfalso; auto].
  - apply String.eqb_neq in E. rewrite IH. tauto.
Qed.

Lemma NoDup_keys_set m k v :
  NoDup (JSMap.keys m) -> NoDup (JSMap.keys (JSMap.set m k v)).
Proof.
  intros H. rewrite keys_set. unfold JSMap.has.
  destruct (JSMap.get m k) eqn:E; [exact H|].
  apply get_None_keys in E.
  apply NoDup_app; [exact H | repeat constructor; simpl; tauto |].
  intros x Hx [<-|[]]. contradiction.
Qed.

Lemma In_values_entry m v : In v (JSMap.values m) -> exists k, In (k, v) m.
Proof.
  unfold JSMap.values. rewrite in_map_iff.
  intros ([k v'] & <- & H). eauto.
Qed.

Lemma entry_In_values m k v : In (k, v) m -> In v (JSMap.values m).
Proof.
  intros H. unfold JSMap.values. change v with (snd (k, v)). now apply in_map.
Qed.

Lemma entry_In_keys m k v : In (k, v) m -> In k (JSMap.keys m).
Proof.
  intros H. unfold JSMap.keys. change k with (fst (k, v)). now apply in_map.
Qed.

End MapFacts.

Section JunctionFacts.
Context {M : JSMath}.
Variable roads : Lanes.
Variable n : nat.
Hypothesis Hwf : RoadsWF roads n.

Lemma road_entry k l :
  In (k, l) roads ->
  Lane.type l = ROAD /\ Lane.id l = k /\ String.length k = n /\
  JSMap.get roads k = Some l.
Proof.
  intros H. destruct Hwf as [Hnd Hall].
  destruct (Hall k l H) as (A & B & C).
  repeat split; auto. now apply JSMapFacts.In_get_NoDup.
Qed.

Lemma road_value l :
  In l (JSMap.values roads) ->
  In (Lane.id l, l) roads /\ Lane.type l = ROAD /\
  String.length (Lane.id l) = n.
Proof.
  intros H. destruct (In_values_entry _ _ _ H) as (k & Hk).
  destruct (road_entry k l Hk) as (A & B & C & _). subst k. auto.
Qed.

(** A road of the map is determined by its id. *)
Lemma road_unique a b :
  In a (JSMap.values roads) -> In b (JSMap.values roads) ->
  Lane.id a = Lane.id b -> a = b.
Proof.
  intros Ha Hb E.
  destruct (road_value a Ha) as (Ea & _). destruct (road_value b Hb) as (Eb & _).
  rewrite E in Ea.
  destruct (road_entry _ _ Ea) as (_ & _ & _ & Ga).
  destruct (road_entry _ _ Eb) as (_ & _ & _ & Gb).
  congruence.
Qed.

Lemma junctionId_length a b :
  String.length (Lane.id a) = n -> String.length (Lane.id b) = n ->
  String.length (junctionId a b) = (2 + n + 1 + n)%nat.
Proof.
  intros Ha Hb. unfold junctionId.
  rewrite !string_length_append, Ha, Hb. simpl. lia.
Qed.

(** Junction ids tell their two roads apart, and are no road ids. *)
Lemma junctionId_inj a b a' b' :
  String.length (Lane.id a) = n -> String.length (Lane.id a') = n ->
  junctionId a b = junctionId a' b' ->
  Lane.id a = Lane.id a' /\ Lane.id b = Lane.id b'.
Proof.
  intros Ha Ha' E. unfold junctionId in E.
  simpl in E. injection E as E.
  apply string_append_inj in E; [|congruence].
  destruct E as [E1 E2]. simpl in E2. injection E2 as E2. auto.
Qed.

Lemma junctionId_not_road a b :
  String.length (Lane.id a) = n -> String.length (Lane.id b) = n ->
  JSMap.get roads (junctionId a b) = None.
Proof.
  intros Ha Hb. apply get_None_keys. intros Hin.
  unfold JSMap.keys in Hin. apply in_map_iff in Hin.
  destruct Hin as ([k l] & E & Hkl). simpl in E. subst k.
  destruct (road_entry _ _ Hkl) as (_ & _ & HL & _).
  rewrite (junctionId_length a b Ha Hb) in HL. lia.
Qed.

(** What the loop computes from [outLane] it computes from its core. *)
Lemma sameCore_junction (a o o0 : Lane.lane) :
  sameCore o o0 ->
  junctionId a o = junctionId a o0 /\ newJunction a o = newJunction a o0 /\
  tooSharp a o = tooSharp a o0 /\
  startsWith (Lane.id o) (fromPrefix a) = startsWith (Lane.id o0) (fromPrefix a).
Proof.
  intros (Eid & _ & Epath & _).
  unfold junctionId, newJunction, tooSharp, turnAngle, junctionId.
  rewrite Eid, Epath. auto.
Qed.

Lemma sameCore_refl l : sameCore l l.
Proof. unfold sameCore. tauto. Qed.

Lemma sameCore_pushNext l l0 j : sameCore l l0 -> sameCore (Lane.pushNext l j) l0.
Proof. unfold sameCore. simpl. tauto. Qed.

Lemma junctionsInv_init : junctionsInv roads roads.
Proof.
  destruct Hwf as [Hnd Hall]. split; [exact Hnd|]. split.
  - intros k l0 H. exists l0. split; [|apply sameCore_refl].
    now apply JSMapFacts.In_get_NoDup.
  - intros k J H1 H2. congruence.
Qed.

Lemma junctionsInv_known m o :
  junctionsInv roads m -> In o (JSMap.values m) -> known roads o.
Proof.
  intros (Hnd & HA & HB) Hin.
  destruct (In_values_entry _ _ _ Hin) as (k & Hk).
  pose proof (JSMapFacts.In_get_NoDup _ _ _ _ Hnd Hk) as Hg.
  destruct (JSMap.get roads k) as [l0|] eqn:Hr.
  - apply JSMapFacts.get_In in Hr.
    destruct (HA k l0 Hr) as (l & Hl & Hc).
    right. exists l0. split; [eapply entry_In_values; eauto|].
    congruence.
  - destruct (HB k o Hg Hr) as (a & b & la & _ & _ & _ & _ & _ & -> & _).
    left. simpl. discriminate.
Qed.

Lemma LaneType_eqb_ROAD t : LaneType_eqb t ROAD = true <-> t = ROAD.
Proof. destruct t; simpl; split; congruence. Qed.

(** One turn of the inner loop keeps the invariant. *)
Lemma junctionStep_inv inKey inLane m o :
  junctionsInv roads m -> In (inKey, inLane) roads -> known roads o ->
  junctionsInv roads (junctionStep inKey inLane m o).
Proof.
  intros Hinv Hin Hknown. unfold junctionStep.
  destruct (LaneType_eqb (Lane.type o) ROAD) eqn:Et; [|exact Hinv]. simpl.
  apply LaneType_eqb_ROAD in Et.
  destruct Hknown as [Hnot|(o0 & Ho0 & Hcore)]; [contradiction|].
  destruct (sameCore_junction inLane o o0 Hcore) as (Ej & EJ & Es & Ep).
  destruct (startsWith (Lane.id o) (fromPrefix inLane)) eqn:Epre; [|exact Hinv].
  destruct (tooSharp inLane o) eqn:Esharp; [exact Hinv|].
  destruct (road_entry _ _ Hin) as (Tin & Idin & Lin & Gin).
  destruct (road_value _ Ho0) as (_ & _ & Lo0).
  assert (Lin' : String.length (Lane.id inLane) = n) by congruence.
  pose proof (junctionId_not_road inLane o0 Lin' Lo0) as Hjr.
  rewrite Ej, EJ.
  set (jId := junctionId inLane o0) in *.
  set (J := newJunction inLane o0) in *.
  assert (Hne : inKey <> jId) by (intros E; rewrite E in Gin; congruence).
  destruct Hinv as (Hnd & HA & HB).
  assert (Gm : forall k, k <> jId ->
             JSMap.get (JSMap.modify (JSMap.set m jId J) inKey
                                     (fun l => Lane.pushNext l jId)) k
             = if String.eqb inKey k
               then option_map (fun l => Lane.pushNext l jId) (JSMap.get m k)
               else JSMap.get m k).
  { intros k Hk. rewrite get_modify.
    rewrite JSMapFacts.get_set_other by congruence. reflexivity. }
  split; [|split].
  - rewrite keys_modify. now apply NoDup_keys_set.
  - intros k l0 Hk.
    destruct (road_entry _ _ Hk) as (_ & _ & _ & Gk).
    destruct (HA k l0 Hk) as (l & Hl & Hc).
    rewrite Gm by (intros E; rewrite E in Gk; congruence).
    rewrite Hl. destruct (String.eqb inKey k); simpl.
    + eexists. split; [reflexivity|]. now apply sameCore_pushNext.
    + eauto.
  - intros k J' Hg Hr.
    assert (Hki : String.eqb inKey k = false).
    { apply String.eqb_neq. intros E. rewrite E in Gin. congruence. }
    rewrite get_modify, Hki in Hg.
    assert (Push : forall a la, In a (JSMap.values roads) ->
              JSMap.get m (Lane.id a) = Some la -> In k (Lane.nextLanes la) ->
              exists la', JSMap.get (JSMap.modify (JSMap.set m jId J) inKey
                                      (fun l => Lane.pushNext l jId)) (Lane.id a)
                          = Some la' /\ In k (Lane.nextLanes la')).
    { intros a la Ha Hla Hink.
      destruct (road_value _ Ha) as (Ea & _ & _).
      destruct (road_entry _ _ Ea) as (_ & _ & _ & Ga).
      rewrite Gm by (intros E; rewrite E in Ga; congruence).
      rewrite Hla. destruct (String.eqb inKey (Lane.id a)); simpl.
      - eexists. split; [reflexivity|]. apply in_or_app. now left.
      - eauto. }
    rewrite JSMapFacts.get_set in Hg.
    destruct (String.eqb jId k) eqn:Ejk.
    + apply String.eqb_eq in Ejk. subst k. injection Hg as <-.
      destruct (HA _ _ Hin) as (l & Hl & Hc).
      exists inLane, o0.
      exists (Lane.pushNext l jId).
      split; [eapply entry_In_values; eauto|]. split; [exact Ho0|].
      split; [unfold connects; congruence|]. split; [congruence|].
      split; [reflexivity|]. split; [reflexivity|].
      split.
      * rewrite Idin, Gm by exact Hne. rewrite String.eqb_refl, Hl. reflexivity.
      * simpl. apply in_or_app. right. now left.
    + destruct (HB k J' Hg Hr) as (a & b & la & Ha & Hb & Hc & Hs & Ek & EJ' & Hla & Hink).
      destruct (Push a la Ha Hla Hink) as (la' & Hla' & Hink').
      exists a, b, la'. repeat split; auto.
Qed.

(** A junction, once built, stays. *)
Lemma junctionStep_keeps inKey inLane m o a b :
  junctionsInv roads m -> In (inKey, inLane) roads -> known roads o ->
  In a (JSMap.values roads) -> In b (JSMap.values roads) ->
  hasJunction m a b -> hasJunction (junctionStep inKey inLane m o) a b.
Proof.
  intros Hinv Hin Hknown Ha Hb Hhas. unfold junctionStep.
  destruct (LaneType_eqb (Lane.type o) ROAD) eqn:Et; [|exact Hhas]. simpl.
  apply LaneType_eqb_ROAD in Et.
  destruct Hknown as [Hnot|(o0 & Ho0 & Hcore)]; [contradiction|].
  destruct (sameCore_junction inLane o o0 Hcore) as (Ej & EJ & Es & Ep).
  destruct (startsWith (Lane.id o) (fromPrefix inLane)) eqn:Epre; [|exact Hhas].
  destruct (tooSharp inLane o) eqn:Esharp; [exact Hhas|].
  destruct (road_entry _ _ Hin) as (Tin & Idin & Lin & Gin).
  destruct (road_value _ Ho0) as (_ & _ & Lo0).
  destruct (road_value _ Ha) as (_ & _ & La).
  destruct (road_value _ Hb) as (_ & _ & Lb).
  assert (Lin' : String.length (Lane.id inLane) = n) by congruence.
  pose proof (junctionId_not_road a b La Lb) as Hjr.
  rewrite Ej, EJ. unfold hasJunction in *.
  rewrite get_modify.
  assert (Hki : String.eqb inKey (junctionId a b) = false).
  { apply String.eqb_neq. intros E. rewrite E in Gin. congruence. }
  rewrite Hki, JSMapFacts.get_set.
  destruct (String.eqb (junctionId inLane o0) (junctionId a b)) eqn:Ejk; [|exact Hhas].
  apply String.eqb_eq in Ejk.
  destruct (junctionId_inj _ _ _ _ Lin' La Ejk) as [E1 E2].
  assert (inLane = a).
  { apply road_unique; auto. eapply entry_In_values; eauto. }
  assert (o0 = b) by (apply road_unique; auto).
  subst. reflexivity.
Qed.

(** The turn of the inner loop at a version of [o0] builds the junction to
    [o0], when [o0] passes the two tests. *)
Lemma junctionStep_creates inKey inLane m o o0 :
  In (inKey, inLane) roads -> In o0 (JSMap.values roads) -> sameCore o o0 ->
  connects inLane o0 -> tooSharp inLane o0 = false ->
  hasJunction (junctionStep inKey inLane m o) inLane o0.
Proof.
  intros Hin Ho0 Hcore Hc Hs. unfold junctionStep.
  destruct (sameCore_junction inLane o o0 Hcore) as (Ej & EJ & Es & Ep).
  destruct (road_value _ Ho0) as (_ & To0 & Lo0).
  destruct (road_entry _ _ Hin) as (Tin & Idin & Lin & Gin).
  assert (Lin' : String.length (Lane.id inLane) = n) by congruence.
  pose proof (junctionId_not_road inLane o0 Lin' Lo0) as Hjr.
  destruct Hcore as (_ & Ety & _). rewrite Ety, To0. simpl.
  unfold connects in Hc. rewrite Ep, Hc, Es, Hs, Ej, EJ.
  unfold hasJunction. rewrite get_modify.
  assert (Hki : String.eqb inKey (junctionId inLane o0) = false).
  { apply String.eqb_neq. intros E. rewrite E in Gin. congruence. }
  rewrite Hki. apply JSMapFacts.get_set_same.
Qed.

Lemma inner_loop inKey inLane (L : list Lane.lane) :
  In (inKey, inLane) roads ->
  forall m, junctionsInv roads m -> Forall (known roads) L ->
  let m' := fold_left (junctionStep inKey inLane) L m in
  junctionsInv roads m' /\
  (forall a b, In a (JSMap.values roads) -> In b (JSMap.values roads) ->
               hasJunction m a b -> hasJunction m' a b) /\
  (forall o o0, In o L -> In o0 (JSMap.values roads) -> sameCore o o0 ->
                connects inLane o0 -> tooSharp inLane o0 = false ->
                hasJunction m' inLane o0).
Proof.
  intros Hin. induction L as [|o L IH]; intros m Hinv Hall; simpl.
  - split; [exact Hinv|]. split; [auto|]. intros o o0 [].
  - inversion Hall as [|? ? Hk Hall']; subst.
    pose proof (junctionStep_inv inKey inLane m o Hinv Hin Hk) as Hinv'.
    destruct (IH _ Hinv' Hall') as (I1 & I2 & I3).
    split; [exact I1|]. split.
    + intros a b Ha Hb Hhas. apply I2; auto.
      apply junctionStep_keeps; auto.
    + intros o' o0 [<-|Ho'] Ho0 Hcore Hc Hs.
      * apply I2; auto; [eapply entry_In_values; eauto|].
        apply junctionStep_creates; auto.
      * eapply I3; eauto.
Qed.

(** One turn of the outer loop builds every junction out of its road. *)
Lemma junctionsFrom_spec inKey inLane m :
  In (inKey, inLane) roads -> junctionsInv roads m ->
  let m' := junctionsFrom m (inKey, inLane) in
  junctionsInv roads m' /\
  (forall a b, In a (JSMap.values roads) -> In b (JSMap.values roads) ->
               hasJunction m a b -> hasJunction m' a b) /\
  (forall b, In b (JSMap.values roads) ->
             connects inLane b -> tooSharp inLane b = false ->
             hasJunction m' inLane b).
Proof.
  intros Hin Hinv. unfold junctionsFrom.
  destruct (road_entry _ _ Hin) as (Tin & _). rewrite Tin. simpl.
  assert (Hall : Forall (known roads) (JSMap.values m)).
  { apply Forall_forall. intros o Ho. eapply junctionsInv_known; eauto. }
  destruct (inner_loop inKey inLane (JSMap.values m) Hin m Hinv Hall)
    as (I1 & I2 & I3).
  split; [exact I1|]. split; [exact I2|].
  intros b Hb Hc Hs.
  destruct (road_value _ Hb) as (Eb & _).
  destruct Hinv as (_ & HA & _).
  destruct (HA _ _ Eb) as (l & Hl & Hcore).
  apply (I3 l b); auto. eapply get_In_values; eauto.
Qed.

Lemma outer_loop (E : list (string * Lane.lane)) :
  (forall e, In e E -> In e roads) ->
  forall m, junctionsInv roads m ->
  let m' := fold_left junctionsFrom E m in
  junctionsInv roads m' /\
  (forall a b, In a (JSMap.values roads) -> In b (JSMap.values roads) ->
               hasJunction m a b -> hasJunction m' a b) /\
  (forall k a b, In (k, a) E -> In b (JSMap.values roads) ->
                 connects a b -> tooSharp a b = false -> hasJunction m' a b).
Proof.
  induction E as [|[k0 a0] E IH]; intros Hsub m Hinv; simpl.
  - split; [exact Hinv|]. split; [auto|]. intros k a b [].
  - assert (Hin0 : In (k0, a0) roads) by (apply Hsub; now left).
    destruct (junctionsFrom_spec k0 a0 m Hin0 Hinv) as (J1 & J2 & J3).
    destruct (IH (fun e He => Hsub e (or_intror He)) _ J1) as (I1 & I2 & I3).
    split; [exact I1|]. split.
    + intros a b Ha Hb Hhas. apply I2; auto.
    + intros k a b [[= -> ->]|Hin] Hb Hc Hs.
      * apply I2; auto. eapply entry_In_values; eauto.
      * eapply I3; eauto.
Qed.

(** The junction loop on a well-formed road map. *)
Lemma buildJunctions_spec :
  junctionsInv roads (buildJunctions roads) /\
  (forall a b, In a (JSMap.values roads) -> In b (JSMap.values roads) ->
               connects a b -> tooSharp a b = false ->
               hasJunction (buildJunctions roads) a b).
Proof.
  destruct (outer_loop roads (fun e He => He) roads junctionsInv_init)
    as (I1 & _ & I3).
  split; [exact I1|].
  intros a b Ha Hb Hc Hs.
  destruct (road_value _ Ha) as (Ea & _).
  eapply I3; eauto.
Qed.

Lemma tooSharp_false (a b : Lane.lane) :
  tooSharp a b = false <-> (turnAngle a b <= Math_PI * 0.8)%Q.
Proof. unfold tooSharp, JS.gtb. apply JSFacts.ltb_ge. Qed.

(** Between two roads that pass the loop's test, the network holds a
    junction exactly when the turn is not too sharp. *)
Lemma junction_iff_roads (inLane outLane : Lane.lane) :
  In inLane (JSMap.values roads) -> In outLane (JSMap.values roads) ->
  connects inLane outLane ->
  (junctionBetween (buildJunctions roads) inLane outLane <->
   (turnAngle inLane outLane <= Math_PI * 0.8)%Q).
Proof.
  intros Hin Hout Hc.
  destruct buildJunctions_spec as (Hinv & Hall).
  revert Hinv Hall. generalize (buildJunctions roads). intros net Hinv Hall.
  rewrite <- tooSharp_false. split.
  - intros (k & J & HkJ & Hty & Hprev & Hnext).
    destruct Hinv as (Hnd & HA & HB).
    pose proof (JSMapFacts.In_get_NoDup _ _ _ _ Hnd HkJ) as Hg.
    destruct (JSMap.get roads k) as [l0|] eqn:Hr.
    + apply JSMapFacts.get_In in Hr.
      destruct (HA _ _ Hr) as (l & Hl & Hcore).
      destruct (road_entry _ _ Hr) as (Tl0 & _).
      destruct Hcore as (_ & Ety & _).
      assert (l = J) by congruence. subst l. congruence.
    + destruct (HB k J Hg Hr) as (a & b & la & Ha & Hb & _ & Hs & _ & -> & _).
      unfold newJunction in Hprev, Hnext.
      cbn [Lane.prevLanes Lane.nextLanes] in Hprev, Hnext.
      injection Hprev as Ea. injection Hnext as Eb.
      assert (a = inLane) by (apply road_unique; auto).
      assert (b = outLane) by (apply road_unique; auto).
      subst. exact Hs.
  - intros Hs. specialize (Hall inLane outLane Hin Hout Hc Hs).
    exists (junctionId inLane outLane), (newJunction inLane outLane).
    split; [apply JSMapFacts.get_In; exact Hall|].
    unfold newJunction. cbn [Lane.type Lane.prevLanes Lane.nextLanes]. auto.
Qed.

End JunctionFacts.

Section BuiltNetwork.
Context {M : JSMath}.
Import JS JSFacts.
Open Scope Q_scope.

Lemma roadsWFb_RoadsWF roads n : roadsWFb roads n = true -> RoadsWF roads n.
Proof.
  unfold roadsWFb, RoadsWF. rewrite andb_true_iff, forallb_forall.
  intros [Hall Hnd]. split.
  - revert Hnd. generalize (JSMap.keys roads). clear.
    induction l as [|k ks IH]; intros H; constructor.
    + apply andb_true_iff in H. destruct H as [H _].
      apply negb_true_iff in H. intros Hin.
      assert (existsb (String.eqb k) ks = true); [|congruence].
      apply existsb_exists. exists k. split; [exact Hin | apply String.eqb_refl].
    + apply andb_true_iff in H. destruct H as [_ H]. auto.
  - intros k l Hin. specialize (Hall _ Hin). simpl in Hall.
    rewrite !andb_true_iff in Hall. destruct Hall as [[A B] C].
    apply LaneType_eqb_ROAD in A. apply String.eqb_eq in B.
    apply Nat.eqb_eq in C. auto.
Qed.

(** The grid's roads: 24 ROAD lanes stored under ids of nine characters. *)
Lemma buildRoads_wf : RoadsWF buildRoads 9.
Proof. apply roadsWFb_RoadsWF. reflexivity. Qed.

Lemma prefix_append (p s : string) : String.prefix p (p ++ s) = true.
Proof.
  induction p as [|c p IH]; simpl; [now destruct s|].
  destruct (ascii_dec c c); [exact IH | contradiction].
Qed.

(** A road that starts at the node [b] passes the loop's test against a
    road that leads to [b]. *)
Lemma origin_connects (inLane outLane : Lane.lane) (b c : string) :
  Lane.toNodeId inLane = Some b -> Lane.id outLane = roadId b c ->
  connects inLane outLane.
Proof.
  intros Hto Hid. unfold connects, startsWith, fromPrefix.
  rewrite Hto, Hid. unfold roadId.
  assert (E : ("R_" ++ b ++ "_" ++ c = ("R_" ++ b ++ "_") ++ c)%string).
  { now rewrite !string_append_assoc. }
  rewrite E. apply prefix_append.
Qed.

(** No road of the built network lists a predecessor: the junction loop
    pushes onto [inLane.nextLanes] only. *)
Lemma built_roads_have_no_predecessors k l :
  JSMap.get (buildJunctions buildRoads) k = Some l -> Lane.type l = ROAD ->
  Lane.prevLanes l = [].
Proof.
  assert (Hprev : forall k0 l0, In (k0, l0) buildRoads -> Lane.prevLanes l0 = []).
  { assert (H : forallb (fun kl => match Lane.prevLanes (snd kl) with
                                   | [] => true
                                   | _ => false
                                   end) buildRoads = true) by reflexivity.
    rewrite forallb_forall in H. intros k0 l0 Hin. specialize (H _ Hin).
    simpl in H. destruct (Lane.prevLanes l0); [reflexivity | discriminate]. }
  destruct (buildJunctions_spec buildRoads 9 buildRoads_wf) as ((_ & HA & HB) & _).
  revert HA HB Hprev. generalize (buildJunctions buildRoads), buildRoads.
  intros net roads HA HB Hprev Hg Hty.
  destruct (JSMap.get roads k) as [l0|] eqn:Hr.
  - apply JSMapFacts.get_In in Hr.
    destruct (HA _ _ Hr) as (l' & Hl' & (_ & _ & _ & _ & Ep & _)).
    assert (l' = l) by congruence. subst l'.
    rewrite Ep. eapply Hprev; eauto.
  - destruct (HB k l Hg Hr) as (a & b & la & _ & _ & _ & _ & _ & -> & _).
    discriminate Hty.
Qed.

End BuiltNetwork.

Section CityJunctions.
Open Scope Q_scope.

(** C2 on the built city: the junction from [R_0_0_1_0] to [R_1_0_2_0] has
    one predecessor and one successor and is a successor of [R_0_0_1_0],
    but [R_1_0_2_0] lists no predecessor at all. *)
Theorem junction_not_registered_as_predecessor :
  let j := "J_R_0_0_1_0_R_1_0_2_0"%string in
  option_map Lane.type (JSMap.get cityLanes j) = Some JUNCTION /\
  option_map Lane.prevLanes (JSMap.get cityLanes j) = Some ["R_0_0_1_0"%string] /\
  option_map Lane.nextLanes (JSMap.get cityLanes j) = Some ["R_1_0_2_0"%string] /\
  option_map (fun l => existsb (String.eqb j) (Lane.nextLanes l))
             (JSMap.get cityLanes "R_0_0_1_0") = Some true /\
  option_map Lane.prevLanes (JSMap.get cityLanes "R_1_0_2_0") = Some [].
Proof.
  cbv zeta. repeat split; lazy; reflexivity.
Qed.

End CityJunctions.
(** ** The junction filter and the angle of a turn *)

(** Closed comparisons of rationals, by evaluation. *)
Ltac by_evaluation :=
  match goal with
  | |- _ <= _ => apply Qle_bool_iff; vm_compute; reflexivity
  | |- _ < _ => apply Qlt_alt; vm_compute; reflexivity
  end.

Section TurnArith.
Import JS JSFacts.

Lemma square_le_cancel (p q : Q) : 0 <= q -> p * p <= q * q -> p <= q.
Proof.
  intros Hq H. apply Qnot_lt_le. intros Hlt.
  assert (q * q < p * p) by nra. lra.
Qed.

Lemma Qmult_le_cancel_pos (p q r : Q) : 0 < r -> p * r <= q * r -> p <= q.
Proof. intros Hr H. apply Qnot_lt_le. intros Hlt. assert (q * r < p * r) by nra. lra. Qed.

(** With [a = d / s], [P = L / s^2] and [D^2 <= (1 + tol) P]: a cosine
    [d / sqrt L] of at most [-0.80911] gives [a / D <= -0.8091]. *)
Lemma cos_beyond (a s P D d L : Q) :
  0 < s -> a * s == d -> P * (s * s) == L -> 0 < D ->
  D * D <= (1 + sqrtTolerance) * P ->
  d <= 0 -> 0.80911 * 0.80911 * L <= d * d ->
  a / D <= - 0.8091.
Proof.
  intros Hs Ea EP HD HDP Hd Hk.
  assert (Ha : a <= 0).
  { apply Qnot_lt_le. intros Hpos. assert (0 < a * s) by nra. lra. }
  assert (HaP : 0.80911 * 0.80911 * P <= a * a).
  { apply Qmult_le_cancel_pos with (r := s * s); [nra|].
    assert (E1 : 0.80911 * 0.80911 * P * (s * s) == 0.80911 * 0.80911 * L)
      by (rewrite <- EP; ring).
    assert (E2 : a * a * (s * s) == d * d) by (rewrite <- Ea; ring).
    rewrite E1, E2. exact Hk. }
  assert (Hsq : (0.8091 * D) * (0.8091 * D) <= (- a) * (- a)).
  { unfold sqrtTolerance in HDP.
    assert (0 <= P).
    { apply Qnot_lt_le. intros HP. assert (0 < D * D) by nra. nra. }
    nra. }
  assert (Hle : 0.8091 * D <= - a) by (apply square_le_cancel; [lra | exact Hsq]).
  apply Qle_shift_div_r; [exact HD | lra].
Qed.

(** ... and a cosine of at least [-0.80889] gives [a / D >= -0.8089]. *)
Lemma cos_within (a s P D d L : Q) :
  0 < s -> a * s == d -> P * (s * s) == L -> 0 < D ->
  (1 - sqrtTolerance) * P <= D * D ->
  0 <= d \/ d * d <= 0.80889 * 0.80889 * L ->
  - 0.8089 <= a / D.
Proof.
  intros Hs Ea EP HD HDP Hd.
  apply Qle_shift_div_l; [exact HD|].
  destruct Hd as [Hd|Hk].
  - assert (Ha : 0 <= a).
    { apply Qnot_lt_le. intros Hneg. assert (a * s < 0) by nra. lra. }
    nra.
  - assert (HaP : a * a <= 0.80889 * 0.80889 * P).
    { apply Qmult_le_cancel_pos with (r := s * s); [nra|].
      assert (E1 : 0.80889 * 0.80889 * P * (s * s) == 0.80889 * 0.80889 * L)
        by (rewrite <- EP; ring).
      assert (E2 : a * a * (s * s) == d * d) by (rewrite <- Ea; ring).
      rewrite E1, E2. exact Hk. }
    assert (Hsq : (- a) * (- a) <= (0.8089 * D) * (0.8089 * D)).
    { unfold sqrtTolerance in HDP. nra. }
    assert (- a <= 0.8089 * D) by (apply square_le_cancel; [nra | exact Hsq]).
    lra.
Qed.

End TurnArith.

Section TurnAngle.
Context {M : JSMath}.
Import JS JSFacts.
Hypothesis HM : MathAccurate M.

(** The components of a normalised vector. *)
Lemma normalize_components (u : THREE.Vector3) :
  1 # 16 <= THREE.lengthSq u ->
  let s := Math_sqrt (THREE.lengthSq u) in
  THREE.x (THREE.normalize u) == THREE.x u / s /\
  THREE.y (THREE.normalize u) == THREE.y u / s /\
  THREE.z (THREE.normalize u) == THREE.z u / s.
Proof.
  intros Hu s. destruct HM as (Hsqrt & _). destruct (Hsqrt _ Hu) as (Hs & _).
  fold s in Hs.
  unfold THREE.normalize, THREE.length. fold s.
  assert (E : JS.eqb s 0 = false).
  { destruct (JS.eqb s 0) eqn:E; [|reflexivity]. apply eqb_eq in E. lra. }
  rewrite E. unfold THREE.divideScalar, THREE.multiplyScalar. cbn [THREE.x THREE.y THREE.z].
  rewrite !Qred_correct. repeat split; field; lra.
Qed.

(** What [angleTo] computes from two normalised vectors: the arc cosine of
    [a / D], where [a s = dot u w] and [D] is the root of a number [P]
    with [P s^2 = |u|^2 |w|^2]. *)
Lemma angleTo_normalized (u w : THREE.Vector3) :
  1 # 16 <= THREE.lengthSq u -> 1 # 16 <= THREE.lengthSq w ->
  exists a s P D : Q,
    0 < s /\ a * s == THREE.dot u w /\
    P * (s * s) == THREE.lengthSq u * THREE.lengthSq w /\
    0 < D /\ (1 - sqrtTolerance) * P <= D * D /\ D * D <= (1 + sqrtTolerance) * P /\
    THREE.angleTo (THREE.normalize u) (THREE.normalize w)
    = Math_acos (THREE.clamp (a / D) (-1) 1).
Proof.
  intros Hu Hw.
  destruct (normalize_components u Hu) as (Ux & Uy & Uz).
  destruct (normalize_components w Hw) as (Wx & Wy & Wz).
  destruct HM as (Hsqrt & _).
  destruct (Hsqrt _ Hu) as (Hsu & Hsu1 & Hsu2).
  destruct (Hsqrt _ Hw) as (Hsw & Hsw1 & Hsw2).
  set (su := Math_sqrt (THREE.lengthSq u)) in *.
  set (sw := Math_sqrt (THREE.lengthSq w)) in *.
  set (nu := THREE.normalize u) in *. set (nw := THREE.normalize w) in *.
  set (P := THREE.lengthSq nu * THREE.lengthSq nw).
  assert (ELu : THREE.lengthSq nu * (su * su) == THREE.lengthSq u).
  { unfold THREE.lengthSq. rewrite Ux, Uy, Uz. field. lra. }
  assert (ELw : THREE.lengthSq nw * (sw * sw) == THREE.lengthSq w).
  { unfold THREE.lengthSq. rewrite Wx, Wy, Wz. field. lra. }
  assert (EP : P * ((su * sw) * (su * sw)) == THREE.lengthSq u * THREE.lengthSq w).
  { rewrite <- ELu, <- ELw. unfold P. ring. }
  assert (Ea : THREE.dot nu nw * (su * sw) == THREE.dot u w).
  { unfold THREE.dot. rewrite Ux, Uy, Uz, Wx, Wy, Wz. field. lra. }
  assert (Hs : 0 < su * sw) by nra.
  assert (HP : 1 # 16 <= P).
  { unfold sqrtTolerance in *.
    assert (A : 1 # 2 <= THREE.lengthSq nu).
    { apply Qnot_lt_le. intros Hlt.
      assert (THREE.lengthSq nu * (su * su) < (1 # 2) * (su * su)) by nra.
      nra. }
    assert (B : 1 # 2 <= THREE.lengthSq nw).
    { apply Qnot_lt_le. intros Hlt.
      assert (THREE.lengthSq nw * (sw * sw) < (1 # 2) * (sw * sw)) by nra.
      nra. }
    unfold P. nra. }
  destruct (Hsqrt _ HP) as (HD & HD1 & HD2).
  exists (THREE.dot nu nw), (su * sw), P, (Math_sqrt P).
  repeat (split; [assumption|]).
  unfold THREE.angleTo. fold P.
  assert (E : JS.eqb (Math_sqrt P) 0 = false).
  { destruct (JS.eqb (Math_sqrt P) 0) eqn:E; [|reflexivity]. apply eqb_eq in E. lra. }
  rewrite E. reflexivity.
Qed.

Lemma clamp_low (v : Q) : v <= - 0.8091 ->
  -1 <= THREE.clamp v (-1) 1 /\ THREE.clamp v (-1) 1 <= - 0.8091.
Proof.
  intros Hv. unfold THREE.clamp.
  destruct (Math_min_spec 1 v) as [[A ->]|[A ->]];
  destruct (Math_max_spec (-1) 1) as [[B E1]|[B E1]];
  destruct (Math_max_spec (-1) v) as [[C E2]|[C E2]];
  rewrite ?E1, ?E2; split; lra.
Qed.

Lemma clamp_high (v : Q) : - 0.8089 <= v ->
  - 0.8089 <= THREE.clamp v (-1) 1 /\ THREE.clamp v (-1) 1 <= 1.
Proof.
  intros Hv. unfold THREE.clamp.
  destruct (Math_min_spec 1 v) as [[A ->]|[A ->]];
  destruct (Math_max_spec (-1) 1) as [[B E1]|[B E1]];
  destruct (Math_max_spec (-1) v) as [[C E2]|[C E2]];
  rewrite ?E1, ?E2; split; lra.
Qed.

(** A turn whose cosine is at most [-0.80911] (144.01 degrees or more) is
    measured as more than [0.8 pi]. *)
Lemma angle_beyond (u w : THREE.Vector3) :
  1 # 16 <= THREE.lengthSq u -> 1 # 16 <= THREE.lengthSq w ->
  cosAtMost 0.80911 u w ->
  Math_PI * 0.8 < THREE.angleTo (THREE.normalize u) (THREE.normalize w).
Proof.
  intros Hu Hw [Hd Hk].
  destruct (angleTo_normalized u w Hu Hw)
    as (a & s & P & D & Hs & Ea & EP & HD & HD1 & HD2 & ->).
  pose proof (cos_beyond a s P D _ _ Hs Ea EP HD HD2 Hd Hk) as Hc.
  destruct (clamp_low _ Hc) as [C0 C1].
  destruct HM as (_ & Hacos & _). apply Hacos; assumption.
Qed.

(** A turn whose cosine is at least [-0.80889] (143.98 degrees or less) is
    measured as at most [0.8 pi]. *)
Lemma angle_within (u w : THREE.Vector3) :
  1 # 16 <= THREE.lengthSq u -> 1 # 16 <= THREE.lengthSq w ->
  cosAtLeast 0.80889 u w ->
  THREE.angleTo (THREE.normalize u) (THREE.normalize w) <= Math_PI * 0.8.
Proof.
  intros Hu Hw Hd.
  destruct (angleTo_normalized u w Hu Hw)
    as (a & s & P & D & Hs & Ea & EP & HD & HD1 & HD2 & ->).
  pose proof (cos_within a s P D _ _ Hs Ea EP HD HD1 Hd) as Hc.
  destruct (clamp_high _ Hc) as [C0 C1].
  destruct HM as (_ & _ & Hacos). apply Hacos; assumption.
Qed.

(** The turn between two straight lanes is the angle between their
    normalised headings. *)
Lemma turnAngle_straight (inLane outLane : Lane.lane) :
  straight inLane = true -> straight outLane = true ->
  (1 # 16 <= THREE.lengthSq (heading inLane)) /\
  (1 # 16 <= THREE.lengthSq (heading outLane)) /\
  turnAngle inLane outLane
  = THREE.angleTo (THREE.normalize (heading inLane))
                  (THREE.normalize (heading outLane)).
Proof.
  unfold straight, heading, turnAngle. intros Hi Ho.
  destruct (Lane.path inLane) as [p1 p2|]; [|discriminate].
  destruct (Lane.path outLane) as [q1 q2|]; [|discriminate].
  apply Qle_bool_iff in Hi. apply Qle_bool_iff in Ho.
  split; [exact Hi|]. split; [exact Ho | reflexivity].
Qed.

End TurnAngle.

(** ** The executable [Math] is accurate *)

Section ApproxMathFacts.
Import JS JSFacts.

(** The scaled integer root of [sqrtApprox]. *)
Lemma Zsqrt_scaled (n d K : Z) :
  (0 < n)%Z -> (0 < d)%Z -> (0 < K)%Z ->
  let r := Z.sqrt (n * (K * K) / d) in
  (0 <= r /\ r * r * d <= n * (K * K) /\ n * (K * K) < (r + 1) * (r + 1) * d)%Z.
Proof.
  intros Hn Hd HK r.
  set (m := (n * (K * K) / d)%Z) in *.
  assert (Hm : (0 <= m)%Z) by (apply Z.div_pos; nia).
  pose proof (Z.sqrt_spec m Hm) as [S1 S2]. fold r in S1, S2.
  pose proof (Z.sqrt_nonneg m) as S0. fold r in S0.
  pose proof (Z.mul_div_le (n * (K * K)) d Hd) as D1. fold m in D1.
  pose proof (Z.mul_succ_div_gt (n * (K * K)) d Hd) as D2. fold m in D2.
  unfold Z.succ in *.
  split; [exact S0|]. split; nia.
Qed.

Lemma sqrtApprox_nonpos (q : Q) : q <= 0 -> sqrtApprox q = 0.
Proof.
  intros H. unfold sqrtApprox.
  assert (E : Qle_bool (Qred q) 0 = true).
  { apply Qle_bool_iff. now rewrite Qred_correct. }
  now rewrite E.
Qed.

(** [sqrtApprox] is the root rounded down, to within [1e-16]. *)
Lemma sqrtApprox_spec (q : Q) :
  0 < q ->
  let s := sqrtApprox q in
  0 <= s /\ s * s <= q /\ q < (s + sqrtStep) * (s + sqrtStep).
Proof.
  intros Hq. cbv zeta. unfold sqrtApprox.
  assert (E : Qle_bool (Qred q) 0 = false).
  { apply Qle_bool_false. now rewrite Qred_correct. }
  rewrite E. clear E.
  assert (Eq : Qred q == q) by apply Qred_correct.
  set (q' := Qred q) in *. clearbody q'.
  rewrite <- Eq in Hq. rewrite <- Eq. clear Eq q.
  destruct q' as [n d]. cbn [Qnum Qden].
  assert (Hn : (0 < n)%Z).
  { unfold Qlt in Hq. cbn in Hq. lia. }
  destruct ((Z.sqrt n * Z.sqrt n =? n)%Z && (Z.sqrt (Zpos d) * Z.sqrt (Zpos d) =? Zpos d)%Z)
    eqn:Esq.
  - apply andb_true_iff in Esq. destruct Esq as [E1 E2].
    apply Z.eqb_eq in E1. apply Z.eqb_eq in E2.
    pose proof (Z.sqrt_nonneg n) as R0.
    assert (Rd : (0 < Z.sqrt (Zpos d))%Z) by (apply Z.sqrt_pos; lia).
    set (rn := Z.sqrt n) in *. set (rd := Z.sqrt (Zpos d)) in *.
    assert (Epos : Zpos (Z.to_pos rd) = rd) by (apply Z2Pos.id; exact Rd).
    assert (Es : (rn # Z.to_pos rd) * (rn # Z.to_pos rd) == n # d).
    { unfold Qeq, Qmult. cbn [Qnum Qden]. rewrite Pos2Z.inj_mul, Epos. nia. }
    assert (S0 : 0 <= rn # Z.to_pos rd).
    { unfold Qle. cbn. lia. }
    split; [exact S0|]. split; [rewrite Es; apply Qle_refl|].
    assert (0 < sqrtStep) by reflexivity. rewrite <- Es. nra.
  - clear Esq.
    pose proof (Zsqrt_scaled n (Zpos d) (10 ^ 16) Hn ltac:(lia) ltac:(lia))
      as (R0 & R1 & R2).
    change (10 ^ 16 * 10 ^ 16)%Z with (10 ^ 32)%Z in R0, R1, R2.
    set (r := Z.sqrt (n * 10 ^ 32 / Zpos d)) in *.
    rewrite Qred_correct.
    assert (Es : (r # 10 ^ 16) + sqrtStep == (r + 1) # 10 ^ 16).
    { unfold sqrtStep, Qeq, Qplus. cbn [Qnum Qden]. lia. }
    split; [unfold Qle; cbn; lia|]. split.
    + unfold Qle, Qmult. cbn [Qnum Qden].
      change (Zpos (10 ^ 16 * 10 ^ 16)) with (10 ^ 32)%Z. lia.
    + rewrite Es. unfold Qlt, Qmult. cbn [Qnum Qden].
      change (Zpos (10 ^ 16 * 10 ^ 16)) with (10 ^ 32)%Z. lia.
Qed.

Lemma sqrtApprox_accurate (x : Q) :
  1 # 16 <= x ->
  0 < sqrtApprox x /\
  (1 - sqrtTolerance) * x <= sqrtApprox x * sqrtApprox x /\
  sqrtApprox x * sqrtApprox x <= (1 + sqrtTolerance) * x.
Proof.
  intros Hx.
  destruct (sqrtApprox_spec x ltac:(lra)) as (S0 & S1 & S2).
  set (s := sqrtApprox x) in *.
  unfold sqrtStep, sqrtTolerance in *.
  assert (Hs : 0 < s).
  { apply Qnot_le_lt. intros Hle. assert (E : s == 0) by lra.
    rewrite E in S2. revert S2. apply Qle_not_lt.
    apply Qle_trans with (1 # 16); [discriminate | exact Hx]. }
  split; [exact Hs|]. split; [|nra].
  assert (Hs16 : s <= 16 * x).
  { destruct (Qlt_le_dec 1 s) as [H1|H1]; [nra | lra]. }
  assert (E : (s + (1 # 10000000000000000)) * (s + (1 # 10000000000000000))
              == s * s + (2 # 10000000000000000) * s
                 + (1 # 100000000000000000000000000000000)) by ring.
  rewrite E in S2. lra.
Qed.

Lemma acosPoly_eq (x : Q) : acosPoly x = sqrtApprox (1 - x) * acosCoeffs x.
Proof. reflexivity. Qed.

Lemma acosCoeffs_decreasing (y1 y2 : Q) :
  0 <= y1 -> y1 <= y2 -> y2 <= 1 -> acosCoeffs y2 <= acosCoeffs y1.
Proof.
  intros H0 H12 H1.
  assert (E : acosCoeffs y1 - acosCoeffs y2
              == (y2 - y1) * (0.2121144 - 0.0742610 * (y1 + y2)
                              + 0.0187293 * (y1 * y1 + y1 * y2 + y2 * y2)))
    by (unfold acosCoeffs; ring).
  assert (F : 0 <= 0.2121144 - 0.0742610 * (y1 + y2)
                   + 0.0187293 * (y1 * y1 + y1 * y2 + y2 * y2)) by nra.
  assert (0 <= (y2 - y1) * (0.2121144 - 0.0742610 * (y1 + y2)
                            + 0.0187293 * (y1 * y1 + y1 * y2 + y2 * y2))).
  { apply Qmult_le_0_compat; lra. }
  lra.
Qed.

Lemma acosCoeffs_range (y : Q) :
  0 <= y -> y <= 1 -> 1.41 <= acosCoeffs y /\ acosCoeffs y <= 1.5707288.
Proof.
  intros H0 H1. split.
  - apply Qle_trans with (acosCoeffs 1); [by_evaluation|].
    apply acosCoeffs_decreasing; lra.
  - apply Qle_trans with (acosCoeffs 0); [|by_evaluation].
    apply acosCoeffs_decreasing; lra.
Qed.

(** The root of a number in [[0, 1]] is at most 1. *)
Lemma sqrtApprox_le_1 (q : Q) : q <= 1 -> 0 <= sqrtApprox q /\ sqrtApprox q <= 1.
Proof.
  intros Hq. destruct (Qlt_le_dec 0 q) as [Hpos|Hneg].
  - destruct (sqrtApprox_spec q Hpos) as (S0 & S1 & _).
    split; [exact S0|]. apply square_le_cancel; lra.
  - rewrite (sqrtApprox_nonpos q Hneg). split; discriminate.
Qed.

Lemma acosApprox_beyond (x : Q) :
  -1 <= x -> x <= - 0.8091 -> piApprox * 0.8 < acosApprox x.
Proof.
  intros Hlo Hhi. unfold acosApprox.
  assert (E : Qle_bool 0 x = false) by (apply Qle_bool_false; lra).
  rewrite E, Qred_correct, acosPoly_eq.
  set (y := - x). assert (Hy0 : 0.8091 <= y) by (unfold y; lra).
  assert (Hy1 : y <= 1) by (unfold y; lra).
  destruct (acosCoeffs_range y ltac:(lra) Hy1) as [P0 _].
  assert (P1 : acosCoeffs y <= 1.43781).
  { apply Qle_trans with (acosCoeffs 0.8091); [|by_evaluation].
    apply acosCoeffs_decreasing; lra. }
  set (p := acosCoeffs y) in *.
  assert (Hprod : sqrtApprox (1 - y) * p <= 0.6283).
  { destruct (Qlt_le_dec 0 (1 - y)) as [Hpos|Hneg].
    - destruct (sqrtApprox_spec _ Hpos) as (S0 & S1 & _).
      set (s := sqrtApprox (1 - y)) in *.
      apply square_le_cancel; [by_evaluation|].
      assert (s * s <= 0.1909) by lra.
      assert (p * p <= 1.43781 * 1.43781) by nra.
      assert (E2 : s * p * (s * p) == (s * s) * (p * p)) by ring.
      rewrite E2.
      apply Qle_trans with (0.1909 * (1.43781 * 1.43781)); [|by_evaluation].
      assert (0 <= s * s) by nra. assert (0 <= p * p) by nra. nra.
    - rewrite (sqrtApprox_nonpos _ Hneg). lra. }
  unfold piApprox. lra.
Qed.

Lemma acosApprox_within (x : Q) :
  - 0.8089 <= x -> x <= 1 -> acosApprox x <= piApprox * 0.8.
Proof.
  intros Hlo Hhi. unfold acosApprox.
  destruct (Qle_bool 0 x) eqn:E.
  - apply Qle_bool_iff in E. rewrite Qred_correct, acosPoly_eq.
    destruct (acosCoeffs_range x E Hhi) as [P0 P1].
    destruct (sqrtApprox_le_1 (1 - x) ltac:(lra)) as [S0 S1].
    unfold piApprox. nra.
  - apply Qle_bool_false in E. rewrite Qred_correct, acosPoly_eq.
    set (y := - x). assert (Hy0 : 0 < y) by (unfold y; lra).
    assert (Hy1 : y <= 0.8089) by (unfold y; lra).
    assert (P1 : 1.43782 <= acosCoeffs y).
    { apply Qle_trans with (acosCoeffs 0.8089); [by_evaluation|].
      apply acosCoeffs_decreasing; lra. }
    destruct (sqrtApprox_spec (1 - y) ltac:(lra)) as (S0 & _ & S2).
    set (s := sqrtApprox (1 - y)) in *. set (p := acosCoeffs y) in *.
    assert (Hs : 0.43709 <= s).
    { apply Qnot_lt_le. intros Hlt. revert S2. apply Qle_not_lt.
      apply Qle_trans with (0.4371 * 0.4371); [|lra].
      unfold sqrtStep.
      assert (s + (1 # 10000000000000000) <= 0.4371) by lra.
      assert (0 <= s + (1 # 10000000000000000)) by lra.
      nra. }
    assert (0.43709 * 1.43782 <= s * p) by nra.
    unfold piApprox. lra.
Qed.

Lemma approxMath_accurate : MathAccurate approxMath.
Proof.
  split; [|split].
  - exact sqrtApprox_accurate.
  - exact acosApprox_beyond.
  - exact acosApprox_within.
Qed.

End ApproxMathFacts.

(** ** The filter of the junction loop *)

Section JunctionFilter.
Context {M : JSMath}.
Import JS JSFacts.

(** C9: the junction loop of [buildNetwork], run with an accurate [Math]
    on a map of straight ROAD lanes stored under their ids, as [buildRoads]
    is.  For every ordered pair of roads [(in, out)] such that [out]
    originates at the node [b] that [in] leads to, the network holds a
    JUNCTION lane connecting them if and only if the angle that the loop
    measures between [in]'s end tangent and [out]'s start tangent does not
    exceed [0.8 pi]; and that angle is the angle of the turn: no junction
    is built where the cosine of the turn is at most [-0.80911] (a turn of
    144.01 degrees or more, as every reversal is), and one is built where
    it is at least [-0.80889] (143.98 degrees or less). *)
Theorem junction_filter (roads : Lanes) (n : nat)
        (inLane outLane : Lane.lane) (b c : string) :
  MathAccurate M -> RoadsWF roads n ->
  In inLane (JSMap.values roads) -> In outLane (JSMap.values roads) ->
  straight inLane = true -> straight outLane = true ->
  Lane.toNodeId inLane = Some b -> Lane.id outLane = roadId b c ->
  let net := buildJunctions roads in
  (junctionBetween net inLane outLane <->
   turnAngle inLane outLane <= Math_PI * 0.8) /\
  (cosAtMost 0.80911 (heading inLane) (heading outLane) ->
   ~ junctionBetween net inLane outLane) /\
  (cosAtLeast 0.80889 (heading inLane) (heading outLane) ->
   junctionBetween net inLane outLane).
Proof.
  intros HM Hwf Hin Hout Si So Hto Hid net.
  assert (Hc : connects inLane outLane) by (eapply origin_connects; eauto).
  pose proof (junction_iff_roads roads n Hwf inLane outLane Hin Hout Hc) as Hiff.
  fold net in Hiff.
  destruct (turnAngle_straight inLane outLane Si So) as (Lu & Lw & Eangle).
  split; [exact Hiff|]. split.
  - intros Hcos Hj. apply Hiff in Hj. rewrite Eangle in Hj.
    pose proof (angle_beyond HM _ _ Lu Lw Hcos). lra.
  - intros Hcos. apply Hiff. rewrite Eangle.
    exact (angle_within HM _ _ Lu Lw Hcos).
Qed.

(** The roads of the grid are straight. *)
Lemma buildRoads_straight (l : Lane.lane) :
  In l (JSMap.values buildRoads) -> straight l = true.
Proof.
  assert (H : forallb straight (JSMap.values buildRoads) = true) by reflexivity.
  rewrite forallb_forall in H. exact (H l).
Qed.

(** On the grid a turn is a reversal, or it is no sharper than a right
    angle. *)
Lemma grid_turns (inLane outLane : Lane.lane) :
  In inLane (JSMap.values buildRoads) -> In outLane (JSMap.values buildRoads) ->
  cosAtMost 1 (heading inLane) (heading outLane) \/
  cosAtLeast 0 (heading inLane) (heading outLane).
Proof.
  assert (H : forallb (fun a => forallb (fun b =>
                 reversalb (heading a) (heading b) ||
                 Qle_bool 0 (THREE.dot (heading a) (heading b)))
                 (JSMap.values buildRoads)) (JSMap.values buildRoads) = true)
    by reflexivity.
  rewrite forallb_forall in H. intros Hin Hout.
  specialize (H _ Hin). rewrite forallb_forall in H. specialize (H _ Hout).
  apply orb_true_iff in H. destruct H as [H|H].
  - left. unfold reversalb in H. apply andb_true_iff in H. destruct H as [A B].
    apply Qle_bool_iff in A. apply Qle_bool_iff in B.
    split; [exact A|]. lra.
  - right. left. now apply Qle_bool_iff.
Qed.

(** With an accurate [Math], the network that [buildNetwork] builds holds
    a junction from a road to a road that starts where it ends exactly
    when the second is not the way back: the reversals, and only they,
    are filtered. *)
Lemma grid_junctions (rPhase rTimer : nat -> nat -> Q)
      (inLane outLane : Lane.lane) (b c : string) :
  MathAccurate M ->
  In inLane (JSMap.values buildRoads) -> In outLane (JSMap.values buildRoads) ->
  Lane.toNodeId inLane = Some b -> Lane.id outLane = roadId b c ->
  (junctionBetween (fst (buildNetwork rPhase rTimer)) inLane outLane <->
   ~ cosAtMost 1 (heading inLane) (heading outLane)).
Proof.
  intros HM Hin Hout Hto Hid. unfold buildNetwork. cbn [fst].
  assert (Hc : connects inLane outLane) by (eapply origin_connects; eauto).
  pose proof (junction_iff_roads buildRoads 9 buildRoads_wf inLane outLane
                Hin Hout Hc) as Hiff.
  destruct (turnAngle_straight inLane outLane
              (buildRoads_straight _ Hin) (buildRoads_straight _ Hout))
    as (Lu & Lw & Eangle).
  revert Hiff. generalize (buildJunctions buildRoads). intros net Hiff.
  rewrite Eangle in Hiff.
  set (u := heading inLane) in *. set (w := heading outLane) in *.
  assert (HL : 0 <= THREE.lengthSq u * THREE.lengthSq w) by nra.
  split.
  - intros Hj [Hd Hk]. apply Hiff in Hj.
    assert (Hcos : cosAtMost 0.80911 u w).
    { split; [exact Hd|]. nra. }
    pose proof (angle_beyond HM u w Lu Lw Hcos). lra.
  - intros Hno. apply Hiff.
    destruct (grid_turns inLane outLane Hin Hout) as [Hrev|Hok];
      [contradiction|].
    apply (angle_within HM u w Lu Lw).
    destruct Hok as [Hd|Hk]; [left; exact Hd | right; fold u w in Hk; nra].
Qed.

End JunctionFilter.

Section CityTurns.
Import JS JSFacts.

(** In the city, the road from [0_0] to [1_0] and the road back: a
    reversal. *)
Lemma city_roads_reversed :
  exists inLane outLane,
    JSMap.get (buildRoads (M := approxMath)) "R_0_0_1_0" = Some inLane /\
    JSMap.get (buildRoads (M := approxMath)) "R_1_0_0_0" = Some outLane /\
    Lane.toNodeId inLane = Some "1_0"%string /\
    Lane.id outLane = roadId "1_0" "0_0" /\
    cosAtMost 0.80911 (heading inLane) (heading outLane).
Proof.
  eexists _, _. split; [lazy; reflexivity|]. split; [lazy; reflexivity|].
  split; [reflexivity|]. split; [reflexivity|].
  split; by_evaluation.
Qed.

Lemma city_roads_ahead :
  exists inLane outLane,
    JSMap.get (buildRoads (M := approxMath)) "R_0_0_1_0" = Some inLane /\
    JSMap.get (buildRoads (M := approxMath)) "R_1_0_2_0" = Some outLane /\
    Lane.toNodeId inLane = Some "1_0"%string /\
    Lane.id outLane = roadId "1_0" "2_0" /\
    cosAtLeast 0.80889 (heading inLane) (heading outLane).
Proof.
  eexists _, _. split; [lazy; reflexivity|]. split; [lazy; reflexivity|].
  split; [reflexivity|]. split; [reflexivity|].
  left. by_evaluation.
Qed.

Lemma junction_filter_witness :
  let net := fst (buildNetwork (M := approxMath) cityDraw cityDraw) in
  (exists inLane outLane,
     JSMap.get (buildRoads (M := approxMath)) "R_0_0_1_0" = Some inLane /\
     JSMap.get (buildRoads (M := approxMath)) "R_1_0_0_0" = Some outLane /\
     ~ junctionBetween net inLane outLane) /\
  (exists inLane outLane,
     JSMap.get (buildRoads (M := approxMath)) "R_0_0_1_0" = Some inLane /\
     JSMap.get (buildRoads (M := approxMath)) "R_1_0_2_0" = Some outLane /\
     junctionBetween net inLane outLane).
Proof.
  cbv zeta. unfold buildNetwork. cbn [fst].
  split.
  - destruct city_roads_reversed as (inLane & outLane & Hin & Hout & Hto & Hid & Hcos).
    exists inLane, outLane. split; [exact Hin|]. split; [exact Hout|].
    pose proof (get_In_values _ _ _ Hin) as Vin.
    pose proof (get_In_values _ _ _ Hout) as Vout.
    exact (proj1 (proj2 (junction_filter (M := approxMath) buildRoads 9
             inLane outLane "1_0" "0_0" approxMath_accurate buildRoads_wf
             Vin Vout (buildRoads_straight _ Vin) (buildRoads_straight _ Vout)
             Hto Hid)) Hcos).
  - destruct city_roads_ahead as (inLane & outLane & Hin & Hout & Hto & Hid & Hcos).
    exists inLane, outLane. split; [exact Hin|]. split; [exact Hout|].
    pose proof (get_In_values _ _ _ Hin) as Vin.
    pose proof (get_In_values _ _ _ Hout) as Vout.
    exact (proj2 (proj2 (junction_filter (M := approxMath) buildRoads 9
             inLane outLane "1_0" "2_0" approxMath_accurate buildRoads_wf
             Vin Vout (buildRoads_straight _ Vin) (buildRoads_straight _ Vout)
             Hto Hid)) Hcos).
Defined.

End CityTurns.


(** ** The order of the car array *)

Section Sorting.
Import JS JSFacts.
Open Scope Q_scope.
Variable cars : list Car.car.

Lemma insertByT_sorted x l :
  StronglySorted (aheadOrLevel cars) l ->
  StronglySorted (aheadOrLevel cars) (insertByT cars x l).
Proof.
  induction 1 as [|y l Hs IH Hall]; simpl.
  - repeat constructor.
  - destruct (Qle_bool (tOf cars y - tOf cars x) 0) eqn:E.
    + apply Qle_bool_iff in E.
      constructor; [now constructor|].
      constructor; [unfold aheadOrLevel; lra|].
      rewrite Forall_forall in *. intros z Hz. specialize (Hall z Hz).
      unfold aheadOrLevel in *. lra.
    + apply Qle_bool_false in E.
      constructor; [exact IH|].
      rewrite Forall_forall in *. intros z Hz.
      apply (Permutation_in _ (insertByT_perm cars x l)) in Hz.
      destruct Hz as [<-|Hz]; [unfold aheadOrLevel; lra | auto].
Qed.

Lemma sortByT_sorted l : StronglySorted (aheadOrLevel cars) (sortByT cars l).
Proof.
  induction l as [|x l IH]; simpl; [constructor | now apply insertByT_sorted].
Qed.

Lemma StronglySorted_app_inv {A : Type} (R : A -> A -> Prop) (l1 l2 : list A) :
  StronglySorted R (l1 ++ l2) ->
  StronglySorted R l1 /\ StronglySorted R l2 /\
  forall x y, In x l1 -> In y l2 -> R x y.
Proof.
  induction l1 as [|a l1 IH]; simpl; intros H.
  - repeat split; [constructor | exact H | intros x y []].
  - inversion H as [|? ? Hs Hall]; subst.
    destruct (IH Hs) as (S1 & S2 & Hxy).
    rewrite Forall_forall in Hall.
    repeat split; auto.
    + constructor; [exact S1|]. apply Forall_forall. intros z Hz.
      apply Hall. apply in_or_app. now left.
    + intros x y [<-|Hx] Hy; [|auto]. apply Hall. apply in_or_app. now right.
Qed.

End Sorting.

Section IndexOf.
Open Scope Z_scope.

Lemma indexOf_lower (p : list nat) (i : nat) : -1 <= indexOf p i.
Proof.
  induction p as [|y p IH]; simpl; [lia|].
  destruct (Nat.eqb y i); [lia|].
  destruct (Z.ltb (indexOf p i) 0); lia.
Qed.

(** [indexOf] finds the first occurrence. *)
Lemma indexOf_split (p : list nat) (i : nat) :
  0 <= indexOf p i ->
  exists pre post, p = (pre ++ i :: post)%list /\
                   Z.of_nat (List.length pre) = indexOf p i /\ ~ In i pre.
Proof.
  induction p as [|y p IH]; simpl; [lia|].
  destruct (Nat.eqb y i) eqn:E.
  - apply Nat.eqb_eq in E. subst y. intros _.
    exists [], p. simpl. auto.
  - apply Nat.eqb_neq in E.
    destruct (Z.ltb (indexOf p i) 0) eqn:El; [lia|].
    apply Z.ltb_ge in El. intros _.
    destruct (IH El) as (pre & post & -> & HL & Hni).
    exists (y :: pre), post. simpl. repeat split; [lia|].
    intros [H|H]; [congruence | contradiction].
Qed.

Lemma indexOf_absent (p : list nat) (i : nat) : indexOf p i < 0 -> ~ In i p.
Proof.
  induction p as [|y p IH]; simpl; [tauto|].
  destruct (Nat.eqb y i) eqn:E; [lia|].
  apply Nat.eqb_neq in E.
  destruct (Z.ltb (indexOf p i) 0) eqn:El.
  - apply Z.ltb_lt in El. intros _ [H|H]; [congruence | now apply IH].
  - pose proof (indexOf_lower p i). apply Z.ltb_ge in El. lia.
Qed.

End IndexOf.

Section LaneOrder.
Import JS JSFacts.
Open Scope Q_scope.
Variable cars : list Car.car.
Hypothesis Hdistinct : distinctPositions cars.

Lemma tOf_nth i c : nth_error cars i = Some c -> tOf cars i = Car.t c.
Proof. unfold tOf. now intros ->. Qed.

(** Two cars of the array at one position of one lane are one car. *)
Lemma distinct_index i j ci cj :
  nth_error cars i = Some ci -> nth_error cars j = Some cj ->
  Car.laneId ci = Car.laneId cj -> Car.t ci == Car.t cj -> i = j.
Proof.
  intros Hi Hj Hl Ht.
  apply (proj1 (NoDup_nth_error (map posKey cars)) Hdistinct).
  - rewrite length_map. apply nth_error_Some. congruence.
  - rewrite !nth_error_map, Hi, Hj. simpl. unfold posKey.
    now rewrite Hl, (Qred_complete _ _ Ht).
Qed.

Lemma distinct_In c d :
  In c cars -> In d cars ->
  Car.laneId c = Car.laneId d -> Car.t c == Car.t d -> c = d.
Proof.
  intros Hc Hd Hl Ht.
  destruct (In_nth_error _ _ Hc) as (i & Hi).
  destruct (In_nth_error _ _ Hd) as (j & Hj).
  assert (i = j) by (eapply distinct_index; eauto). subst j. congruence.
Qed.

Lemma idxOn_lower (cs : list Car.car) a k j : In j (idxOn cs a k) -> (a <= j)%nat.
Proof. intros H. apply idxOn_spec in H. destruct H as (c & _ & H & _). exact H. Qed.

Lemma idxOn_NoDup (cs : list Car.car) a k : NoDup (idxOn cs a k).
Proof.
  revert a. induction cs as [|c cs IH]; intros a; simpl; [constructor|].
  destruct (String.eqb (Car.laneId c) k); [|apply IH].
  constructor; [|apply IH]. intros H. apply idxOn_lower in H. lia.
Qed.

(** The sorted list of a lane that holds a car. *)
Lemma lane_list i c :
  nth_error cars i = Some c ->
  exists p,
    JSMap.get (carsByLaneOf cars) (Car.laneId c) = Some p /\
    In i p /\ NoDup p /\ StronglySorted (aheadOrLevel cars) p.
Proof.
  intros Hi. rewrite carsByLaneOf_get.
  assert (Hin : In i (idxOn cars 0 (Car.laneId c))).
  { apply idxOn_spec. exists c. rewrite Nat.sub_0_r. auto with arith. }
  destruct (idxOn cars 0 (Car.laneId c)) as [|i0 r] eqn:E; [destruct Hin|].
  exists (sortByT cars (i0 :: r)). split; [reflexivity|].
  pose proof (sortByT_perm cars (i0 :: r)) as Hp.
  split; [apply (Permutation_in _ (Permutation_sym Hp)); exact Hin|].
  split.
  - apply (Permutation_NoDup (Permutation_sym Hp)).
    rewrite <- E. apply idxOn_NoDup.
  - apply sortByT_sorted.
Qed.

Lemma list_last_split {A : Type} (l : list A) :
  l <> [] -> exists l' x, l = (l' ++ [x])%list.
Proof.
  intros H. destruct (exists_last H) as (l' & x & E). eauto.
Qed.

(** The leader of a car is the nearest car ahead of it on its lane. *)
Lemma leaderOf_spec i c :
  nth_error cars i = Some c ->
  match leaderOf (carsByLaneOf cars) c i with
  | Some j =>
      exists r, nth_error cars j = Some r /\ Car.laneId r = Car.laneId c /\
                Car.t c < Car.t r /\
                forall d, In d cars -> Car.laneId d = Car.laneId c ->
                          Car.t c < Car.t d -> Car.t r <= Car.t d
  | None =>
      forall d, In d cars -> Car.laneId d = Car.laneId c -> Car.t d <= Car.t c
  end.
Proof.
  intros Hi.
  destruct (lane_list i c Hi) as (p & Hp & Hin & Hnd & Hs).
  assert (Hmem : forall j, In j p <-> exists c0, nth_error cars j = Some c0 /\ Car.laneId c0 = Car.laneId c)
    by (intros j; now apply carsByLaneOf_members).
  unfold leaderOf. rewrite Hp.
  destruct (Z_lt_le_dec (indexOf p i) 0) as [Hneg|Hpos];
    [exfalso; now apply (indexOf_absent p i Hneg)|].
  destruct (indexOf_split p i Hpos) as (pre & post & Ep & HL & Hni).
  assert (Hd : forall d, In d cars -> Car.laneId d = Car.laneId c ->
                 exists k, nth_error cars k = Some d /\ In k p).
  { intros d Hd Hl. destruct (In_nth_error _ _ Hd) as (k & Hk).
    exists k. split; [exact Hk|]. apply Hmem. eauto. }
  assert (Hpost : forall k d, In k post -> nth_error cars k = Some d ->
                    Car.t d <= Car.t c).
  { intros k d Hk Hkd. rewrite Ep in Hs.
    apply StronglySorted_app_inv in Hs. destruct Hs as (_ & Hs & _).
    apply StronglySorted_inv in Hs. destruct Hs as [_ Hall].
    rewrite Forall_forall in Hall.
    specialize (Hall k Hk). unfold aheadOrLevel in Hall.
    now rewrite (tOf_nth _ _ Hkd), (tOf_nth _ _ Hi) in Hall. }
  destruct (Z.ltb 0 (indexOf p i)) eqn:Elt.
  - apply Z.ltb_lt in Elt.
    assert (Hne : pre <> []) by (intros ->; simpl in HL; lia).
    destruct (list_last_split pre Hne) as (pre' & j & ->).
    assert (Ej : nthZ p (indexOf p i - 1) = Some j).
    { unfold nthZ. rewrite <- HL, length_app. simpl.
      destruct (Z.ltb _ 0) eqn:E0; [apply Z.ltb_lt in E0; lia|].
      replace (Z.to_nat (Z.of_nat (List.length pre' + 1) - 1)) with (List.length pre') by lia.
      rewrite Ep, <- app_assoc. simpl.
      rewrite nth_error_app2 by lia. now rewrite Nat.sub_diag. }
    rewrite Ej.
    assert (Hjp : In j p).
    { rewrite Ep. apply in_or_app. left. apply in_or_app. right. now left. }
    destruct (proj1 (Hmem j) Hjp) as (r & Hr & Hrl).
    rewrite Ep, <- app_assoc in Hs. simpl in Hs.
    apply StronglySorted_app_inv in Hs. destruct Hs as (_ & Hs & Hpre).
    apply StronglySorted_inv in Hs. destruct Hs as [_ Hall].
    rewrite Forall_forall in Hall.
    assert (Hji : Car.t c <= Car.t r).
    { specialize (Hall i (or_introl eq_refl)). unfold aheadOrLevel in Hall.
      now rewrite (tOf_nth _ _ Hr), (tOf_nth _ _ Hi) in Hall. }
    assert (Hneq : j <> i).
    { intros ->. apply Hni. apply in_or_app. right. now left. }
    exists r. split; [exact Hr|]. split; [exact Hrl|]. split.
    + destruct (Qlt_le_dec (Car.t c) (Car.t r)) as [H|H]; [exact H|].
      exfalso. apply Hneq. eapply distinct_index; eauto. lra.
    + intros d Hdin Hdl Hdt.
      destruct (Hd d Hdin Hdl) as (k & Hk & Hkp).
      rewrite Ep, <- app_assoc in Hkp. simpl in Hkp.
      apply in_app_or in Hkp. destruct Hkp as [Hk1|[<-|[<-|Hk2]]].
      * specialize (Hpre k j Hk1 (or_introl eq_refl)).
        unfold aheadOrLevel in Hpre.
        now rewrite (tOf_nth _ _ Hr), (tOf_nth _ _ Hk) in Hpre.
      * assert (d = r) by congruence. subst. lra.
      * assert (d = c) by congruence. subst. lra.
      * specialize (Hpost k d Hk2 Hk). lra.
  - apply Z.ltb_ge in Elt.
    assert (pre = []) by (destruct pre; [reflexivity | simpl in HL; lia]).
    subst pre. simpl in Ep.
    intros d Hdin Hdl.
    destruct (Hd d Hdin Hdl) as (k & Hk & Hkp).
    rewrite Ep in Hkp. destruct Hkp as [<-|Hk2].
    + assert (d = c) by congruence. subst. lra.
    + eapply Hpost; eauto.
Qed.

(** The last car of a lane is the rearmost car on it. *)
Lemma lastCarOn_spec tgt :
  match lastCarOn (carsByLaneOf cars) cars tgt with
  | Some r =>
      truthy tgt = true /\ In r cars /\ Car.laneId r = strOf tgt /\
      forall d, In d cars -> Car.laneId d = strOf tgt -> Car.t r <= Car.t d
  | None =>
      truthy tgt = false \/
      forall d, In d cars -> Car.laneId d <> strOf tgt
  end.
Proof.
  unfold lastCarOn. destruct (truthy tgt); [|now left].
  pose proof (carsByLaneOf_members cars (strOf tgt)) as Hmem.
  rewrite carsByLaneOf_get in *.
  destruct (idxOn cars 0 (strOf tgt)) as [|i0 r0] eqn:E.
  - right. intros d Hd Hl. destruct (In_nth_error _ _ Hd) as (k & Hk).
    assert (Hin : In k (idxOn cars 0 (strOf tgt))).
    { apply idxOn_spec. exists d. rewrite Nat.sub_0_r. auto with arith. }
    rewrite E in Hin. destruct Hin.
  - set (p := sortByT cars (i0 :: r0)) in *.
    specialize (Hmem p).
    assert (Hm : forall j, In j p <->
                   exists c0, nth_error cars j = Some c0 /\ Car.laneId c0 = strOf tgt)
      by (intros j; now apply Hmem).
    pose proof (sortByT_sorted cars (i0 :: r0)) as Hs. fold p in Hs.
    assert (Hlen : List.length p = S (List.length r0)).
    { unfold p. now rewrite (Permutation_length (sortByT_perm cars (i0 :: r0))). }
    assert (Hne : p <> []) by (intros Ep; rewrite Ep in Hlen; discriminate).
    destruct (list_last_split p Hne) as (pre & j & Ep).
    rewrite Hlen. simpl. unfold lastOf. rewrite Hlen. simpl.
    rewrite Nat.sub_0_r.
    assert (Ej : nth_error p (List.length r0) = Some j).
    { rewrite Ep in Hlen |- *. rewrite length_app in Hlen. simpl in Hlen.
      rewrite nth_error_app2 by lia.
      replace (List.length r0 - List.length pre)%nat with O by lia. reflexivity. }
    rewrite Ej. simpl.
    assert (Hjp : In j p) by (rewrite Ep; apply in_or_app; right; now left).
    destruct (proj1 (Hm j) Hjp) as (r & Hr & Hrl).
    rewrite Hr. split; [reflexivity|].
    split; [eapply nth_error_In; eauto|]. split; [exact Hrl|].
    intros d Hd Hl. destruct (In_nth_error _ _ Hd) as (k & Hk).
    assert (Hkp : In k p) by (apply Hm; eauto).
    rewrite Ep in Hkp, Hs. apply in_app_or in Hkp.
    destruct Hkp as [Hk1|[<-|[]]].
    + apply StronglySorted_app_inv in Hs. destruct Hs as (_ & _ & Hpre).
      specialize (Hpre k j Hk1 (or_introl eq_refl)).
      unfold aheadOrLevel in Hpre.
      now rewrite (tOf_nth _ _ Hr), (tOf_nth _ _ Hk) in Hpre.
    + assert (d = r) by congruence. subst. lra.
Qed.

End LaneOrder.

Section Permuted.
Import JS JSFacts.
Open Scope Q_scope.
Variables cars cars' : list Car.car.
Hypothesis Hperm : Permutation cars cars'.
Hypothesis Hdistinct : distinctPositions cars.

Lemma distinct_perm : distinctPositions cars'.
Proof.
  unfold distinctPositions in *.
  eapply Permutation_NoDup; [|exact Hdistinct]. now apply Permutation_map.
Qed.

Lemma In_perm d : In d cars <-> In d cars'.
Proof.
  split; intros H; [eapply Permutation_in; eauto|].
  eapply Permutation_in; [apply Permutation_sym|]; eauto.
Qed.

(** The rearmost car of a lane does not depend on the order of the array. *)
Lemma lastCarOn_perm tgt :
  lastCarOn (carsByLaneOf cars) cars tgt = lastCarOn (carsByLaneOf cars') cars' tgt.
Proof.
  pose proof (lastCarOn_spec cars tgt) as S.
  pose proof (lastCarOn_spec cars' tgt) as S'.
  destruct (lastCarOn (carsByLaneOf cars) cars tgt) as [r|],
           (lastCarOn (carsByLaneOf cars') cars' tgt) as [r'|].
  - destruct S as (_ & Hr & Hl & Hmin). destruct S' as (_ & Hr' & Hl' & Hmin').
    f_equal. apply (distinct_In cars Hdistinct); auto.
    + now apply In_perm.
    + congruence.
    + apply In_perm in Hr'. apply In_perm in Hr.
      specialize (Hmin r' Hr' Hl'). specialize (Hmin' r Hr Hl). lra.
  - destruct S as (Ht & Hr & Hl & _). destruct S' as [Hf|Hno]; [congruence|].
    exfalso. apply (Hno r); auto. now apply In_perm.
  - destruct S' as (Ht & Hr & Hl & _). destruct S as [Hf|Hno]; [congruence|].
    exfalso. apply (Hno r'); auto. now apply In_perm.
  - reflexivity.
Qed.

(** What a car perceives does not depend on the order of the array. *)
Lemma perceive_perm lanes rTarget lights i i' c :
  nth_error cars i = Some c -> nth_error cars' i' = Some c ->
  perceive lanes rTarget (carsByLaneOf cars) lights cars i c
  = perceive lanes rTarget (carsByLaneOf cars') lights cars' i' c.
Proof.
  intros Hi Hi'.
  pose proof (leaderOf_spec cars Hdistinct i c Hi) as S.
  pose proof (leaderOf_spec cars' distinct_perm i' c Hi') as S'.
  unfold perceive.
  destruct (leaderOf (carsByLaneOf cars) c i) as [j|],
           (leaderOf (carsByLaneOf cars') c i') as [j'|].
  - destruct S as (r & Hr & Hl & Hlt & Hmin).
    destruct S' as (r' & Hr' & Hl' & Hlt' & Hmin').
    assert (Hin : In r cars) by (eapply nth_error_In; eauto).
    assert (Hin' : In r' cars') by (eapply nth_error_In; eauto).
    assert (r = r').
    { apply (distinct_In cars Hdistinct); auto.
      - now apply In_perm.
      - congruence.
      - apply In_perm in Hin'. apply In_perm in Hin.
        specialize (Hmin r' Hin' Hl' Hlt'). specialize (Hmin' r Hin Hl Hlt). lra. }
    subst r'. now rewrite Hr, Hr'.
  - destruct S as (r & Hr & Hl & Hlt & _).
    assert (Hin : In r cars') by (apply In_perm; eapply nth_error_In; eauto).
    specialize (S' r Hin Hl). exfalso. lra.
  - destruct S' as (r & Hr & Hl & Hlt & _).
    assert (Hin : In r cars) by (apply In_perm; eapply nth_error_In; eauto).
    specialize (S r Hin Hl). exfalso. lra.
  - destruct (JSMap.get lanes (Car.laneId c)) as [currentLane|]; [|reflexivity].
    cbn [bind].
    destruct (Lane.type currentLane).
    + destruct (getTrafficLightState lights currentLane); try reflexivity.
      now rewrite lastCarOn_perm.
    + now rewrite lastCarOn_perm.
Qed.

End Permuted.

Section SnapshotPasses.
Context {M : JSMath}.
Variable lanes : Lanes.
Variables rTarget rRespawn : nat -> Q.
Import JS JSFacts.
Open Scope Q_scope.

Lemma sameTV_nth (cur snap : list Car.car) (j : nat) :
  map tv cur = map tv snap ->
  option_map tv (nth_error cur j) = option_map tv (nth_error snap j).
Proof. intros E. rewrite <- !nth_error_map. now rewrite E. Qed.

Lemma lastCarOn_sameTV byLane (cur snap : list Car.car) tgt :
  map tv cur = map tv snap ->
  option_map tv (lastCarOn byLane cur tgt) = option_map tv (lastCarOn byLane snap tgt).
Proof.
  intros E. unfold lastCarOn.
  destruct (truthy tgt); [|reflexivity].
  destruct (JSMap.get byLane (strOf tgt)) as [l|]; [|reflexivity].
  destruct (Nat.ltb 0 (List.length l)); [|reflexivity].
  destruct (lastOf l) as [j|]; simpl; [|reflexivity].
  now apply sameTV_nth.
Qed.

(** A car perceives the other cars through their positions and speeds. *)
Lemma perceive_sameTV byLane lights (cur snap : list Car.car) i car :
  map tv cur = map tv snap ->
  perceive lanes rTarget byLane lights cur i car
  = perceive lanes rTarget byLane lights snap i car.
Proof.
  intros E. unfold perceive.
  destruct (leaderOf byLane car i) as [j|].
  - pose proof (sameTV_nth _ _ j E) as Ej.
    destruct (nth_error cur j) as [c1|], (nth_error snap j) as [c2|];
      simpl in *; try discriminate; [|reflexivity].
    injection Ej as -> ->. reflexivity.
  - destruct (JSMap.get lanes (Car.laneId car)) as [currentLane|]; [|reflexivity].
    cbn [bind].
    destruct (Lane.type currentLane).
    + destruct (getTrafficLightState lights currentLane); try reflexivity.
      set (tgt := if negb _ && _ then _ else _).
      pose proof (lastCarOn_sameTV byLane _ _ tgt E) as El.
      destruct (lastCarOn byLane cur tgt) as [c1|],
               (lastCarOn byLane snap tgt) as [c2|];
        simpl in *; try discriminate; [|reflexivity].
      injection El as -> ->. reflexivity.
    + set (tgt := if negb _ && _ then _ else _).
      pose proof (lastCarOn_sameTV byLane _ _ tgt E) as El.
      destruct (lastCarOn byLane cur tgt) as [c1|],
               (lastCarOn byLane snap tgt) as [c2|];
        simpl in *; try discriminate; [|reflexivity].
      injection El as -> ->. reflexivity.
Qed.

Lemma decide_tv car p : MIN_GAP <= gap p -> tv (decide car p) = tv car.
Proof.
  intros H. unfold decide. apply ltb_ge in H. now rewrite H.
Qed.

Lemma pass1State_step byLane lights cars k cur x y :
  (forall i c p, nth_error cars i = Some c ->
     perceive lanes rTarget byLane lights cars i c = Some p -> MIN_GAP <= gap p) ->
  (k < List.length cars)%nat ->
  pass1State lanes rTarget byLane lights cars k cur ->
  nth_error cur k = Some x ->
  pass1Body lanes rTarget byLane lights cur k x = Some y ->
  pass1State lanes rTarget byLane lights cars (S k) (updateAt cur k y).
Proof.
  intros Hno Hk (HL & HT & Hafter & Hbefore) Hx Hy.
  unfold pass1Body in Hy. rewrite (perceive_sameTV _ _ _ _ _ _ HT) in Hy.
  destruct (perceive lanes rTarget byLane lights cars k x) as [p|] eqn:Hp;
    simpl in Hy; [|discriminate].
  injection Hy as <-.
  assert (Hxc : nth_error cars k = Some x) by (rewrite <- Hafter; auto).
  split; [now rewrite length_updateAt|]. split; [|split].
  - rewrite (map_updateAt _ _ tv cur k x); auto.
    apply decide_tv. eapply Hno; eauto.
  - intros j Hj. rewrite nth_error_updateAt_other by lia. apply Hafter. lia.
  - intros j c Hj Hc. destruct (Nat.eq_dec j k) as [->|Hne].
    + assert (c = x) by congruence. subst c. exists p. split; [exact Hp|].
      apply nth_error_updateAt_same. lia.
    + destruct (Hbefore j c) as (p' & Hp' & Hn); [lia | exact Hc |].
      exists p'. split; [exact Hp'|].
      now rewrite nth_error_updateAt_other by lia.
Qed.

Lemma pass1State_init byLane lights cars : pass1State lanes rTarget byLane lights cars 0 cars.
Proof.
  repeat split; auto. intros j c Hj. lia.
Qed.

(** When the hard stop does not fire, a completed pass 1 has given every
    car what it decides from the snapshot. *)
Lemma pass1_snapshot byLane lights cars cars1 :
  (forall i c p, nth_error cars i = Some c ->
     perceive lanes rTarget byLane lights cars i c = Some p -> MIN_GAP <= gap p) ->
  pass1 lanes rTarget byLane lights cars = Some cars1 ->
  List.length cars1 = List.length cars /\
  forall j c, nth_error cars j = Some c ->
    exists p, perceive lanes rTarget byLane lights cars j c = Some p /\
              nth_error cars1 j = Some (decide c p).
Proof.
  intros Hno Hrun.
  assert (Fin : pass1State lanes rTarget byLane lights cars (List.length cars) cars1).
  { apply (forEach_partial _ (pass1Body lanes rTarget byLane lights)
             (pass1State lanes rTarget byLane lights cars) cars cars1);
      [apply pass1State_init | | exact Hrun].
    intros k cur x y Hk HI Hx Hy. eapply pass1State_step; eauto. }
  destruct Fin as (HL & _ & _ & Hbefore). split; [exact HL|].
  intros j c Hc. apply Hbefore; [|exact Hc].
  apply nth_error_Some. congruence.
Qed.

(** When the hard stop does not fire and every car perceives something in
    the snapshot, pass 1 completes. *)
Lemma pass1_completes byLane lights cars :
  (forall i c p, nth_error cars i = Some c ->
     perceive lanes rTarget byLane lights cars i c = Some p -> MIN_GAP <= gap p) ->
  (forall i c, nth_error cars i = Some c ->
     exists p, perceive lanes rTarget byLane lights cars i c = Some p) ->
  exists cars1, pass1 lanes rTarget byLane lights cars = Some cars1.
Proof.
  intros Hno Hall.
  destruct (forEach_total _ (pass1Body lanes rTarget byLane lights)
              (pass1State lanes rTarget byLane lights cars) cars) as (out & Hrun & _).
  - apply pass1State_init.
  - intros k cur Hk HI.
    destruct HI as (HL & HT & Hafter & Hbefore).
    destruct (nth_error cars k) as [x|] eqn:Hx;
      [|apply nth_error_None in Hx; lia].
    destruct (Hall k x Hx) as (p & Hp).
    assert (Hcur : nth_error cur k = Some x) by (rewrite Hafter; auto).
    assert (Hy : pass1Body lanes rTarget byLane lights cur k x = Some (decide x p)).
    { unfold pass1Body. rewrite (perceive_sameTV _ _ _ _ _ _ HT), Hp. reflexivity. }
    exists x, (decide x p). split; [exact Hcur|]. split; [exact Hy|].
    eapply pass1State_step; eauto.
    repeat split; auto.
  - eauto.
Qed.

(** Pass 2 completes when every car integrates. *)
Lemma pass2_completes dt cars1 :
  (forall i c1, nth_error cars1 i = Some c1 ->
     exists c2, integrate lanes rRespawn dt c1 = Some c2) ->
  exists cars2, pass2 lanes rRespawn dt cars1 = Some cars2.
Proof.
  intros Hall.
  set (I := fun (k : nat) (cur : list Car.car) =>
              List.length cur = List.length cars1 /\
              forall j, (k <= j)%nat -> nth_error cur j = nth_error cars1 j).
  destruct (forEach_total _ (fun _ _ car => integrate lanes rRespawn dt car) I cars1)
    as (out & Hrun & _).
  - split; auto.
  - intros k cur Hk [HL Hafter].
    destruct (nth_error cars1 k) as [x|] eqn:Hx;
      [|apply nth_error_None in Hx; lia].
    destruct (Hall k x Hx) as (y & Hy).
    exists x, y. split; [rewrite Hafter; auto|]. split; [exact Hy|].
    split; [now rewrite length_updateAt|].
    intros j Hj. rewrite nth_error_updateAt_other by lia. apply Hafter. lia.
  - eauto.
Qed.

Lemma pass2_length dt cars1 cars2 :
  pass2 lanes rRespawn dt cars1 = Some cars2 ->
  List.length cars2 = List.length cars1.
Proof.
  intros Hrun.
  apply (forEach_partial _ (fun _ _ car => integrate lanes rRespawn dt car)
           (fun _ cur => List.length cur = List.length cars1) cars1 cars2);
    auto.
  intros k cur x y _ HL _ _. now rewrite length_updateAt.
Qed.

End SnapshotPasses.

Section OrderIndependence.
Context {M : JSMath}.
Variable lanes : Lanes.
Variables rTarget rRespawn : nat -> Q.
Variable dt : Q.
Variable lights : Lights.
Import JS JSFacts.
Open Scope Q_scope.

(** A tick in which the hard stop does not fire, run on two orders of one
    set of cars at distinct positions: the second run completes when the
    first does, and position [n] of the second result is position [f n]
    of the first, as in the arrays the runs start from. *)
Lemma tick_permuted (cars cars' : list Car.car) (f : nat -> nat) L out :
  Permutation cars cars' ->
  (forall n, nth_error cars' n = nth_error cars (f n)) ->
  distinctPositions cars ->
  noHardStop lanes rTarget dt lights cars ->
  updatePhysics lanes rTarget rRespawn dt lights cars = Some (L, out) ->
  exists out',
    updatePhysics lanes rTarget rRespawn dt lights cars' = Some (L, out') /\
    List.length out' = List.length cars' /\
    List.length out = List.length cars /\
    forall n, nth_error out' n = nth_error out (f n).
Proof.
  intros Hperm Hf Hdist Hno Hrun. unfold updatePhysics in *.
  destruct (pass1 lanes rTarget (carsByLaneOf cars) (updateTrafficLights dt lights) cars) as [cars1|] eqn:H1;
    simpl in Hrun; [|discriminate].
  destruct (pass2 lanes rRespawn dt cars1) as [cars2|] eqn:H2;
    simpl in Hrun; [|discriminate].
  injection Hrun as <- <-.
  destruct (pass1_snapshot lanes rTarget _ _ _ _ Hno H1) as (L1 & P1).
  pose proof (pass2_length lanes rRespawn dt _ _ H2) as L2.
  (* the second run perceives what the first perceives *)
  assert (Hview : forall n c,
            nth_error cars' n = Some c ->
            perceive lanes rTarget (carsByLaneOf cars') (updateTrafficLights dt lights) cars' n c
            = perceive lanes rTarget (carsByLaneOf cars) (updateTrafficLights dt lights) cars (f n) c).
  { intros n c Hn. symmetry.
    apply (perceive_perm cars cars' Hperm Hdist); [now rewrite <- Hf | exact Hn]. }
  assert (Hno' : forall i c p, nth_error cars' i = Some c ->
            perceive lanes rTarget (carsByLaneOf cars') (updateTrafficLights dt lights) cars' i c = Some p ->
            MIN_GAP <= gap p).
  { intros i c p Hi Hp. rewrite (Hview i c Hi) in Hp.
    apply (Hno (f i) c p); [now rewrite <- Hf | exact Hp]. }
  destruct (pass1_completes lanes rTarget (carsByLaneOf cars') (updateTrafficLights dt lights) cars' Hno')
    as (cars1' & H1').
  { intros i c Hi. rewrite (Hview i c Hi).
    destruct (P1 (f i) c) as (p & Hp & _); [now rewrite <- Hf | eauto]. }
  destruct (pass1_snapshot lanes rTarget _ _ _ _ Hno' H1') as (L1' & P1').
  assert (E1 : forall n, nth_error cars1' n = nth_error cars1 (f n)).
  { intros n. destruct (nth_error cars' n) as [c|] eqn:Hn.
    - destruct (P1' n c Hn) as (p' & Hp' & Hc').
      rewrite (Hview n c Hn) in Hp'.
      destruct (P1 (f n) c) as (p & Hp & Hc); [now rewrite <- Hf|].
      assert (p' = p) by congruence. subst p'. congruence.
    - pose proof Hn as Hn'. rewrite Hf in Hn'.
      apply nth_error_None in Hn. apply nth_error_None in Hn'.
      transitivity (@None Car.car); [|symmetry];
        apply nth_error_None; lia. }
  destruct (pass2_completes lanes rRespawn dt cars1') as (cars2' & H2').
  { intros i c1 Hi. rewrite E1 in Hi.
    destruct (pass2_pointwise lanes rRespawn dt _ _ _ _ Hi H2) as (c2 & Hc2 & _).
    eauto. }
  pose proof (pass2_length lanes rRespawn dt _ _ H2') as L2'.
  exists cars2'. rewrite H1'. cbn [bind]. rewrite H2'. cbn [bind].
  split; [reflexivity|]. split; [lia|]. split; [lia|].
  intros n. destruct (nth_error cars1' n) as [c1|] eqn:Hn.
  - destruct (pass2_pointwise lanes rRespawn dt _ _ _ _ Hn H2') as (c2' & Hi' & Hc2').
    rewrite E1 in Hn.
    destruct (pass2_pointwise lanes rRespawn dt _ _ _ _ Hn H2) as (c2 & Hi & Hc2).
    congruence.
  - pose proof Hn as Hn'. rewrite E1 in Hn'.
    apply nth_error_None in Hn. apply nth_error_None in Hn'.
    transitivity (@None Car.car); [|symmetry];
      apply nth_error_None; lia.
Qed.

(** C3 (as amended): one tick is independent of the order of the car
    array when no two cars are at one position of one lane and no car
    perceives a gap below [MIN_GAP] in that tick: run from two
    permutations of the cars with the same random choices per car, the
    tick completes for both or for neither, and every car ends in the same
    state. *)
Theorem tick_order_independent (cars cars' : list Car.car) L out :
  Permutation cars cars' ->
  distinctPositions cars ->
  noHardStop lanes rTarget dt lights cars ->
  updatePhysics lanes rTarget rRespawn dt lights cars = Some (L, out) ->
  exists out',
    updatePhysics lanes rTarget rRespawn dt lights cars' = Some (L, out') /\
    Permutation out out'.
Proof.
  intros Hperm Hdist Hno Hrun.
  destruct (proj1 (Permutation_nth_error cars cars') Hperm) as (HL & f & Hinj & Hf).
  destruct (tick_permuted cars cars' f L out Hperm Hf Hdist Hno Hrun)
    as (out' & Hrun' & Lo' & Lo & Hout).
  exists out'. split; [exact Hrun'|].
  apply Permutation_nth_error. split; [congruence|].
  exists f. split; [exact Hinj | exact Hout].
Qed.

End OrderIndependence.

(** ** Two orders of one set of cars in the city *)

Section OrderCity.
Open Scope Q_scope.

Lemma pair_distinct : distinctPositions pair.
Proof.
  unfold distinctPositions. simpl.
  repeat constructor; simpl; intuition discriminate.
Qed.

Lemma pair_noHardStop : noHardStop cityLanes carDraw PHYSICS_DT cityLights pair.
Proof.
  intros i c p Hi Hp.
  destruct i as [|[|i]].
  - injection Hi as <-. lazy in Hp. injection Hp as <-. discriminate.
  - injection Hi as <-. lazy in Hp. injection Hp as <-. discriminate.
  - destruct i; discriminate Hi.
Qed.

Lemma cityTick_pair_runs : exists L out, cityTick pair = Some (L, out).
Proof.
  destruct (cityTick pair) as [[L out]|] eqn:E; [eauto|].
  exfalso. lazy in E. discriminate E.
Qed.

Lemma tick_order_independent_witness :
  exists L out out',
    cityTick pair = Some (L, out) /\
    cityTick pairReversed = Some (L, out') /\
    Permutation out out'.
Proof.
  destruct cityTick_pair_runs as (L & out & E).
  destruct (tick_order_independent (M := approxMath) cityLanes carDraw carDraw
              PHYSICS_DT cityLights pair pairReversed L out
              (perm_swap pairFollower pairLeader [])
              pair_distinct pair_noHardStop E) as (out' & E' & Hp).
  exists L, out, out'. auto.
Defined.

(** C3 (as stated) fails: the queue and its reversal are two orders of the
    same three cars, yet after one tick with the same random choices the
    car with id 2 has one speed in the first run and another in the
    second.  Its leader is stopped by the hard stop, and it reads the
    leader's speed after that stop in one order and before it in the
    other. *)
Lemma tick_depends_on_order :
  Permutation queue queueReversed /\
  exists L out L' out' c c',
    cityTick queue = Some (L, out) /\
    cityTick queueReversed = Some (L', out') /\
    nth_error out 2 = Some c /\ nth_error out' 0 = Some c' /\
    Car.id c = 2%nat /\ Car.id c' = 2%nat /\
    ~ Car.v c == Car.v c'.
Proof.
  split; [apply (Permutation_rev queue)|].
  eexists _, _, _, _, _, _.
  split; [lazy; reflexivity|]. split; [lazy; reflexivity|].
  split; [reflexivity|]. split; [reflexivity|].
  split; [reflexivity|]. split; [reflexivity|].
  intros H. vm_compute in H. discriminate H.
Qed.

End OrderCity.
(** ** One tick, car by car *)

Section TickPointwise.
Context {M : JSMath}.
Variable lanes : Lanes.
Variables rTarget rRespawn : nat -> Q.
Variable dt : Q.
Import JS JSFacts.
Open Scope Q_scope.

(** The leader of a car is another car of its lane, level with it or
    ahead of it. *)
Lemma leaderOf_ahead (cars : list Car.car) i c j :
  nth_error cars i = Some c ->
  leaderOf (carsByLaneOf cars) c i = Some j ->
  exists r, nth_error cars j = Some r /\ Car.laneId r = Car.laneId c /\
            Car.t c <= Car.t r /\ j <> i.
Proof.
  intros Hi. destruct (lane_list cars i c Hi) as (p & Hp & Hin & Hnd & Hs).
  unfold leaderOf. rewrite Hp.
  destruct (Z.ltb 0 (indexOf p i)) eqn:Elt; [|discriminate].
  apply Z.ltb_lt in Elt.
  destruct (indexOf_split p i) as (pre & post & Ep & HL & Hni); [lia|].
  assert (Hne : pre <> []) by (intros ->; simpl in HL; lia).
  destruct (list_last_split pre Hne) as (pre' & j' & ->).
  assert (Ej : nthZ p (indexOf p i - 1) = Some j').
  { unfold nthZ. rewrite <- HL, length_app. simpl.
    destruct (Z.ltb _ 0) eqn:E0; [apply Z.ltb_lt in E0; lia|].
    replace (Z.to_nat (Z.of_nat (List.length pre' + 1) - 1)) with (List.length pre') by lia.
    rewrite Ep, <- app_assoc. simpl.
    rewrite nth_error_app2 by lia. now rewrite Nat.sub_diag. }
  rewrite Ej. intros [= <-].
  assert (Hjp : In j' p).
  { rewrite Ep. apply in_or_app. left. apply in_or_app. right. now left. }
  destruct (proj1 (carsByLaneOf_members cars _ p j' Hp) Hjp) as (r & Hr & Hrl).
  exists r. split; [exact Hr|]. split; [exact Hrl|]. split.
  - rewrite Ep, <- app_assoc in Hs. simpl in Hs.
    apply StronglySorted_app_inv in Hs. destruct Hs as (_ & Hs & _).
    apply StronglySorted_inv in Hs. destruct Hs as [_ Hall].
    rewrite Forall_forall in Hall.
    specialize (Hall i (or_introl eq_refl)). unfold aheadOrLevel in Hall.
    now rewrite (tOf_nth _ _ _ Hr), (tOf_nth _ _ _ Hi) in Hall.
  - intros ->. apply Hni. apply in_or_app. right. now left.
Qed.

(** What a car perceives behind a leader. *)
Lemma perceive_leader byLane lights (cars : list Car.car) i c j r :
  leaderOf byLane c i = Some j -> nth_error cars j = Some r ->
  perceive lanes rTarget byLane lights cars i c
  = Some (mkPerception (Car.t r - Car.t c - CAR_LENGTH) (Car.v c - Car.v r)
                       (Car.targetLaneId c)).
Proof.
  intros Hl Hr. unfold perceive. rewrite Hl, Hr. reflexivity.
Qed.

(** What a car perceives at the head of a road whose signal is not green. *)
Lemma perceive_closed_signal byLane lights (cars : list Car.car) i c l :
  leaderOf byLane c i = None ->
  JSMap.get lanes (Car.laneId c) = Some l -> Lane.type l = ROAD ->
  getTrafficLightState lights l <> GREEN ->
  perceive lanes rTarget byLane lights cars i c
  = Some (mkPerception (Lane.len l - Car.t c - 2.0) (Car.v c) (Car.targetLaneId c)).
Proof.
  intros Hl Hg Hty Hs. unfold perceive. rewrite Hl, Hg. cbn [bind]. rewrite Hty.
  destruct (getTrafficLightState lights l); [contradiction | reflexivity | reflexivity].
Qed.

(** Pass 1 leaves at every car what it decides from a perception whose gap
    and target are those of the state at the start of the tick. *)
Lemma pass1_pointwise byLane lights cars cars1 i car :
  nth_error cars i = Some car ->
  pass1 lanes rTarget byLane lights cars = Some cars1 ->
  exists p0 p,
    perceive lanes rTarget byLane lights cars i car = Some p0 /\
    gap p = gap p0 /\ target p = target p0 /\
    nth_error cars1 i = Some (decide car p).
Proof.
  intros Hi Hrun.
  assert (Hlt : (i < List.length cars)%nat).
  { apply nth_error_Some. congruence. }
  set (I := fun (k : nat) (cur : list Car.car) =>
              List.length cur = List.length cars /\
              map Car.t cur = map Car.t cars /\
              ((k <= i)%nat -> nth_error cur i = Some car) /\
              ((i < k)%nat ->
               exists p0 p,
                 perceive lanes rTarget byLane lights cars i car = Some p0 /\
                 gap p = gap p0 /\ target p = target p0 /\
                 nth_error cur i = Some (decide car p))).
  assert (Fin : I (List.length cars) cars1).
  { apply (forEach_partial _ (pass1Body lanes rTarget byLane lights) I cars cars1);
      [| |exact Hrun].
    - repeat split; auto. intros; lia.
    - intros k cur x y Hk (HL & HT & Hbefore & Hafter) Hx Hy.
      unfold pass1Body in Hy.
      destruct (perceive lanes rTarget byLane lights cur k x) as [p'|] eqn:Hp';
        simpl in Hy; [|discriminate].
      injection Hy as <-.
      repeat split.
      + now rewrite length_updateAt.
      + rewrite (map_updateAt _ _ Car.t cur k x); auto. apply decide_t.
      + intros Hle. rewrite nth_error_updateAt_other by lia. apply Hbefore. lia.
      + intros Hlt'. destruct (Nat.eq_dec k i) as [->|Hne].
        * rewrite nth_error_updateAt_same by lia.
          rewrite Hbefore in Hx by lia. injection Hx as <-.
          pose proof (perceive_gap_stable lanes rTarget byLane lights cur cars i car HT) as S.
          rewrite Hp' in S.
          destruct (perceive lanes rTarget byLane lights cars i car) as [p0|];
            simpl in S; [|discriminate].
          injection S as Sg St.
          exists p0, p'. auto.
        * rewrite nth_error_updateAt_other by exact Hne. apply Hafter. lia. }
  destruct Fin as (_ & _ & _ & Hafter). apply Hafter. exact Hlt.
Qed.

(** One tick at one car: pass 2 integrates what pass 1 decided. *)
Lemma tick_pointwise lights cars i c L out :
  nth_error cars i = Some c ->
  updatePhysics lanes rTarget rRespawn dt lights cars = Some (L, out) ->
  exists p0 p c',
    perceive lanes rTarget (carsByLaneOf cars) (updateTrafficLights dt lights)
             cars i c = Some p0 /\
    gap p = gap p0 /\ target p = target p0 /\
    integrate lanes rRespawn dt (decide c p) = Some c' /\
    nth_error out i = Some c'.
Proof.
  intros Hi Hrun. unfold updatePhysics in Hrun.
  destruct (pass1 _ _ _ _ cars) as [cars1|] eqn:H1; simpl in Hrun; [|discriminate].
  destruct (pass2 _ _ dt cars1) as [cars2|] eqn:H2; simpl in Hrun; [|discriminate].
  injection Hrun as _ <-.
  destruct (pass1_pointwise _ _ _ _ _ _ Hi H1) as (p0 & p & Hp0 & Eg & Et & Hc1).
  destruct (pass2_pointwise _ _ _ _ _ _ _ Hc1 H2) as (c2 & Hint & Hc2).
  exists p0, p, c2. auto.
Qed.

(** The record that pass 1 leaves satisfies what pass 2 needs to keep the
    speed within the cap. *)
Lemma decide_speed car p :
  0 <= dt -> 0 <= Car.v car -> Car.v car <= speedCap dt ->
  0 <= Car.v (decide car p) /\ Car.v (decide car p) <= speedCap dt /\
  Car.a (decide car p)
  <= IDM_A * (1 - Math_pow (Car.v (decide car p) / IDM_V0) 4) /\
  (gap p < MIN_GAP -> Car.v (decide car p) = 0 /\ Car.a (decide car p) < 0).
Proof.
  intros Hdt V0 V1. unfold decide.
  destruct (JS.ltb (gap p) MIN_GAP) eqn:E; cbn [Car.v Car.a].
  - pose proof (speedCap_nonneg dt Hdt).
    repeat split; try lra; try reflexivity.
    vm_compute. discriminate.
  - split; [exact V0|]. split; [exact V1|]. split; [apply idmAcc_le|].
    intros H. apply ltb_lt in H. congruence.
Qed.

(** The three ways of pass 2: along the lane, onto the target lane, or
    back to the start of a road. *)
Lemma integrate_cases c1 c' l :
  0 <= dt -> 0 <= Car.v c1 -> Car.v c1 <= speedCap dt ->
  Car.a c1 <= IDM_A * (1 - Math_pow (Car.v c1 / IDM_V0) 4) ->
  JSMap.get lanes (Car.laneId c1) = Some l ->
  integrate lanes rRespawn dt c1 = Some c' ->
  Car.id c' = Car.id c1 /\ Car.active c' = Car.active c1 /\
  0 <= Car.v c' /\ Car.v c' <= speedCap dt /\
  (Car.v c1 = 0 -> Car.a c1 < 0 -> Car.v c' == 0) /\
  ((Car.t c1 + Car.v c' * dt < Lane.len l /\
    Car.laneId c' = Car.laneId c1 /\ Car.t c' = Car.t c1 + Car.v c' * dt /\
    Car.targetLaneId c' = Car.targetLaneId c1) \/
   (Lane.len l <= Car.t c1 + Car.v c' * dt /\
    truthy (Car.targetLaneId c1) = true /\
    Car.laneId c' = strOf (Car.targetLaneId c1) /\
    Car.t c' = Car.t c1 + Car.v c' * dt - Lane.len l /\
    Car.targetLaneId c' = None) \/
   (Lane.len l <= Car.t c1 + Car.v c' * dt /\
    truthy (Car.targetLaneId c1) = false /\
    Car.t c' = 0 /\
    In (Car.laneId c') (filter (fun k => startsWith k "R_") (JSMap.keys lanes)))).
Proof.
  intros Hdt V0 V1 Ha Hl.
  destruct (new_speed_bounds dt Hdt _ _ V0 V1 Ha) as [W0 W1].
  unfold integrate. rewrite Hl. cbn [bind].
  set (a1 := if JS.eqb (Car.v c1) 0 && JS.ltb (Car.a c1) 0 then 0 else Car.a c1) in *.
  set (v1 := Math_max 0 (Car.v c1 + a1 * dt)) in *.
  set (col := if JS.ltb a1 (-0.5) then _ else _).
  assert (Hstop : Car.v c1 = 0 -> Car.a c1 < 0 -> v1 == 0).
  { intros Hv Hneg. unfold v1, a1. rewrite Hv.
    apply ltb_lt in Hneg. rewrite Hneg. simpl.
    destruct (Math_max_spec 0 (0 + 0 * dt)) as [[_ ->]|[_ ->]]; ring. }
  destruct (JS.geb (Car.t c1 + v1 * dt) (Lane.len l)) eqn:Ege.
  - apply geb_ge in Ege.
    destruct (truthy (Car.targetLaneId c1)) eqn:Et.
    + intros [= <-]. cbn.
      repeat (split; [solve [auto]|]). right. left. repeat split; auto.
    + destruct (nthZ _ _) as [k|] eqn:Ek; cbn [bind]; [|discriminate].
      intros [= <-]. cbn.
      repeat (split; [solve [auto]|]). right. right. repeat split; auto.
      eapply nthZ_In; eauto.
  - apply geb_lt in Ege. intros [= <-]. cbn.
    repeat (split; [solve [auto]|]). left. repeat split; auto.
Qed.

(** A car that has room for one tick of travel, or that is hard-stopped,
    stays on its lane. *)
Lemma car_keeps_lane c p c' l :
  0 <= dt -> 0 <= Car.v c -> Car.v c <= speedCap dt ->
  JSMap.get lanes (Car.laneId c) = Some l ->
  Car.t c < Lane.len l ->
  (MIN_GAP <= gap p -> Car.t c + speedCap dt * dt < Lane.len l) ->
  integrate lanes rRespawn dt (decide c p) = Some c' ->
  Car.laneId c' = Car.laneId c /\
  Car.t c <= Car.t c' /\ Car.t c' < Lane.len l /\
  Car.t c' <= Car.t c + speedCap dt * dt /\
  (gap p < MIN_GAP -> Car.t c' == Car.t c) /\
  Car.targetLaneId c' = target p.
Proof.
  intros Hdt V0 V1 Hl T1 Hroom Hint.
  destruct (decide_speed c p Hdt V0 V1) as (D0 & D1 & Da & Dstop).
  assert (Hl' : JSMap.get lanes (Car.laneId (decide c p)) = Some l)
    by (now rewrite decide_laneId).
  destruct (integrate_cases _ _ _ Hdt D0 D1 Da Hl' Hint)
    as (_ & _ & W0 & W1 & Wstop & Hcases).
  rewrite decide_t, decide_laneId, decide_target in Hcases.
  assert (Hstep0 : 0 <= Car.v c' * dt) by (apply Qmult_le_0_compat; lra).
  assert (Hstep1 : Car.v c' * dt <= speedCap dt * dt) by (apply Qmult_le_compat_r; lra).
  assert (Hstay : Car.t c + Car.v c' * dt < Lane.len l).
  { destruct (Qlt_le_dec (gap p) MIN_GAP) as [Hlt|Hge].
    - destruct (Dstop Hlt) as [Ev Ea].
      specialize (Wstop Ev Ea). rewrite Wstop. lra.
    - specialize (Hroom Hge). lra. }
  destruct Hcases as [(H1 & H2 & H3 & H4)|[(H1 & _)|(H1 & _)]]; try lra.
  rewrite H3. repeat split; auto; try lra.
  intros Hlt. destruct (Dstop Hlt) as [Ev Ea].
  specialize (Wstop Ev Ea). rewrite Wstop. ring.
Qed.

End TickPointwise.
(** ** Rules of the road that one tick keeps *)

Section TrafficRules.
Context {M : JSMath}.
Variable lanes : Lanes.
Variables rTarget rRespawn : nat -> Q.
Variable dt : Q.
Import JS JSFacts.
Open Scope Q_scope.

Lemma CarOK_nth (cars : list Car.car) i c :
  Forall (CarOK lanes dt) cars -> nth_error cars i = Some c -> CarOK lanes dt c.
Proof.
  intros Hall Hi. rewrite Forall_forall in Hall. apply Hall.
  eapply nth_error_In; eauto.
Qed.

(** A car behind a leader stays on its lane and does not pass the place
    where the leader was. *)
Lemma follower_step lights (cars : list Car.car) i c j L out :
  0 <= dt -> speedCap dt * dt <= CAR_LENGTH + MIN_GAP ->
  Forall (CarOK lanes dt) cars ->
  nth_error cars i = Some c ->
  leaderOf (carsByLaneOf cars) c i = Some j ->
  updatePhysics lanes rTarget rRespawn dt lights cars = Some (L, out) ->
  exists r c',
    nth_error cars j = Some r /\ Car.laneId r = Car.laneId c /\
    nth_error out i = Some c' /\
    Car.laneId c' = Car.laneId c /\
    Car.t c <= Car.t c' /\ Car.t c' <= Car.t r /\
    Car.targetLaneId c' = Car.targetLaneId c.
Proof.
  intros Hdt Hcap Hall Hi Hlead Hrun.
  destruct (leaderOf_ahead cars i c j Hi Hlead) as (r & Hr & Hrl & Hrt & Hne).
  destruct (CarOK_nth _ _ _ Hall Hi) as (l & Hl & T0 & T1 & V0 & V1 & _).
  destruct (CarOK_nth _ _ _ Hall Hr) as (lr & Hlr & _ & R1 & _).
  rewrite Hrl, Hl in Hlr. injection Hlr as <-.
  destruct (tick_pointwise lanes rTarget rRespawn dt lights cars i c L out Hi Hrun)
    as (p0 & p & c' & Hp0 & Eg & Et & Hint & Hc').
  rewrite (perceive_leader lanes rTarget _ _ cars i c j r Hlead Hr) in Hp0.
  injection Hp0 as <-. cbn [gap target] in Eg, Et.
  assert (Hroom : MIN_GAP <= gap p ->
                  Car.t c + speedCap dt * dt < Lane.len l /\
                  Car.t c + speedCap dt * dt <= Car.t r).
  { rewrite Eg. unfold MIN_GAP, CAR_LENGTH in *. intros H. split; lra. }
  destruct (car_keeps_lane lanes rRespawn dt c p c' l Hdt V0 V1 Hl T1
              (fun H => proj1 (Hroom H)) Hint)
    as (K1 & K2 & K3 & K4 & K5 & K6).
  exists r, c'. repeat split; auto; [|congruence].
  destruct (Qlt_le_dec (gap p) MIN_GAP) as [Hlt|Hge].
  - rewrite (K5 Hlt). exact Hrt.
  - destruct (Hroom Hge). lra.
Qed.

(** X13: no car leaves a road whose signal is red or yellow: when the cars
    are on their lanes and one tick of travel is shorter than the stopping
    margin [MIN_GAP + 2], the tick completes and a car on such a road is
    still on it, at or past its old position and before the end of the
    road. *)
Theorem closed_signal_holds_cars lights (cars : list Car.car) i c l :
  0 <= dt -> speedCap dt * dt < MIN_GAP + 2 ->
  WFNet lanes dt -> (forall k, 0 <= rRespawn k /\ rRespawn k < 1) ->
  Forall (CarOK lanes dt) cars ->
  nth_error cars i = Some c ->
  JSMap.get lanes (Car.laneId c) = Some l -> Lane.type l = ROAD ->
  getTrafficLightState (updateTrafficLights dt lights) l <> GREEN ->
  exists L out c',
    updatePhysics lanes rTarget rRespawn dt lights cars = Some (L, out) /\
    nth_error out i = Some c' /\
    Car.laneId c' = Car.laneId c /\
    Car.t c <= Car.t c' /\ Car.t c' < Lane.len l.
Proof.
  intros Hdt Hcap HWF HrR Hall Hi Hl Hty Hsig.
  destruct (tick_keeps_cars_on_lanes lanes rTarget rRespawn dt Hdt HWF HrR
              lights cars Hall) as (L & out & Hrun & _ & _).
  exists L, out.
  destruct (CarOK_nth _ _ _ Hall Hi) as (l0 & Hl0 & T0 & T1 & V0 & V1 & _).
  rewrite Hl in Hl0. injection Hl0 as <-.
  destruct (leaderOf (carsByLaneOf cars) c i) as [j|] eqn:Hlead.
  - destruct (follower_step lights cars i c j L out Hdt) as
      (r & c' & Hr & Hrl & Hc' & K1 & K2 & K3 & _); auto.
    { unfold MIN_GAP, CAR_LENGTH in *. lra. }
    destruct (CarOK_nth _ _ _ Hall Hr) as (lr & Hlr & _ & R1 & _).
    rewrite Hrl, Hl in Hlr. injection Hlr as <-.
    exists c'. repeat split; auto. lra.
  - destruct (tick_pointwise lanes rTarget rRespawn dt lights cars i c L out Hi Hrun)
      as (p0 & p & c' & Hp0 & Eg & Et & Hint & Hc').
    rewrite (perceive_closed_signal lanes rTarget _ _ cars i c l Hlead Hl Hty Hsig)
      in Hp0.
    injection Hp0 as <-. cbn [gap target] in Eg, Et.
    assert (Hroom : MIN_GAP <= gap p -> Car.t c + speedCap dt * dt < Lane.len l).
    { rewrite Eg. unfold MIN_GAP in *. intros H. lra. }
    destruct (car_keeps_lane lanes rRespawn dt c p c' l Hdt V0 V1 Hl T1 Hroom Hint)
      as (K1 & K2 & K3 & _).
    exists c'. auto.
Qed.

(** X14: a car that follows a leader on its lane stays on the lane and does
    not pass the position that the leader had at the start of the tick. *)
Theorem follower_never_passes_leader lights (cars : list Car.car) i c j r :
  0 <= dt -> speedCap dt * dt <= CAR_LENGTH + MIN_GAP ->
  WFNet lanes dt -> (forall k, 0 <= rRespawn k /\ rRespawn k < 1) ->
  Forall (CarOK lanes dt) cars ->
  nth_error cars i = Some c ->
  leaderOf (carsByLaneOf cars) c i = Some j ->
  nth_error cars j = Some r ->
  Car.laneId r = Car.laneId c /\ Car.t c <= Car.t r /\
  exists L out c',
    updatePhysics lanes rTarget rRespawn dt lights cars = Some (L, out) /\
    nth_error out i = Some c' /\
    Car.laneId c' = Car.laneId c /\
    Car.t c <= Car.t c' /\ Car.t c' <= Car.t r.
Proof.
  intros Hdt Hcap HWF HrR Hall Hi Hlead Hr.
  destruct (tick_keeps_cars_on_lanes lanes rTarget rRespawn dt Hdt HWF HrR
              lights cars Hall) as (L & out & Hrun & _ & _).
  destruct (follower_step lights cars i c j L out Hdt Hcap Hall Hi Hlead Hrun)
    as (r' & c' & Hr' & Hrl & Hc' & K1 & K2 & K3 & _).
  assert (r' = r) by congruence. subst r'.
  split; [exact Hrl|]. split; [lra|].
  exists L, out, c'. auto.
Qed.

(** X17: a car whose lane is not in the map makes the tick throw: pass 2
    reads [lane.len] of [undefined]; no car is skipped. *)
Theorem tick_throws_on_unknown_lane lights (cars : list Car.car) c :
  In c cars -> JSMap.get lanes (Car.laneId c) = None ->
  updatePhysics lanes rTarget rRespawn dt lights cars = None.
Proof.
  intros Hin Hnone.
  destruct (updatePhysics lanes rTarget rRespawn dt lights cars) as [[L out]|] eqn:Hrun;
    [|reflexivity].
  exfalso. destruct (In_nth_error _ _ Hin) as (i & Hi).
  destruct (tick_pointwise lanes rTarget rRespawn dt lights cars i c L out Hi Hrun)
    as (p0 & p & c' & _ & _ & _ & Hint & _).
  unfold integrate in Hint. rewrite decide_laneId, Hnone in Hint.
  discriminate Hint.
Qed.

End TrafficRules.

Section Conservation.
Context {M : JSMath}.
Variable lanes : Lanes.
Import JS JSFacts.
Open Scope Q_scope.

Lemma forEach_length {A : Type} (body : list A -> nat -> A -> option A)
      (arr out : list A) :
  forEach body arr = Some out -> List.length out = List.length arr.
Proof.
  intros Hrun.
  apply (forEach_partial _ body (fun _ cur => List.length cur = List.length arr)
           arr out); [reflexivity | | exact Hrun].
  intros k cur x y _ HL _ _. now rewrite length_updateAt.
Qed.

Lemma integrate_identity rRespawn dt c1 c' :
  integrate lanes rRespawn dt c1 = Some c' ->
  Car.id c' = Car.id c1 /\ Car.active c' = Car.active c1.
Proof.
  unfold integrate.
  destruct (JSMap.get lanes (Car.laneId c1)) as [l|]; cbn [bind]; [|discriminate].
  destruct (JS.geb _ _); [destruct (truthy _)|].
  - intros [= <-]. auto.
  - destruct (nthZ _ _); cbn [bind]; [|discriminate]. intros [= <-]. auto.
  - intros [= <-]. auto.
Qed.

Lemma map_ext_nth {A B : Type} (f : A -> B) (l1 l2 : list A) :
  List.length l1 = List.length l2 ->
  (forall i a b, nth_error l1 i = Some a -> nth_error l2 i = Some b -> f a = f b) ->
  map f l1 = map f l2.
Proof.
  revert l2. induction l1 as [|a l1 IH]; intros [|b l2] HL H; simpl in *;
    try discriminate; [reflexivity|].
  f_equal.
  - apply (H 0%nat); reflexivity.
  - apply IH; [lia|]. intros i x y Hx Hy. apply (H (S i)); assumption.
Qed.

Lemma tick_identity rTarget rRespawn dt lights (cars : list Car.car) L out :
  updatePhysics lanes rTarget rRespawn dt lights cars = Some (L, out) ->
  List.length out = List.length cars /\
  map Car.id out = map Car.id cars /\
  map Car.active out = map Car.active cars.
Proof.
  intros Hrun.
  assert (HL : List.length out = List.length cars).
  { unfold updatePhysics in Hrun.
    destruct (pass1 _ _ _ _ cars) as [cars1|] eqn:H1; simpl in Hrun; [|discriminate].
    destruct (pass2 _ _ dt cars1) as [cars2|] eqn:H2; simpl in Hrun; [|discriminate].
    injection Hrun as _ <-.
    rewrite (forEach_length _ _ _ H2). exact (forEach_length _ _ _ H1). }
  split; [exact HL|].
  assert (Hpt : forall i c' c, nth_error out i = Some c' -> nth_error cars i = Some c ->
                  Car.id c' = Car.id c /\ Car.active c' = Car.active c).
  { intros i c' c Hc' Hi.
    destruct (tick_pointwise lanes rTarget rRespawn dt lights cars i c L out Hi Hrun)
      as (p0 & p & c2 & _ & _ & _ & Hint & Hc2).
    assert (c2 = c') by congruence. subst c2.
    destruct (integrate_identity _ _ _ _ Hint) as [E1 E2].
    rewrite E1, E2. unfold decide. destruct (JS.ltb _ _); auto. }
  split; apply map_ext_nth; auto; intros i a b Ha Hb; now destruct (Hpt i a b Ha Hb).
Qed.

(** X18: the ticks of the simulation neither create nor remove a car, and
    every car keeps its place in the array, its id and its [active]
    flag. *)
Theorem ticks_conserve_cars rTarget rRespawn dt (k n : nat) lights
        (cars : list Car.car) L out :
  physicsSteps lanes rTarget rRespawn dt k n lights cars = Some (L, out) ->
  List.length out = List.length cars /\
  map Car.id out = map Car.id cars /\
  map Car.active out = map Car.active cars.
Proof.
  revert k lights cars. induction n as [|n IH]; intros k lights cars; cbn [physicsSteps].
  - intros [= <- <-]. auto.
  - destruct (updatePhysics lanes (rTarget k) (rRespawn k) dt lights cars)
      as [[L1 C1]|] eqn:E1; cbn [bind fst snd]; [|discriminate].
    intros Hrest.
    destruct (tick_identity _ _ _ _ _ _ _ E1) as (A1 & A2 & A3).
    destruct (IH _ _ _ Hrest) as (B1 & B2 & B3).
    repeat split; congruence.
Qed.

End Conservation.
Section Routing.
Context {M : JSMath}.
Variable lanes : Lanes.
Variables rTarget rRespawn : nat -> Q.
Variable dt : Q.
Import JS JSFacts.
Open Scope Q_scope.

Hypothesis Hdt : 0 <= dt.
Hypothesis HWF : WFNet lanes dt.
Hypothesis Hends : noDeadEnd lanes.
Hypothesis HrT : forall k, 0 <= rTarget k /\ rTarget k < 1.

Lemma successor_truthy l s :
  In l (JSMap.values lanes) -> In s (Lane.nextLanes l) -> truthy (Some s) = true.
Proof.
  intros Hl Hs. destruct HWF as [HW _].
  destruct (HW l Hl) as (_ & _ & Hn). destruct (Hn s Hs) as [Hne _].
  simpl. destruct (String.eqb s EmptyString) eqn:E; [|reflexivity].
  apply String.eqb_eq in E. contradiction.
Qed.

(** The target that a car is committed to after pass 1 is a successor of
    its lane; at the head of a junction or of a road with a green signal
    the car is committed. *)
Lemma perceive_routes byLane lights (cars : list Car.car) i c l p0 :
  JSMap.get lanes (Car.laneId c) = Some l -> CarRouted lanes c ->
  perceive lanes rTarget byLane lights cars i c = Some p0 ->
  (truthy (target p0) = true -> In (strOf (target p0)) (Lane.nextLanes l)) /\
  (leaderOf byLane c i = None ->
   Lane.type l = JUNCTION \/ getTrafficLightState lights l = GREEN ->
   truthy (target p0) = true).
Proof.
  intros Hl Hrouted. specialize (Hrouted l Hl).
  pose proof (get_In_values _ _ _ Hl) as Hlin.
  pose proof (Hends l Hlin) as Hne.
  assert (Hlen : Nat.ltb 0 (List.length (Lane.nextLanes l)) = true).
  { apply Nat.ltb_lt. destruct (Lane.nextLanes l); [contradiction | simpl; lia]. }
  assert (Hpick : forall o : option string,
            (exists s, o = Some s /\ In s (Lane.nextLanes l)) ->
            let tgt := if negb (truthy (Car.targetLaneId c)) &&
                          Nat.ltb 0 (List.length (Lane.nextLanes l))
                       then o else Car.targetLaneId c in
            truthy tgt = true /\ In (strOf tgt) (Lane.nextLanes l)).
  { intros o (s & -> & Hs). rewrite Hlen, andb_true_r.
    destruct (truthy (Car.targetLaneId c)) eqn:Et; cbn [negb].
    - auto.
    - split; [eapply successor_truthy; eauto | exact Hs]. }
  unfold perceive.
  destruct (leaderOf byLane c i) as [j|].
  - destruct (nth_error cars j); cbn [bind]; [|discriminate].
    intros [= <-]. cbn [target]. split; [exact Hrouted | discriminate].
  - rewrite Hl. cbn [bind].
    destruct (Lane.type l) eqn:Ety.
    + destruct (getTrafficLightState lights l) eqn:Es.
      * destruct (HrT (Car.id c)) as [R0 R1].
        destruct (random_pick (Lane.nextLanes l) _ R0 R1 Hne) as (s & Es' & Hs).
        destruct (Hpick _ (ex_intro _ s (conj Es' Hs))) as [P1 P2].
        set (tgt := if negb _ && _ then _ else _) in *.
        destruct (lastCarOn byLane cars tgt); [destruct (JS.ltb _ 50)|];
          intros [= <-]; cbn [target]; auto.
      * intros [= <-]. cbn [target]. split; [exact Hrouted|].
        intros _ [H|H]; discriminate H.
      * intros [= <-]. cbn [target]. split; [exact Hrouted|].
        intros _ [H|H]; discriminate H.
    + destruct (Lane.nextLanes l) as [|s rest] eqn:En; [contradiction|].
      assert (Hs : In s (Lane.nextLanes l)) by (rewrite En; now left).
      rewrite <- En in *.
      assert (E0 : nth_error (Lane.nextLanes l) 0 = Some s) by (now rewrite En).
      destruct (Hpick _ (ex_intro _ s (conj E0 Hs))) as [P1 P2].
      set (tgt := if negb _ && _ then _ else _) in *.
      destruct (lastCarOn byLane cars tgt); intros [= <-]; cbn [target]; auto.
Qed.

Hypothesis Hcap : speedCap dt * dt < MIN_GAP + 2.

(** One tick at one routed car: it stays on its lane or moves onto a
    successor of the lane, and it is routed afterwards. *)
Lemma car_route_step lights (cars : list Car.car) i c l L out :
  Forall (CarOK lanes dt) cars ->
  nth_error cars i = Some c -> CarRouted lanes c ->
  JSMap.get lanes (Car.laneId c) = Some l ->
  updatePhysics lanes rTarget rRespawn dt lights cars = Some (L, out) ->
  exists c',
    nth_error out i = Some c' /\ CarRouted lanes c' /\
    ((Car.laneId c' = Car.laneId c /\ Car.t c <= Car.t c') \/
     (In (Car.laneId c') (Lane.nextLanes l) /\ Car.targetLaneId c' = None /\
      0 <= Car.t c' /\ Car.t c' < speedCap dt * dt)).
Proof.
  intros Hall Hi Hrouted Hl Hrun.
  destruct (CarOK_nth _ _ _ _ _ Hall Hi) as (l0 & Hl0 & T0 & T1 & V0 & V1 & _).
  rewrite Hl in Hl0. injection Hl0 as <-.
  assert (Hsame : forall c', Car.laneId c' = Car.laneId c ->
                    Car.targetLaneId c' = Car.targetLaneId c -> CarRouted lanes c').
  { intros c' E1 E2 l' Hl'. rewrite E1 in Hl'. rewrite E2. now apply Hrouted. }
  destruct (leaderOf (carsByLaneOf cars) c i) as [j|] eqn:Hlead.
  { destruct (follower_step lanes rTarget rRespawn dt lights cars i c j L out Hdt)
      as (r & c' & _ & _ & Hc' & K1 & K2 & _ & K4); auto.
    { unfold MIN_GAP, CAR_LENGTH in *. lra. }
    exists c'. split; [exact Hc'|]. split; [now apply Hsame | left; auto]. }
  destruct (tick_pointwise lanes rTarget rRespawn dt lights cars i c L out Hi Hrun)
    as (p0 & p & c' & Hp0 & Eg & Et & Hint & Hc').
  exists c'. split; [exact Hc'|].
  assert (Hclosed : Lane.type l = ROAD ->
                    getTrafficLightState (updateTrafficLights dt lights) l <> GREEN ->
                    CarRouted lanes c' /\ Car.laneId c' = Car.laneId c /\
                    Car.t c <= Car.t c').
  { intros Hty Hsig.
    rewrite (perceive_closed_signal lanes rTarget _ _ cars i c l Hlead Hl Hty Hsig)
      in Hp0.
    injection Hp0 as <-. cbn [gap target] in Eg, Et.
    assert (Hroom : MIN_GAP <= gap p -> Car.t c + speedCap dt * dt < Lane.len l).
    { rewrite Eg. unfold MIN_GAP in *. intros H. lra. }
    destruct (car_keeps_lane lanes rRespawn dt c p c' l Hdt V0 V1 Hl T1 Hroom Hint)
      as (K1 & K2 & _ & _ & _ & K6).
    split; [apply Hsame; congruence | auto]. }
  assert (Hopen : Lane.type l = JUNCTION \/
                  getTrafficLightState (updateTrafficLights dt lights) l = GREEN ->
                  CarRouted lanes c' /\
                  ((Car.laneId c' = Car.laneId c /\ Car.t c <= Car.t c') \/
                   (In (Car.laneId c') (Lane.nextLanes l) /\
                    Car.targetLaneId c' = None /\
                    0 <= Car.t c' /\ Car.t c' < speedCap dt * dt))).
  { intros Hcase.
    destruct (perceive_routes _ _ cars i c l p0 Hl Hrouted Hp0) as [R1 R2].
    specialize (R2 Hlead Hcase). specialize (R1 R2).
    destruct (decide_speed dt c p Hdt V0 V1) as (D0 & D1 & Da & _).
    assert (Hl' : JSMap.get lanes (Car.laneId (decide c p)) = Some l)
      by (now rewrite decide_laneId).
    destruct (integrate_cases lanes rRespawn dt _ _ _ Hdt D0 D1 Da Hl' Hint)
      as (_ & _ & W0 & W1 & _ & Hcases).
    rewrite decide_t, decide_laneId, decide_target, Et in Hcases.
    assert (Hstep0 : 0 <= Car.v c' * dt) by (apply Qmult_le_0_compat; lra).
    assert (Hstep1 : Car.v c' * dt <= speedCap dt * dt)
      by (apply Qmult_le_compat_r; lra).
    destruct Hcases as [(H1 & H2 & H3 & H4)|[(H1 & H2 & H3 & H4 & H5)|(_ & H2 & _)]].
    - split.
      + intros l' Hl'' Htr. rewrite H2, Hl in Hl''. injection Hl'' as <-.
        rewrite H4. exact R1.
      + left. split; [exact H2 | rewrite H3; lra].
    - split.
      + intros l' _ Htr. rewrite H5 in Htr. discriminate Htr.
      + right. rewrite H3, H4. repeat split; auto; lra.
    - congruence. }
  destruct (Lane.type l) eqn:Ety.
  - destruct (getTrafficLightState (updateTrafficLights dt lights) l) eqn:Es.
    + apply Hopen. now right.
    + destruct Hclosed as (A & B & C); [reflexivity | discriminate |]. auto.
    + destruct Hclosed as (A & B & C); [reflexivity | discriminate |]. auto.
  - apply Hopen. now left.
Qed.

Hypothesis HrR : forall k, 0 <= rRespawn k /\ rRespawn k < 1.

(** X15: on a network without dead ends, a tick moves every car along its
    lane or onto a successor of its lane; no car is ever put back at the
    start of a random road. *)
Theorem cars_follow_the_network lights (cars : list Car.car) :
  Forall (CarOK lanes dt) cars -> Forall (CarRouted lanes) cars ->
  exists L out,
    updatePhysics lanes rTarget rRespawn dt lights cars = Some (L, out) /\
    Forall (CarOK lanes dt) out /\ Forall (CarRouted lanes) out /\
    forall i c l, nth_error cars i = Some c ->
      JSMap.get lanes (Car.laneId c) = Some l ->
      exists c', nth_error out i = Some c' /\
        ((Car.laneId c' = Car.laneId c /\ Car.t c <= Car.t c') \/
         (In (Car.laneId c') (Lane.nextLanes l) /\ Car.targetLaneId c' = None /\
          0 <= Car.t c' /\ Car.t c' < speedCap dt * dt)).
Proof.
  intros Hall Hrt.
  destruct (tick_keeps_cars_on_lanes lanes rTarget rRespawn dt Hdt HWF HrR
              lights cars Hall) as (L & out & Hrun & HL & Hok).
  exists L, out. split; [exact Hrun|]. split; [exact Hok|].
  assert (Hr : forall i c, nth_error cars i = Some c -> CarRouted lanes c).
  { intros i c Hi. rewrite Forall_forall in Hrt. apply Hrt.
    eapply nth_error_In; eauto. }
  split.
  - apply Forall_forall. intros c' Hin.
    destruct (In_nth_error _ _ Hin) as (i & Hc').
    destruct (nth_error cars i) as [c|] eqn:Hi.
    + destruct (CarOK_nth _ _ _ _ _ Hall Hi) as (l & Hl & _).
      destruct (car_route_step lights cars i c l L out Hall Hi (Hr i c Hi) Hl Hrun)
        as (c2 & Hc2 & R & _).
      assert (c2 = c') by congruence. now subst c2.
    + apply nth_error_None in Hi.
      assert (i < List.length out)%nat by (apply nth_error_Some; congruence). lia.
  - intros i c l Hi Hl.
    destruct (car_route_step lights cars i c l L out Hall Hi (Hr i c Hi) Hl Hrun)
      as (c' & Hc' & _ & D).
    exists c'. auto.
Qed.

End Routing.
Section Restart.
Context {M : JSMath}.
Variable lanes : Lanes.
Variables rTarget rRespawn : nat -> Q.
Variable dt : Q.
Import JS JSFacts.
Open Scope Q_scope.

(** The speed that pass 2 stores. *)
Lemma integrate_speed c1 c' :
  integrate lanes rRespawn dt c1 = Some c' ->
  Car.v c'
  = Math_max 0 (Car.v c1 +
                (if JS.eqb (Car.v c1) 0 && JS.ltb (Car.a c1) 0 then 0 else Car.a c1)
                * dt).
Proof.
  unfold integrate.
  destruct (JSMap.get lanes (Car.laneId c1)) as [l|]; cbn [bind]; [|discriminate].
  destruct (JS.geb _ _); [destruct (truthy _)|].
  - intros [= <-]. reflexivity.
  - destruct (nthZ _ _); cbn [bind]; [|discriminate]. intros [= <-]. reflexivity.
  - intros [= <-]. reflexivity.
Qed.

(** The acceleration of the car-following model for a car at rest: its
    sign is that of [gap - IDM_S0]. *)
Lemma idmAcc_at_rest (v g d : Q) :
  v == 0 -> MIN_GAP <= g ->
  (0 < idmAcc v g d <-> IDM_S0 < g) /\ (idmAcc v g d < 0 <-> g < IDM_S0).
Proof.
  intros Hv Hg. unfold MIN_GAP in Hg.
  unfold idmAcc, s_star.
  set (y := v * IDM_T + v * d / (2 * Math_sqrt (IDM_A * IDM_B))).
  assert (Hy : y == 0).
  { unfold y, Qdiv. rewrite Hv. ring. }
  assert (Hm : Math_max 0 y == 0).
  { destruct (Math_max_spec 0 y) as [[_ ->]|[_ ->]]; [exact Hy | reflexivity]. }
  assert (Hmax : Math_max 0.1 g = g).
  { destruct (Math_max_spec 0.1 g) as [[_ E]|[H _]]; [exact E | lra]. }
  rewrite Hmax.
  set (s := IDM_S0 + Math_max 0 y).
  assert (Hs : s == 3) by (unfold s, IDM_S0; rewrite Hm; reflexivity).
  set (q := s / g).
  assert (Hq : q * g == 3) by (unfold q; rewrite <- Hs; field; lra).
  assert (Hx : Math_pow (v / IDM_V0) 4 == 0).
  { simpl. unfold Qdiv. rewrite Hv. ring. }
  assert (Hq2 : Math_pow q 2 == q * q) by (simpl; ring).
  rewrite Hx, Hq2. unfold IDM_A, IDM_S0.
  assert (Hq0 : 0 < q) by nra.
  split; split; intros H; nra.
Qed.

(** X16: a car at rest moves off in a tick exactly when the gap it
    perceives exceeds the jam distance [IDM_S0]. *)
Theorem car_at_rest_moves_off lights (cars : list Car.car) i c p0 L out c' :
  0 < dt ->
  nth_error cars i = Some c -> Car.v c == 0 ->
  perceive lanes rTarget (carsByLaneOf cars) (updateTrafficLights dt lights)
           cars i c = Some p0 ->
  updatePhysics lanes rTarget rRespawn dt lights cars = Some (L, out) ->
  nth_error out i = Some c' ->
  (0 < Car.v c' <-> IDM_S0 < gap p0) /\ (Car.v c' == 0 <-> gap p0 <= IDM_S0).
Proof.
  intros Hdt Hi Hv Hp0 Hrun Hc'.
  destruct (tick_pointwise lanes rTarget rRespawn dt lights cars i c L out Hi Hrun)
    as (p0' & p & c2 & Hp0' & Eg & _ & Hint & Hc2).
  assert (p0' = p0) by congruence. subst p0'.
  assert (c2 = c') by congruence. subst c2.
  rewrite <- Eg. clear Eg Hp0 Hp0'.
  rewrite (integrate_speed _ _ Hint).
  assert (Hzero : forall a, Math_max 0 (0 + a * dt) == 0 -> True) by auto.
  unfold decide.
  destruct (JS.ltb (gap p) MIN_GAP) eqn:Eclamp; cbn [Car.v Car.a].
  - apply ltb_lt in Eclamp. unfold MIN_GAP in Eclamp.
    assert (E : Math_max 0 (0 + (if JS.eqb 0 0 && JS.ltb (- IDM_B * 4) 0
                                 then 0 else - IDM_B * 4) * dt) == 0).
    { change (JS.eqb 0 0 && JS.ltb (- IDM_B * 4) 0) with true. cbv iota.
      destruct (Math_max_spec 0 (0 + 0 * dt)) as [[_ ->]|[_ ->]]; ring. }
    rewrite E. unfold IDM_S0. split; split; intros H; lra.
  - apply ltb_ge in Eclamp.
    destruct (idmAcc_at_rest (Car.v c) (gap p) (dv p) Hv Eclamp) as [Hpos Hneg].
    set (acc := idmAcc (Car.v c) (gap p) (dv p)) in *.
    assert (Ev : JS.eqb (Car.v c) 0 = true) by (now apply eqb_eq).
    rewrite Ev. cbn [andb].
    destruct (JS.ltb acc 0) eqn:Ea.
    + apply ltb_lt in Ea.
      assert (E : Math_max 0 (Car.v c + 0 * dt) == 0).
      { destruct (Math_max_spec 0 (Car.v c + 0 * dt)) as [[_ ->]|[_ ->]];
          [rewrite Hv; ring | reflexivity]. }
      rewrite E. apply Hneg in Ea. split; split; intros H; lra.
    + apply ltb_ge in Ea.
      assert (Hstep : 0 <= acc * dt) by (apply Qmult_le_0_compat; lra).
      assert (E : Math_max 0 (Car.v c + acc * dt) == acc * dt).
      { destruct (Math_max_spec 0 (Car.v c + acc * dt)) as [[_ ->]|[H ->]];
          [rewrite Hv; ring | rewrite Hv in H; lra]. }
      rewrite E. split; split; intros H.
      * apply Hpos. nra.
      * apply Hpos in H. nra.
      * destruct (Qlt_le_dec IDM_S0 (gap p)) as [G|G]; [|exact G].
        apply Hpos in G. nra.
      * destruct (Qlt_le_dec 0 acc) as [G|G]; [apply Hpos in G; lra | nra].
Qed.

End Restart.

Section Run.
Context {M : JSMath}.
Variable lanes : Lanes.
Variables rTarget rRespawn : nat -> nat -> Q.
Variable dt : Q.
Import JS JSFacts.
Open Scope Q_scope.

Hypothesis Hdt : 0 <= dt.
Hypothesis HWF : WFNet lanes dt.
Hypothesis HrR : forall k i, 0 <= rRespawn k i /\ rRespawn k i < 1.

(** Any number of ticks completes and keeps the invariant of the cars. *)
Lemma physicsSteps_keep_CarOK (n k : nat) lights (cars : list Car.car) :
  Forall (CarOK lanes dt) cars ->
  exists L out,
    physicsSteps lanes rTarget rRespawn dt k n lights cars = Some (L, out) /\
    map Car.id out = map Car.id cars /\
    Forall (CarOK lanes dt) out.
Proof.
  revert k lights cars.
  induction n as [|n IH]; intros k lights cars Hall; cbn [physicsSteps].
  - exists lights, cars. auto.
  - destruct (tick_keeps_cars_on_lanes lanes (rTarget k) (rRespawn k) dt
                Hdt HWF (HrR k) lights cars Hall) as (L1 & C1 & E1 & _ & Ok1).
    destruct (tick_identity lanes _ _ _ _ _ _ _ E1) as (_ & Id1 & _).
    rewrite E1. cbn [bind fst snd].
    destruct (IH (S k) L1 C1 Ok1) as (L2 & C2 & E2 & Id2 & Ok2).
    exists L2, C2. split; [exact E2|]. split; [congruence | exact Ok2].
Qed.

(** X19: through any number of ticks the speed of every car stays between 0
    and the desired speed plus one tick of full acceleration, and the lane
    that a car is committed to exists. *)
Theorem speed_stays_within_cap (n k : nat) lights (cars : list Car.car) :
  Forall (CarOK lanes dt) cars ->
  exists L out,
    physicsSteps lanes rTarget rRespawn dt k n lights cars = Some (L, out) /\
    forall c, In c out ->
      0 <= Car.v c /\ Car.v c <= IDM_V0 + IDM_A * dt /\
      (forall s, Car.targetLaneId c = Some s -> s <> EmptyString ->
                 exists l, JSMap.get lanes s = Some l).
Proof.
  intros Hall.
  destruct (physicsSteps_keep_CarOK n k lights cars Hall) as (L & out & E & _ & Ok).
  exists L, out. split; [exact E|].
  intros c Hin. rewrite Forall_forall in Ok.
  destruct (Ok c Hin) as (l & _ & _ & _ & V0 & V1 & Ht).
  split; [exact V0|]. split; [exact V1|].
  intros s Es Hne. unfold targetOK in Ht. rewrite Es in Ht. apply Ht.
  simpl. destruct (String.eqb s EmptyString) eqn:E0; [|reflexivity].
  apply String.eqb_eq in E0. contradiction.
Qed.

End Run.
(** ** The signal controller through the ticks *)

Section LightFacts.
Import JS JSFacts.
Open Scope Q_scope.

Lemma updateTrafficLights_get dt (lights : Lights) node :
  JSMap.get (updateTrafficLights dt lights) node
  = option_map (updateLight dt) (JSMap.get lights node).
Proof. unfold updateTrafficLights. apply get_map_values. Qed.

Lemma updateTrafficLights_keys dt (lights : Lights) :
  JSMap.keys (updateTrafficLights dt lights) = JSMap.keys lights.
Proof.
  unfold updateTrafficLights, JSMap.keys. rewrite map_map. reflexivity.
Qed.

Lemma updateLight_fields dt l :
  TrafficLight.nodeId (updateLight dt l) = TrafficLight.nodeId l /\
  TrafficLight.phase (updateLight dt l) = TrafficLight.phase l.
Proof. unfold updateLight. destruct (signalColors _). auto. Qed.

(** The colours of the if-chain: one of the two heads is always red. *)
Lemma signalColors_one_red t :
  signalOfColor (fst (signalColors t)) = RED \/
  signalOfColor (snd (signalColors t)) = RED.
Proof.
  unfold signalColors.
  repeat (destruct (JS.ltb _ _)); cbn; auto.
Qed.

(** X6: at every light that the program can hold, at least one of the two
    approaches is RED: a green or yellow approach always faces a red
    one. *)
Theorem one_approach_is_always_red (l : TrafficLight.light) :
  reachableLight l -> permissionNS l = RED \/ permissionEW l = RED.
Proof.
  intros [n rp rt H0 H1 | dt l0 Hdt Hl].
  - left. reflexivity.
  - unfold permissionNS, permissionEW, updateLight.
    pose proof (signalColors_one_red (rem (TrafficLight.timer l0 + dt) CYCLE)) as H.
    destruct (signalColors _) as [ns ew]. exact H.
Qed.

(** Advancing a non-negative timer by whole cycles keeps its place in the
    cycle. *)
Lemma rem_add_periods (x m : Q) (n : nat) :
  0 <= x -> 0 < m -> rem (x + inject_Z (Z.of_nat n) * m) m == rem x m.
Proof.
  intros Hx Hm.
  destruct (rem_decomp x m Hx Hm) as (k & Hk & E & R0 & R1).
  apply rem_unique with (k := (k + Z.of_nat n)%Z); try assumption; [lia|].
  rewrite inject_Z_plus. rewrite E at 1. ring.
Qed.

Lemma rem_Qeq (x y m : Q) : x == y -> rem x m == rem y m.
Proof.
  intros E. unfold rem, trunc.
  assert (Eq : x / m == y / m) by (now rewrite E).
  destruct (Qlt_le_dec (x / m) 0) as [Hneg|Hpos].
  - assert (Hneg' : y / m < 0) by (now rewrite <- Eq).
    assert (Hx : 0 <= - (x / m)) by lra. assert (Hy : 0 <= - (y / m)) by lra.
    assert (Ex : Z.quot (Qnum (x / m)) (Zpos (Qden (x / m)))
                 = (- Qfloor (- (x / m)))%Z).
    { rewrite <- (trunc_floor _ Hx). unfold trunc. simpl.
      rewrite Z.quot_opp_l by discriminate. lia. }
    assert (Ey : Z.quot (Qnum (y / m)) (Zpos (Qden (y / m)))
                 = (- Qfloor (- (y / m)))%Z).
    { rewrite <- (trunc_floor _ Hy). unfold trunc. simpl.
      rewrite Z.quot_opp_l by discriminate. lia. }
    rewrite Ex, Ey.
    assert (Eo : - (x / m) == - (y / m)) by (now rewrite Eq).
    rewrite (Qfloor_comp _ _ Eo), E. reflexivity.
  - assert (Hpos' : 0 <= y / m) by (now rewrite <- Eq).
    fold (trunc (x / m)). fold (trunc (y / m)).
    rewrite !trunc_floor by assumption.
    rewrite (Qfloor_comp _ _ Eq), E. reflexivity.
Qed.

(** C8 (as amended): with [T = 2 (G + Y + R) = 32], every light that
    [updateTrafficLights] has updated holds the timer advanced by [dt] and
    displays the entry of the six-phase table for its timer modulo [T];
    among updated lights the displayed pair depends on the timer through
    [timer mod T] only, and is the same for two timers that lie a whole
    number of cycles apart. *)
Theorem signal_colors_follow_cycle (dt : Q) (lights : Lights) (node : string)
        (l' : TrafficLight.light) :
  JSMap.get (updateTrafficLights dt lights) node = Some l' ->
  0 <= TrafficLight.timer l' ->
  CYCLE == 2 * (T_GREEN + T_YELLOW + T_RED_CLEAR) /\ CYCLE == 32 /\
  (exists l, JSMap.get lights node = Some l /\
             TrafficLight.timer l' = TrafficLight.timer l + dt) /\
  phaseTable T_GREEN T_YELLOW T_RED_CLEAR (rem (TrafficLight.timer l') CYCLE)
  = Some (permissionNS l', permissionEW l') /\
  (forall dt2 lights2 node2 l2,
      JSMap.get (updateTrafficLights dt2 lights2) node2 = Some l2 ->
      rem (TrafficLight.timer l2) CYCLE == rem (TrafficLight.timer l') CYCLE ->
      TrafficLight.meshNS l2 = TrafficLight.meshNS l' /\
      TrafficLight.meshEW l2 = TrafficLight.meshEW l') /\
  (forall dt2 lights2 node2 l2 (n : nat),
      JSMap.get (updateTrafficLights dt2 lights2) node2 = Some l2 ->
      TrafficLight.timer l2 == TrafficLight.timer l' + inject_Z (Z.of_nat n) * CYCLE ->
      TrafficLight.meshNS l2 = TrafficLight.meshNS l' /\
      TrafficLight.meshEW l2 = TrafficLight.meshEW l').
Proof.
  intros Hget Ht.
  assert (HC : 0 < CYCLE) by reflexivity.
  rewrite updateTrafficLights_get in Hget.
  destruct (JSMap.get lights node) as [l|] eqn:Hl; [|discriminate].
  cbn [option_map] in Hget. injection Hget as <-.
  assert (Pure : forall dt2 lights2 node2 l2,
      JSMap.get (updateTrafficLights dt2 lights2) node2 = Some l2 ->
      rem (TrafficLight.timer l2) CYCLE
      == rem (TrafficLight.timer (updateLight dt l)) CYCLE ->
      TrafficLight.meshNS l2 = TrafficLight.meshNS (updateLight dt l) /\
      TrafficLight.meshEW l2 = TrafficLight.meshEW (updateLight dt l)).
  { intros dt2 lights2 node2 l2 Hget2 E.
    rewrite updateTrafficLights_get in Hget2.
    destruct (JSMap.get lights2 node2) as [l0|]; [|discriminate].
    cbn [option_map] in Hget2. injection Hget2 as <-.
    rewrite !updateLight_timer in E. unfold updateLight.
    rewrite (signalColors_Qeq _ _ E).
    destruct (signalColors _) as [ns ew]. simpl. auto. }
  split; [reflexivity|]. split; [reflexivity|]. split; [|split; [|split]].
  - exists l. split; [reflexivity | apply updateLight_timer].
  - destruct (rem_range _ _ Ht HC) as [R0 R1].
    rewrite (signalColors_table _ R0 R1).
    rewrite updateLight_timer.
    unfold updateLight, permissionNS, permissionEW.
    destruct (signalColors _) as [ns ew]. reflexivity.
  - exact Pure.
  - intros dt2 lights2 node2 l2 n Hget2 E.
    apply (Pure dt2 lights2 node2 l2 Hget2).
    rewrite (rem_Qeq _ _ CYCLE E).
    apply rem_add_periods; assumption.
Qed.

(** C8 (as stated) fails: the displayed pair is not a function of
    [timer mod T].  A light as [buildNetwork] creates it shows NS red and
    EW green whatever its timer: at timer 5 the table says NS green and EW
    red, and that is what an updated light with timer 5 shows. *)
Lemma built_light_ignores_its_timer :
  let l0 := newLight "1_1" (1 # 2) (1 # 2) in
  let l1 := updateLight (5 # 2) (newLight "1_1" (1 # 2) (1 # 4)) in
  reachableLight l0 /\ reachableLight l1 /\
  TrafficLight.timer l0 == 5 /\ TrafficLight.timer l1 == 5 /\
  rem (TrafficLight.timer l0) CYCLE == rem (TrafficLight.timer l1) CYCLE /\
  phaseTable T_GREEN T_YELLOW T_RED_CLEAR (rem (TrafficLight.timer l0) CYCLE)
  = Some (GREEN, RED) /\
  (permissionNS l0, permissionEW l0) = (RED, GREEN) /\
  (permissionNS l1, permissionEW l1) = (GREEN, RED).
Proof.
  cbv zeta.
  assert (R0 : reachableLight (newLight "1_1" (1 # 2) (1 # 2))).
  { apply reach_new; [discriminate | reflexivity]. }
  assert (R1 : reachableLight (updateLight (5 # 2) (newLight "1_1" (1 # 2) (1 # 4)))).
  { apply reach_tick; [reflexivity|]. apply reach_new; [discriminate | reflexivity]. }
  repeat split; try assumption; reflexivity.
Qed.

(** The state that [getTrafficLightState] reads from a head colour is the
    permission that the controller wrote. *)
Lemma read_back dt (lights : Lights) (lane : Lane.lane) node d l :
  Lane.type lane = ROAD -> Lane.toNodeId lane = Some node ->
  node <> EmptyString -> Lane.direction lane = Some d ->
  JSMap.get lights node = Some l ->
  getTrafficLightState (updateTrafficLights dt lights) lane
  = match d with
    | NS => fst (permissionsAt (TrafficLight.timer l + dt))
    | EW => snd (permissionsAt (TrafficLight.timer l + dt))
    end.
Proof.
  intros Hty Hto Hne Hd Hl. unfold getTrafficLightState.
  rewrite Hty, Hto, Hd.
  assert (Ht : truthy (Some node) = true).
  { simpl. destruct (String.eqb node EmptyString) eqn:E; [|reflexivity].
    apply String.eqb_eq in E. contradiction. }
  rewrite Ht. cbn [negb].
  rewrite updateTrafficLights_get, Hl. cbn [option_map].
  pose proof (updateLight_permissions dt l) as E.
  unfold permissionNS, permissionEW in E.
  rewrite <- E. destruct d; reflexivity.
Qed.

(** X7: what a car reads at the head of a road, after the controller has
    run, is the entry of the six-phase table for the direction of the
    road at the light's new timer. *)
Theorem cars_read_the_phase_table dt (lights : Lights) (lane : Lane.lane) node d l :
  Lane.type lane = ROAD -> Lane.toNodeId lane = Some node ->
  node <> EmptyString -> Lane.direction lane = Some d ->
  JSMap.get lights node = Some l ->
  0 <= TrafficLight.timer l + dt ->
  exists ns ew,
    phaseTable T_GREEN T_YELLOW T_RED_CLEAR
               (rem (TrafficLight.timer l + dt) CYCLE) = Some (ns, ew) /\
    getTrafficLightState (updateTrafficLights dt lights) lane
    = match d with NS => ns | EW => ew end.
Proof.
  intros Hty Hto Hne Hd Hl Ht.
  rewrite (read_back dt lights lane node d l Hty Hto Hne Hd Hl).
  assert (HC : 0 < CYCLE) by reflexivity.
  destruct (rem_range _ _ Ht HC) as [R0 R1].
  rewrite (signalColors_table _ R0 R1).
  unfold permissionsAt. destruct (signalColors _) as [ns ew].
  eexists _, _. split; [reflexivity|]. destruct d; reflexivity.
Qed.

End LightFacts.

Section LightsRun.
Context {M : JSMath}.
Variable lanes : Lanes.
Variables rTarget rRespawn : nat -> nat -> Q.
Variable dt : Q.
Import JS JSFacts.
Open Scope Q_scope.

(** X8: the ticks keep the set of lights and never change the [nodeId] or
    the [phase] field of a light; and for [dt >= 0] they never take its
    timer back: the timer is only added to, it is neither reduced modulo
    the cycle nor reset. *)
Theorem light_timer_runs_on (n k : nat) (lights : Lights) (cars : list Car.car)
        L out node l :
  0 <= dt ->
  physicsSteps lanes rTarget rRespawn dt k n lights cars = Some (L, out) ->
  JSMap.get lights node = Some l ->
  JSMap.keys L = JSMap.keys lights /\
  exists l', JSMap.get L node = Some l' /\
             TrafficLight.timer l <= TrafficLight.timer l' /\
             TrafficLight.phase l' = TrafficLight.phase l /\
             TrafficLight.nodeId l' = TrafficLight.nodeId l.
Proof.
  intros Hdt. revert k lights cars l.
  induction n as [|n IH]; intros k lights cars l; cbn [physicsSteps].
  - intros [= <- <-] Hl. split; [reflexivity|].
    exists l. split; [exact Hl|]. split; [apply Qle_refl | auto].
  - destruct (updatePhysics lanes (rTarget k) (rRespawn k) dt lights cars)
      as [[L1 C1]|] eqn:E1; cbn [bind fst snd]; [|discriminate].
    intros Hrest Hl.
    assert (EL : L1 = updateTrafficLights dt lights).
    { unfold updatePhysics in E1.
      destruct (pass1 _ _ _ _ cars) as [c1|]; cbn [bind] in E1; [|discriminate].
      destruct (pass2 _ _ dt c1) as [c2|]; cbn [bind] in E1; [|discriminate].
      now injection E1 as <- _. }
    subst L1.
    assert (Hl1 : JSMap.get (updateTrafficLights dt lights) node
                  = Some (updateLight dt l)).
    { now rewrite updateTrafficLights_get, Hl. }
    destruct (IH _ _ _ _ Hrest Hl1) as (Hk & l' & Hl' & Ht & Hp & Hn).
    split; [now rewrite Hk, updateTrafficLights_keys|].
    exists l'. split; [exact Hl'|].
    destruct (updateLight_fields dt l) as [E2 E3].
    rewrite updateLight_timer in Ht. rewrite Hp, Hn, E2, E3.
    split; [lra | auto].
Qed.

End LightsRun.
(** ** The built network as a map *)

Section MapOfJunctions.
Context {M : JSMath}.
Variable roads : Lanes.
Variable n : nat.
Hypothesis Hwf : RoadsWF roads n.

(** Every entry of the map that the junction loop leaves is a road, with
    the successors pushed onto it, or the junction of two connecting
    roads. *)
Lemma entry_cases k l :
  In (k, l) (buildJunctions roads) ->
  JSMap.get (buildJunctions roads) k = Some l /\
  ((exists l0, In (k, l0) roads /\ sameCore l l0) \/
   (exists a b, In a (JSMap.values roads) /\ In b (JSMap.values roads) /\
                connects a b /\ tooSharp a b = false /\
                k = junctionId a b /\ l = newJunction a b)).
Proof.
  destruct (buildJunctions_spec roads n Hwf) as ((Hnd & HA & HB) & _).
  revert Hnd HA HB. generalize (buildJunctions roads).
  intros net Hnd HA HB Hin.
  pose proof (JSMapFacts.In_get_NoDup _ _ _ _ Hnd Hin) as Hg.
  split; [exact Hg|].
  destruct (JSMap.get roads k) as [l0|] eqn:Hr.
  - left. apply JSMapFacts.get_In in Hr.
    destruct (HA _ _ Hr) as (l' & Hl' & Hc).
    exists l0. split; [exact Hr|]. congruence.
  - right. destruct (HB k l Hg Hr) as (a & b & la & Ha & Hb & Hc & Hs & Ek & El & _).
    exists a, b. repeat split; auto.
Qed.

Lemma entry_id k l : In (k, l) (buildJunctions roads) -> Lane.id l = k.
Proof.
  intros Hin.
  destruct (entry_cases k l Hin)
    as [_ [(l0 & Hl0 & Hc)|(a & b & _ & _ & _ & _ & -> & ->)]].
  - destruct Hwf as [_ Hall]. destruct (Hall _ _ Hl0) as (_ & E & _).
    destruct Hc as (E' & _). congruence.
  - reflexivity.
Qed.

Lemma lookup_by_id l :
  In l (JSMap.values (buildJunctions roads)) ->
  JSMap.get (buildJunctions roads) (Lane.id l) = Some l.
Proof.
  intros Hin. destruct (In_values_entry _ _ _ Hin) as (k & Hk).
  rewrite (entry_id _ _ Hk). exact (proj1 (entry_cases k l Hk)).
Qed.

(** What holds of every road holds of the ROAD lanes of the map, as far
    as it concerns the node and the direction; junctions have neither. *)
Lemma lane_signal_fields (P : option string -> option Direction -> Prop) l :
  (forall k l0, In (k, l0) roads -> P (Lane.toNodeId l0) (Lane.direction l0)) ->
  In l (JSMap.values (buildJunctions roads)) ->
  match Lane.type l with
  | ROAD => P (Lane.toNodeId l) (Lane.direction l)
  | JUNCTION => Lane.toNodeId l = None /\ Lane.direction l = None
  end.
Proof.
  intros HP Hin. destruct (In_values_entry _ _ _ Hin) as (k & Hk).
  destruct (entry_cases k l Hk)
    as [_ [(l0 & Hl0 & Hc)|(a & b & _ & _ & _ & _ & _ & ->)]].
  - destruct Hwf as [_ Hall]. destruct (Hall _ _ Hl0) as (Ety & _).
    destruct Hc as (_ & Et & _ & _ & _ & Eto & Edir).
    rewrite Et, Ety, Eto, Edir. eapply HP; eauto.
  - cbn. auto.
Qed.

End MapOfJunctions.

Section BuiltMap.
Context {M : JSMath}.
Import JS JSFacts.
Open Scope Q_scope.

(** X2: every lane of the built network is stored under its own id, and no
    two lanes share an id: looking a lane up by its id finds that lane. *)
Theorem built_lanes_are_keyed_by_id (rPhase rTimer : nat -> nat -> Q)
        (l : Lane.lane) :
  let net := fst (buildNetwork rPhase rTimer) in
  NoDup (JSMap.keys net) /\
  (forall k l', In (k, l') net -> Lane.id l' = k) /\
  (In l (JSMap.values net) -> JSMap.get net (Lane.id l) = Some l).
Proof.
  cbv zeta. unfold buildNetwork, fst.
  split; [|split].
  - exact (proj1 (proj1 (buildJunctions_spec buildRoads 9 buildRoads_wf))).
  - exact (entry_id buildRoads 9 buildRoads_wf).
  - exact (lookup_by_id buildRoads 9 buildRoads_wf l).
Qed.

Lemma buildRoads_signalled (rPhase rTimer : nat -> nat -> Q) k l0 :
  In (k, l0) buildRoads ->
  exists node d light,
    Lane.toNodeId l0 = Some node /\ node <> EmptyString /\
    Lane.direction l0 = Some d /\
    JSMap.get (buildLights rPhase rTimer) node = Some light.
Proof.
  assert (H : forallb (fun kl =>
                match Lane.toNodeId (snd kl), Lane.direction (snd kl) with
                | Some node, Some _ =>
                    negb (String.eqb node EmptyString) &&
                    JSMap.has (buildLights rPhase rTimer) node
                | _, _ => false
                end) buildRoads = true) by reflexivity.
  revert H. generalize (buildLights rPhase rTimer), buildRoads.
  intros lights roads H.
  rewrite forallb_forall in H. intros Hin. specialize (H _ Hin). cbn [snd] in H.
  destruct (Lane.toNodeId l0) as [node|]; [|discriminate].
  destruct (Lane.direction l0) as [d|]; [|discriminate].
  apply andb_true_iff in H. destruct H as [H1 H2].
  unfold JSMap.has in H2.
  destruct (JSMap.get lights node) as [light|] eqn:E; [|discriminate].
  exists node, d, light. repeat split; auto.
  intros ->. discriminate H1.
Qed.

(** X3: every ROAD lane of the built network leads to a node that has a
    traffic light, and has a direction; a JUNCTION lane names neither. *)
Theorem built_roads_face_a_light (rPhase rTimer : nat -> nat -> Q)
        (lane : Lane.lane) :
  In lane (JSMap.values (fst (buildNetwork rPhase rTimer))) ->
  match Lane.type lane with
  | ROAD =>
      exists node d light,
        Lane.toNodeId lane = Some node /\ node <> EmptyString /\
        Lane.direction lane = Some d /\
        JSMap.get (snd (buildNetwork rPhase rTimer)) node = Some light
  | JUNCTION => Lane.toNodeId lane = None /\ Lane.direction lane = None
  end.
Proof.
  unfold buildNetwork, fst, snd.
  exact (lane_signal_fields buildRoads 9 buildRoads_wf
           (fun o od => exists node d light,
                o = Some node /\ node <> EmptyString /\ od = Some d /\
                JSMap.get (buildLights rPhase rTimer) node = Some light)
           lane (buildRoads_signalled rPhase rTimer)).
Qed.

End BuiltMap.
(** ** The successor links of the built network *)

Section SuccessorFacts.
Context {M : JSMath}.
Variable roads : Lanes.
Variable n : nat.
Hypothesis Hwf : RoadsWF roads n.
Hypothesis Hfresh : forall k l0, In (k, l0) roads -> Lane.nextLanes l0 = [].

Lemma successorsInv_init : successorsInv roads roads.
Proof.
  intros k l0 l s Hk Hg Hs.
  destruct (road_entry roads n Hwf k l0 Hk) as (_ & _ & _ & Gk).
  assert (l = l0) by congruence. subst l.
  rewrite (Hfresh _ _ Hk) in Hs. destruct Hs.
Qed.

(** What one turn of the inner loop does to a road of the map. *)
Lemma junctionStep_road inKey inLane m o k l0 lm l :
  junctionsInv roads m -> In (inKey, inLane) roads -> known roads o ->
  In (k, l0) roads -> JSMap.get m k = Some lm ->
  JSMap.get (junctionStep inKey inLane m o) k = Some l ->
  l = lm \/
  (k = inKey /\
   exists o0, In o0 (JSMap.values roads) /\ sameCore o o0 /\
              connects inLane o0 /\ tooSharp inLane o0 = false /\
              l = Lane.pushNext lm (junctionId inLane o0)).
Proof.
  intros Hinv Hin Hknown Hk Hlm. unfold junctionStep.
  destruct (LaneType_eqb (Lane.type o) ROAD) eqn:Et; simpl;
    [|intros; left; congruence].
  apply LaneType_eqb_ROAD in Et.
  destruct Hknown as [Hnot|(o0 & Ho0 & Hcore)]; [contradiction|].
  destruct (sameCore_junction inLane o o0 Hcore) as (Ej & EJ & Es & Ep).
  destruct (startsWith (Lane.id o) (fromPrefix inLane)) eqn:Epre;
    [|intros; left; congruence].
  destruct (tooSharp inLane o) eqn:Esharp; [intros; left; congruence|].
  destruct (road_entry roads n Hwf _ _ Hin) as (Tin & Idin & Lin & Gin).
  destruct (road_entry roads n Hwf _ _ Hk) as (_ & _ & _ & Gk).
  destruct (road_value roads n Hwf _ Ho0) as (_ & _ & Lo0).
  assert (Lin' : String.length (Lane.id inLane) = n) by congruence.
  pose proof (junctionId_not_road roads n Hwf inLane o0 Lin' Lo0) as Hjr.
  rewrite Ej, EJ.
  rewrite get_modify, JSMapFacts.get_set_other
    by (intros E; rewrite <- E in Gk; congruence).
  rewrite Hlm. destruct (String.eqb inKey k) eqn:Ek; simpl.
  - apply String.eqb_eq in Ek. intros [= <-]. right. split; [auto|].
    exists o0. split; [exact Ho0|]. split; [exact Hcore|].
    split; [unfold connects; congruence|]. split; [congruence | reflexivity].
  - intros [= <-]. now left.
Qed.

Lemma junctionStep_successors inKey inLane m o :
  junctionsInv roads m -> successorsInv roads m ->
  In (inKey, inLane) roads -> known roads o ->
  successorsInv roads (junctionStep inKey inLane m o).
Proof.
  intros Hinv Hsucc Hin Hknown k l0 l s Hk Hg Hs.
  destruct (proj1 (proj2 Hinv) k l0 Hk) as (lm & Hlm & Hc).
  assert (Hl0 : In l0 (JSMap.values roads)) by (eapply entry_In_values; eauto).
  assert (Hold : forall s', In s' (Lane.nextLanes lm) ->
            exists b, In b (JSMap.values roads) /\ connects l0 b /\
                      tooSharp l0 b = false /\ s' = junctionId l0 b /\
                      hasJunction (junctionStep inKey inLane m o) l0 b).
  { intros s' Hs'.
    destruct (Hsucc k l0 lm s' Hk Hlm Hs') as (b & Hb & Hcon & Hsh & Es & Hj).
    exists b. repeat split; auto.
    apply junctionStep_keeps with (roads := roads) (n := n); auto. }
  destruct (junctionStep_road inKey inLane m o k l0 lm l Hinv Hin Hknown Hk Hlm Hg)
    as [->|(-> & o0 & Ho0 & Hcore & Hcon & Hsh & ->)].
  - now apply Hold.
  - destruct (road_entry roads n Hwf _ _ Hin) as (_ & _ & _ & Gin).
    destruct (road_entry roads n Hwf _ _ Hk) as (_ & _ & _ & Gk).
    assert (inLane = l0) by congruence. subst inLane.
    cbn [Lane.pushNext Lane.nextLanes] in Hs.
    apply in_app_or in Hs. destruct Hs as [Hs|[<-|[]]].
    + now apply Hold.
    + exists o0. repeat split; auto.
      apply junctionStep_creates with (roads := roads) (n := n); auto.
Qed.

Lemma inner_loop_successors inKey inLane (L : list Lane.lane) :
  In (inKey, inLane) roads ->
  forall m, junctionsInv roads m -> successorsInv roads m ->
            Forall (known roads) L ->
  junctionsInv roads (fold_left (junctionStep inKey inLane) L m) /\
  successorsInv roads (fold_left (junctionStep inKey inLane) L m).
Proof.
  intros Hin. induction L as [|o L IH]; intros m Hinv Hsucc HL; cbn [fold_left].
  - auto.
  - inversion HL as [|? ? Ho HL']; subst.
    apply IH; [| |exact HL'].
    + apply junctionStep_inv with (n := n); auto.
    + apply junctionStep_successors; auto.
Qed.

Lemma outer_loop_successors (E : list (string * Lane.lane)) :
  (forall e, In e E -> In e roads) ->
  forall m, junctionsInv roads m -> successorsInv roads m ->
  junctionsInv roads (fold_left junctionsFrom E m) /\
  successorsInv roads (fold_left junctionsFrom E m).
Proof.
  induction E as [|[inKey inLane] E IH]; intros HE m Hinv Hsucc; cbn [fold_left].
  - auto.
  - assert (Hin : In (inKey, inLane) roads) by (apply HE; now left).
    assert (Hstep : junctionsInv roads (junctionsFrom m (inKey, inLane)) /\
                    successorsInv roads (junctionsFrom m (inKey, inLane))).
    { unfold junctionsFrom.
      destruct (negb (LaneType_eqb (Lane.type inLane) ROAD)); [auto|].
      apply inner_loop_successors; auto.
      apply Forall_forall. intros o Ho.
      apply junctionsInv_known with (m := m); auto. }
    destruct Hstep as [A B].
    apply IH; auto. intros e He. apply HE. now right.
Qed.

Lemma buildJunctions_successors :
  successorsInv roads (buildJunctions roads).
Proof.
  unfold buildJunctions.
  apply outer_loop_successors; auto.
  - apply junctionsInv_init with (n := n); auto.
  - apply successorsInv_init.
Qed.

(** The successors that a lane of the map lists resolve: a road leads on
    to junctions that start from it, and a junction to a road. *)
Lemma successors_resolve (l : Lane.lane) (s : string) :
  In l (JSMap.values (buildJunctions roads)) -> In s (Lane.nextLanes l) ->
  exists l', JSMap.get (buildJunctions roads) s = Some l' /\ Lane.id l' = s /\
             match Lane.type l with
             | ROAD => Lane.type l' = JUNCTION /\ Lane.prevLanes l' = [Lane.id l]
             | JUNCTION => Lane.type l' = ROAD
             end.
Proof.
  intros Hin Hs.
  destruct (In_values_entry _ _ _ Hin) as (k & Hk).
  pose proof buildJunctions_successors as Hsucc.
  destruct (buildJunctions_spec roads n Hwf) as ((_ & HA & _) & _).
  destruct (entry_cases roads n Hwf k l Hk)
    as [Hg [(l0 & Hl0 & Hc)|(a & b & Ha & Hb & _ & _ & -> & ->)]].
  - destruct (Hsucc k l0 l s Hl0 Hg Hs) as (b & Hb & _ & _ & -> & Hj).
    destruct Hwf as [_ Hall]. destruct (Hall _ _ Hl0) as (Ety & _).
    destruct Hc as (Eid & Et & _).
    exists (newJunction l0 b). split; [exact Hj|]. split; [reflexivity|].
    rewrite Et, Ety, Eid. split; reflexivity.
  - cbn [newJunction Lane.nextLanes] in Hs. destruct Hs as [<-|[]].
    destruct (In_values_entry _ _ _ Hb) as (kb & Hkb).
    destruct Hwf as [_ Hall]. destruct (Hall _ _ Hkb) as (Ety & Eid & _).
    destruct (HA _ _ Hkb) as (l' & Hl' & (Eid' & Et' & _)).
    exists l'. rewrite Eid. split; [exact Hl'|]. split; [congruence|].
    cbn. congruence.
Qed.

End SuccessorFacts.

Section BuiltLinks.
Context {M : JSMath}.

Lemma buildRoads_fresh k l0 : In (k, l0) buildRoads -> Lane.nextLanes l0 = [].
Proof.
  assert (H : forallb (fun kl => match Lane.nextLanes (snd kl) with
                                 | [] => true
                                 | _ => false
                                 end) buildRoads = true) by reflexivity.
  revert H. generalize buildRoads. intros roads H.
  rewrite forallb_forall in H. intros Hin. specialize (H _ Hin).
  simpl in H. destruct (Lane.nextLanes l0); [reflexivity | discriminate].
Qed.

(** X4: every successor that a lane of the built network lists is the id
    of a lane of the network: a road leads on to junctions that start from
    it, and a junction leads on to a road. *)
Theorem built_successors_resolve (rPhase rTimer : nat -> nat -> Q)
        (l : Lane.lane) (s : string) :
  let net := fst (buildNetwork rPhase rTimer) in
  In l (JSMap.values net) -> In s (Lane.nextLanes l) ->
  exists l', JSMap.get net s = Some l' /\ Lane.id l' = s /\
             match Lane.type l with
             | ROAD => Lane.type l' = JUNCTION /\ Lane.prevLanes l' = [Lane.id l]
             | JUNCTION => Lane.type l' = ROAD
             end.
Proof.
  cbv zeta. unfold buildNetwork, fst.
  exact (successors_resolve buildRoads 9 buildRoads_wf buildRoads_fresh l s).
Qed.

End BuiltLinks.
(** ** The gesture service *)

Section GestureFacts.
Context {M : JSMath}.
Import JS JSFacts GestureService.
Open Scope Q_scope.

(** [Math.max(0, Math.min(1, r))] lies in [[0, 1]]. *)
Lemma clamp_unit r : 0 <= Math_max 0 (Math_min 1 r) /\ Math_max 0 (Math_min 1 r) <= 1.
Proof.
  split; [apply Math_max_l|].
  destruct (Math_max_spec 0 (Math_min 1 r)) as [[_ ->]|[_ ->]]; [|lra].
  destruct (Math_min_spec 1 r) as [[_ ->]|[H ->]]; lra.
Qed.

(** What [fallback] returns. *)
Lemma fallback_spec s :
  let '(r, s') := fallback s in
  isDetected r = false /\ openness r = lastOpenness s /\
  lastOpenness s' = lastOpenness s /\ lastVideoTime s' = lastVideoTime s /\
  rx r = lastX s' /\ ry r = lastY s' /\
  lastX s' - 0.5 == 0.95 * (lastX s - 0.5) /\
  lastY s' - 0.5 == 0.95 * (lastY s - 0.5).
Proof. unfold fallback. cbn. repeat split; ring. Qed.

(** What [track] returns. *)
Lemma track_spec landmarks wrist middleMcp s :
  let '(r, s') := track landmarks wrist middleMcp s in
  isDetected r = true /\ openness r = lastOpenness s' /\
  lastVideoTime s' = lastVideoTime s /\
  rx r = lastX s' /\ ry r = lastY s' /\
  lastX s' == 0.6 * lastX s + 0.4 * (1 - x wrist) /\
  lastY s' == 0.6 * lastY s + 0.4 * y wrist /\
  (opennessInRange s -> opennessInRange s').
Proof.
  unfold track.
  destruct (JS.ltb (distanceFrom wrist middleMcp) 0.001).
  - cbn. repeat split; try ring; apply H.
  - destruct (fold_left _ _ _) as [totalTipDist valid].
    set (rawOpen := Math_max 0 (Math_min 1 _)).
    destruct (clamp_unit ((((if Z.ltb 0 valid then totalTipDist / inject_Z valid else 0)
                            / distanceFrom wrist middleMcp) - 0.7) / (1.8 - 0.7)))
      as [C0 C1].
    fold rawOpen in C0, C1.
    cbn. repeat split; try ring; destruct H as [H0 H1]; cbn; lra.
Qed.

(** Every call of [detect] either falls back, possibly after it has noted
    the time of the video frame, or tracks the wrist of the first hand. *)
Lemma detect_cases env s :
  (exists s0, detect env s = fallback s0 /\
              lastOpenness s0 = lastOpenness s /\
              lastX s0 = lastX s /\ lastY s0 = lastY s /\
              (lastVideoTime s0 = lastVideoTime s \/
               exists v, video env = Some v /\ lastVideoTime s0 = currentTime v)) \/
  (exists v landmarks rest wrist middleMcp,
      video env = Some v /\
      detectForVideo env = Result (Some (landmarks :: rest)) /\
      nth_error landmarks 0 = Some wrist /\
      detect env s
      = track landmarks wrist middleMcp
              (mkState (currentTime v) (lastOpenness s) (lastX s) (lastY s))).
Proof.
  assert (Hsame : exists s0, fallback s = fallback s0 /\
              lastOpenness s0 = lastOpenness s /\
              lastX s0 = lastX s /\ lastY s0 = lastY s /\
              (lastVideoTime s0 = lastVideoTime s \/
               exists v, video env = Some v /\ lastVideoTime s0 = currentTime v)).
  { exists s. repeat split; auto. }
  unfold detect.
  destruct (handLandmarker env); cbn [negb]; [|left; exact Hsame].
  destruct (video env) as [v|] eqn:Ev; [|left; exact Hsame].
  destruct (paused v || ended v || Z.ltb (readyState v) 2 || Z.ltb (videoWidth v) 1);
    [left; exact Hsame|].
  destruct (JS.eqb (currentTime v) (lastVideoTime s)); [left; exact Hsame|].
  assert (Hnoted : exists s0,
              fallback (mkState (currentTime v) (lastOpenness s) (lastX s) (lastY s))
              = fallback s0 /\
              lastOpenness s0 = lastOpenness s /\
              lastX s0 = lastX s /\ lastY s0 = lastY s /\
              (lastVideoTime s0 = lastVideoTime s \/
               exists v', Some v = Some v' /\ lastVideoTime s0 = currentTime v')).
  { eexists. split; [reflexivity|]. cbn. repeat split; auto. right. eauto. }
  destruct (detectForVideo env) as [|[[|landmarks rest]|]]; try (left; exact Hnoted).
  destruct (nth_error landmarks 0) as [wrist|] eqn:Ew; [|left; exact Hnoted].
  destruct (nth_error landmarks 9) as [middleMcp|]; [|left; exact Hnoted].
  right. exists v, landmarks, rest, wrist, middleMcp. auto.
Qed.

Lemma detect_openness env s :
  opennessInRange s ->
  opennessInRange (snd (detect env s)) /\
  openness (fst (detect env s)) = lastOpenness (snd (detect env s)).
Proof.
  intros Hs.
  destruct (detect_cases env s)
    as [(s0 & -> & E & _)|(v & lm & rest & w & mcp & _ & _ & _ & ->)].
  - pose proof (fallback_spec s0) as F. destruct (fallback s0) as [r s'].
    destruct F as (_ & F1 & F2 & _). cbn [fst snd].
    unfold opennessInRange. rewrite F1, F2, E. auto.
  - pose proof (track_spec lm w mcp
                  (mkState (currentTime v) (lastOpenness s) (lastX s) (lastY s))) as T.
    destruct (track _ _ _ _) as [r s']. destruct T as (_ & T1 & _ & _ & _ & _ & _ & T2).
    cbn [fst snd]. split; [apply T2; exact Hs | exact T1].
Qed.

Lemma initial_in_range : opennessInRange initial /\ pointerInRange initial.
Proof. unfold opennessInRange, pointerInRange. cbn. repeat split; lra. Qed.

(** X24: whatever the tracker reports, the openness that [detect] returns
    is always between 0 and 1. *)
Theorem openness_is_always_a_fraction (envs : list Env) :
  Forall (fun r => 0 <= openness r /\ openness r <= 1) (detectAll envs initial).
Proof.
  assert (G : forall s, opennessInRange s ->
            Forall (fun r => 0 <= openness r /\ openness r <= 1) (detectAll envs s)).
  { induction envs as [|env envs IH]; intros s Hs; cbn [detectAll].
    - constructor.
    - destruct (detect_openness env s Hs) as [H1 H2].
      destruct (detect env s) as [r s']. cbn [fst snd] in *.
      constructor; [rewrite H2; exact H1 | apply IH; exact H1]. }
  apply G. apply initial_in_range.
Qed.

Lemma track_time landmarks wrist middleMcp s :
  lastVideoTime (snd (track landmarks wrist middleMcp s)) = lastVideoTime s.
Proof.
  pose proof (track_spec landmarks wrist middleMcp s) as T.
  destruct (track _ _ _ _) as [r s']. now destruct T as (_ & _ & T2 & _).
Qed.

(** A call that gets as far as the time test leaves the time of the video
    frame in [lastVideoTime]. *)
Lemma detect_notes_frame env s v :
  handLandmarker env = true -> video env = Some v ->
  paused v || ended v || Z.ltb (readyState v) 2 || Z.ltb (videoWidth v) 1 = false ->
  JS.eqb (currentTime v) (lastVideoTime (snd (detect env s))) = true.
Proof.
  intros Eh Ev Ep. unfold detect. rewrite Eh, Ev, Ep. cbn [negb].
  assert (Hrefl : JS.eqb (currentTime v) (currentTime v) = true)
    by (apply eqb_eq; reflexivity).
  destruct (JS.eqb (currentTime v) (lastVideoTime s)) eqn:E0; [exact E0|].
  destruct (detectForVideo env) as [|[[|landmarks rest]|]]; try exact Hrefl.
  destruct (nth_error landmarks 0) as [wrist|]; [|exact Hrefl].
  destruct (nth_error landmarks 9) as [mcp|]; [|exact Hrefl].
  rewrite track_time. exact Hrefl.
Qed.

(** X25: once a call of [detect] has passed the readiness tests (tracker
    loaded, video present, playing, ready and of positive width), the next
    call at the same [currentTime] of the video never reports a hand,
    whatever the tracker would return and whatever else has changed: the
    tracker runs once per frame of the video.  (A call that returns at the
    readiness tests does not note the frame.) *)
Theorem second_poll_reports_no_hand (env1 env2 : Env) (s : State) (v1 : Video) :
  handLandmarker env1 = true -> video env1 = Some v1 ->
  paused v1 || ended v1 || Z.ltb (readyState v1) 2 || Z.ltb (videoWidth v1) 1 = false ->
  (forall v2, video env2 = Some v2 -> currentTime v2 == currentTime v1) ->
  isDetected (fst (detect env2 (snd (detect env1 s)))) = false.
Proof.
  intros Eh Ev Ep Hsame.
  pose proof (detect_notes_frame env1 s v1 Eh Ev Ep) as Hnoted.
  apply eqb_eq in Hnoted.
  set (s1 := snd (detect env1 s)) in *.
  unfold detect.
  destruct (handLandmarker env2); cbn [negb]; [|reflexivity].
  destruct (video env2) as [v2|] eqn:Ev2; [|reflexivity].
  destruct (paused v2 || ended v2 || Z.ltb (readyState v2) 2 || Z.ltb (videoWidth v2) 1);
    [reflexivity|].
  assert (E : JS.eqb (currentTime v2) (lastVideoTime s1) = true).
  { apply eqb_eq. rewrite (Hsame v2 eq_refl). exact Hnoted. }
  rewrite E. reflexivity.
Qed.

(** X26: a call that reports no hand moves the pointer a twentieth of the
    way back to the centre and holds the openness. *)
Theorem no_hand_drifts_to_centre (env : Env) (s : State) :
  isDetected (fst (detect env s)) = false ->
  let r := fst (detect env s) in
  rx r - 0.5 == 0.95 * (lastX s - 0.5) /\
  ry r - 0.5 == 0.95 * (lastY s - 0.5) /\
  openness r = lastOpenness s.
Proof.
  intros Hd. cbv zeta. revert Hd.
  destruct (detect_cases env s)
    as [(s0 & -> & E1 & E2 & E3 & _)|(v & lm & rest & w & mcp & _ & _ & _ & ->)].
  - intros _. pose proof (fallback_spec s0) as F. destruct (fallback s0) as [r s'].
    destruct F as (_ & F1 & _ & _ & F4 & F5 & F6 & F7). cbn [fst].
    rewrite F4, F5, F6, F7, F1, E1, E2, E3. repeat split; reflexivity.
  - pose proof (track_spec lm w mcp
                  (mkState (currentTime v) (lastOpenness s) (lastX s) (lastY s))) as T.
    destruct (track _ _ _ _) as [r s']. destruct T as (T0 & _). cbn [fst].
    congruence.
Qed.

Lemma detect_pointer env s :
  wristInFrame env -> pointerInRange s ->
  pointerInRange (snd (detect env s)) /\
  rx (fst (detect env s)) = lastX (snd (detect env s)) /\
  ry (fst (detect env s)) = lastY (snd (detect env s)).
Proof.
  intros Hw (X0 & X1 & Y0 & Y1).
  destruct (detect_cases env s)
    as [(s0 & -> & _ & E2 & E3 & _)|(v & lm & rest & w & mcp & _ & Ed & Ew & ->)].
  - pose proof (fallback_spec s0) as F. destruct (fallback s0) as [r s'].
    destruct F as (_ & _ & _ & _ & F4 & F5 & F6 & F7). cbn [fst snd].
    rewrite E2 in F6. rewrite E3 in F7.
    split; [|auto]. unfold pointerInRange. repeat split; lra.
  - unfold wristInFrame in Hw. rewrite Ed, Ew in Hw.
    destruct Hw as (W0 & W1 & W2 & W3).
    pose proof (track_spec lm w mcp
                  (mkState (currentTime v) (lastOpenness s) (lastX s) (lastY s))) as T.
    destruct (track _ _ _ _) as [r s'].
    destruct T as (_ & _ & _ & T3 & T4 & T5 & T6 & _). cbn [fst snd].
    cbn [lastX lastY] in T5, T6.
    split; [|auto]. unfold pointerInRange. repeat split; lra.
Qed.

(** X27: as long as the wrist that the tracker reports lies in the image,
    the pointer that [detect] returns stays in the unit square. *)
Theorem pointer_stays_in_the_unit_square (envs : list Env) :
  Forall wristInFrame envs ->
  Forall (fun r => 0 <= rx r /\ rx r <= 1 /\ 0 <= ry r /\ ry r <= 1)
         (detectAll envs initial).
Proof.
  assert (G : forall s, pointerInRange s -> Forall wristInFrame envs ->
            Forall (fun r => 0 <= rx r /\ rx r <= 1 /\ 0 <= ry r /\ ry r <= 1)
                   (detectAll envs s)).
  { induction envs as [|env envs IH]; intros s Hs Hall; cbn [detectAll].
    - constructor.
    - inversion Hall as [|? ? Hw Hall']; subst.
      destruct (detect_pointer env s Hw Hs) as (H1 & H2 & H3).
      destruct (detect env s) as [r s']. cbn [fst snd] in *.
      constructor; [rewrite H2, H3; exact H1 | apply IH; assumption]. }
  apply G. unfold pointerInRange. cbn. lra.
Qed.

(** X28: while a hand is tracked the pointer moves two fifths of the way
    from where it was to the mirror image of the wrist. *)
Theorem pointer_follows_the_mirrored_wrist (env : Env) (s : State)
        landmarks rest wrist :
  detectForVideo env = Result (Some (landmarks :: rest)) ->
  nth_error landmarks 0 = Some wrist ->
  isDetected (fst (detect env s)) = true ->
  rx (fst (detect env s)) == lastX s + 0.4 * ((1 - x wrist) - lastX s) /\
  ry (fst (detect env s)) == lastY s + 0.4 * (y wrist - lastY s).
Proof.
  intros Ed Ew.
  destruct (detect_cases env s)
    as [(s0 & -> & _)|(v & lm & rest' & w & mcp & _ & Ed' & Ew' & ->)].
  - pose proof (fallback_spec s0) as F. destruct (fallback s0) as [r s'].
    destruct F as (F0 & _). cbn [fst]. congruence.
  - rewrite Ed in Ed'. injection Ed' as <- <-.
    rewrite Ew in Ew'. injection Ew' as <-.
    pose proof (track_spec landmarks wrist mcp
                  (mkState (currentTime v) (lastOpenness s) (lastX s) (lastY s))) as T.
    destruct (track _ _ _ _) as [r s'].
    destruct T as (_ & _ & _ & T3 & T4 & T5 & T6 & _). cbn [fst].
    cbn [lastX lastY] in T5, T6. intros _. rewrite T3, T4, T5, T6. split; ring.
Qed.

End GestureFacts.
(** ** The animation frame *)

Section FrameFacts.
Import JS JSFacts.
Open Scope Q_scope.

Lemma frameTimeOf_range now lastTime :
  lastTime <= now ->
  0 <= frameTimeOf now lastTime /\ frameTimeOf now lastTime <= 0.1 /\
  (lastTime < now -> 0 < frameTimeOf now lastTime) /\
  (100 <= now - lastTime -> frameTimeOf now lastTime == 0.1).
Proof.
  intros H. unfold frameTimeOf.
  assert (E : (now - lastTime) / 1000 * 1000 == now - lastTime) by field.
  set (d := (now - lastTime) / 1000) in *.
  destruct (Math_min_spec d 0.1) as [[H1 ->]|[H1 ->]];
    repeat split; lra.
Qed.

(** X21: the frame rate that a frame reports is never below 10, because the
    frame time is capped at a tenth of a second: a frame that took 100 ms
    or longer reports exactly 10. *)
Theorem reported_fps_is_at_least_ten (now lastTime : Q) :
  lastTime < now ->
  exists f, fpsOf (frameTimeOf now lastTime) = Some f /\ (10 <= f)%Z /\
            (100 <= now - lastTime -> f = 10%Z).
Proof.
  intros H.
  destruct (frameTimeOf_range now lastTime) as (F0 & F1 & F2 & F3); [lra|].
  specialize (F2 H).
  set (ft := frameTimeOf now lastTime) in *.
  unfold fpsOf.
  destruct (JS.eqb ft 0) eqn:E; [apply eqb_eq in E; lra|].
  eexists. split; [reflexivity|]. unfold Math_round. split.
  - assert (Hq : 10 <= 1 / ft).
    { apply Qle_shift_div_l; [exact F2 | lra]. }
    change 10%Z with (Qfloor 10). apply Qfloor_resp_le.
    change (1 / 2) with (1 # 2).
    set (x := 1 / ft) in *. clearbody x. lra.
  - intros H100. specialize (F3 H100).
    assert (E10 : 1 / ft + 1 / 2 == 10 + (1 # 2)) by (rewrite F3; reflexivity).
    rewrite (Qfloor_comp _ _ E10). reflexivity.
Qed.

Lemma cameraOpenness_range g :
  0 <= GestureService.openness g -> GestureService.openness g <= 1 ->
  0 <= cameraOpenness g /\ cameraOpenness g <= 1.
Proof.
  intros H0 H1. unfold cameraOpenness.
  destruct (GestureService.isDetected g); lra.
Qed.

Lemma cameraHeight_range g y :
  0 <= GestureService.openness g -> GestureService.openness g <= 1 ->
  hMin <= y -> y <= hMax ->
  hMin <= cameraHeight g y /\ cameraHeight g y <= hMax.
Proof.
  intros H0 H1 Y0 Y1.
  destruct (cameraOpenness_range g H0 H1) as [O0 O1].
  unfold cameraHeight, targetH, hMin, hMax, camAlpha in *.
  set (o := cameraOpenness g) in *. split; nra.
Qed.

End FrameFacts.

Section CameraFacts.
Context {M : JSMath}.
Import JS JSFacts.
Open Scope Q_scope.

(** X22: whatever the tracker reports, the height of the camera stays
    between [hMin = 80] and [hMax = 600]. *)
Theorem camera_height_stays_in_range (envs : list GestureService.Env) (y : Q) :
  hMin <= y -> y <= hMax ->
  Forall (fun y' => hMin <= y' /\ y' <= hMax)
         (cameraHeights (GestureService.detectAll envs GestureService.initial) y).
Proof.
  assert (G : forall s y0,
            opennessInRange s -> hMin <= y0 -> y0 <= hMax ->
            Forall (fun y' => hMin <= y' /\ y' <= hMax)
                   (cameraHeights (GestureService.detectAll envs s) y0)).
  { induction envs as [|env envs IH]; intros s y0 Hs Y0 Y1;
      cbn [GestureService.detectAll].
    - constructor.
    - destruct (detect_openness env s Hs) as [[H0 H1] H2].
      destruct (GestureService.detect env s) as [g s']. cbn [fst snd] in *.
      cbn [cameraHeights]. rewrite <- H2 in H0, H1.
      destruct (cameraHeight_range g y0 H0 H1 Y0 Y1) as [C0 C1].
      constructor; [auto|]. apply IH; auto.
      unfold opennessInRange. rewrite <- H2. auto. }
  apply G. apply initial_in_range.
Qed.

End CameraFacts.
(** ** From the build to the ticks *)

Section WholeRun.
Context {M : JSMath}.
Import JS JSFacts.
Open Scope Q_scope.

(** X5: on a map without a ROAD lane [initCars] throws: the lane it picks
    is [undefined]. *)
Theorem initCars_throws_without_roads (lanes : Lanes) (rLane rPos : nat -> Q) :
  startLanesOf lanes = [] -> initCars lanes rLane rPos = None.
Proof.
  intros E. unfold initCars. rewrite E.
  change (seq 0 CAR_COUNT) with (0%nat :: seq 1 (CAR_COUNT - 1)).
  cbn [initCarsFrom]. unfold nthZ.
  destruct (Z.ltb _ 0); [reflexivity|].
  destruct (Z.to_nat _); reflexivity.
Qed.

(** A car that [initCars] has just created satisfies the invariant of the
    ticks, on a map that stores every lane under its id. *)
Lemma fresh_CarOK (lanes : Lanes) (dt : Q) (c : Car.car) :
  (forall l, In l (JSMap.values lanes) -> JSMap.get lanes (Lane.id l) = Some l) ->
  0 <= dt -> freshOn lanes c -> CarOK lanes dt c.
Proof.
  intros Hkey Hdt (l & Hl & _ & Eid & T0 & _ & T1 & Ev & V0 & _ & Et).
  exists l. rewrite Eid. split; [now apply Hkey|].
  split; [exact T0|]. split; [exact T1|]. split; [lra|].
  split.
  - rewrite Ev. assert (E7 : IDM_V0 / 2 == 7) by reflexivity. rewrite E7.
    unfold speedCap, IDM_V0, IDM_A.
    assert (0 <= 1.5 * dt) by (apply Qmult_le_0_compat; lra). lra.
  - intros Ht. rewrite Et in Ht. discriminate Ht.
Qed.

Lemma buildJunctions_has_road (roads : Lanes) (n : nat) :
  RoadsWF roads n -> roads <> [] -> startLanesOf (buildJunctions roads) <> [].
Proof.
  intros Hwf Hne.
  destruct roads as [|[k l0] rest] eqn:Er; [contradiction|]. rewrite <- Er in *.
  assert (Hin : In (k, l0) roads) by (rewrite Er; now left).
  destruct (buildJunctions_spec roads n Hwf) as ((_ & HA & _) & _).
  destruct (HA k l0 Hin) as (l & Hl & (_ & Et & _)).
  destruct Hwf as [_ Hall]. destruct (Hall _ _ Hin) as (Ety & _).
  intros E.
  assert (Hs : In l (startLanesOf (buildJunctions roads))).
  { apply startLanesOf_spec. split; [eapply get_In_values; eauto | congruence]. }
  rewrite E in Hs. exact Hs.
Qed.

Lemma buildRoads_nonempty : buildRoads <> [].
Proof.
  assert (H : match buildRoads with [] => false | _ => true end = true)
    by reflexivity.
  revert H. generalize buildRoads. intros roads H ->. discriminate H.
Qed.

(** X23: the program as a whole: on the built network, if its lanes are
    longer than one tick of travel, [initCars] and any number of ticks
    complete without throwing, whatever [Math.random] draws; the cars keep
    their ids [0 .. CAR_COUNT - 1], stay on existing lanes and within the
    speed cap. *)
Theorem simulation_never_throws (dt : Q) (rPhase rTimer : nat -> nat -> Q)
        (rLane rPos : nat -> Q) (rTarget rRespawn : nat -> nat -> Q) (n : nat) :
  0 <= dt ->
  WFNet (fst (buildNetwork rPhase rTimer)) dt ->
  (forall i, 0 <= rLane i /\ rLane i < 1) ->
  (forall i, 0 <= rPos i /\ rPos i < 1) ->
  (forall k i, 0 <= rRespawn k i /\ rRespawn k i < 1) ->
  exists cars L out,
    initCars (fst (buildNetwork rPhase rTimer)) rLane rPos = Some cars /\
    physicsSteps (fst (buildNetwork rPhase rTimer)) rTarget rRespawn dt 0 n
                 (snd (buildNetwork rPhase rTimer)) cars = Some (L, out) /\
    map Car.id out = seq 0 CAR_COUNT /\
    forall c, In c out ->
      exists l, JSMap.get (fst (buildNetwork rPhase rTimer)) (Car.laneId c) = Some l /\
                0 <= Car.t c /\ Car.t c < Lane.len l /\
                0 <= Car.v c /\ Car.v c <= speedCap dt.
Proof.
  unfold buildNetwork, fst, snd.
  pose proof (buildJunctions_has_road buildRoads 9 buildRoads_wf buildRoads_nonempty)
    as Hroad.
  pose proof (lookup_by_id buildRoads 9 buildRoads_wf) as Hkey.
  revert Hroad Hkey.
  generalize (buildJunctions buildRoads), (buildLights rPhase rTimer).
  intros net lights Hroad Hkey Hdt HWF HrL HrP HrR.
  assert (Hlen : forall l, In l (startLanesOf net) -> 0 < Lane.len l).
  { intros l Hl. apply startLanesOf_spec in Hl. destruct Hl as [Hl _].
    destruct HWF as [HW _]. exact (proj1 (HW l Hl)). }
  destruct (initCarsFrom_spec net rLane rPos (seq 0 CAR_COUNT) Hroad Hlen HrL HrP)
    as (cars & Einit & Hid & Hfresh).
  assert (Hok : Forall (CarOK net dt) cars).
  { apply Forall_forall. intros c Hc. rewrite Forall_forall in Hfresh.
    apply fresh_CarOK; auto. }
  destruct (physicsSteps_keep_CarOK net rTarget rRespawn dt Hdt HWF HrR n 0%nat
              lights cars Hok) as (L & out & Erun & Eid & Hout).
  exists cars, L, out. split; [exact Einit|]. split; [exact Erun|].
  split.
  - now rewrite Eid.
  - intros c Hc. rewrite Forall_forall in Hout.
    destruct (Hout c Hc) as (l & Hl & T0 & T1 & V0 & V1 & _).
    exists l. auto.
Qed.

End WholeRun.
(** ** The per-lane lists, the leader and the look-ahead *)

Section LaneLists.
Import JS JSFacts.
Open Scope Q_scope.

(** X9: [carsByLane] holds, for every lane that has a car, the cars of
    that lane, each once, from the front of the lane to the back; a lane
    without a car has no entry. *)
Theorem lane_lists_partition_and_sort (cars : list Car.car) (k : string) :
  match JSMap.get (carsByLaneOf cars) k with
  | Some p =>
      p <> [] /\ NoDup p /\ StronglySorted (aheadOrLevel cars) p /\
      forall j, In j p <->
                exists d, nth_error cars j = Some d /\ Car.laneId d = k
  | None => forall d, In d cars -> Car.laneId d <> k
  end.
Proof.
  destruct (JSMap.get (carsByLaneOf cars) k) as [p|] eqn:Hp.
  - pose proof (carsByLaneOf_members cars k p) as Hmem.
    rewrite carsByLaneOf_get in Hp.
    destruct (idxOn cars 0 k) as [|i0 r] eqn:E; [discriminate|].
    pose proof (sortByT_perm cars (i0 :: r)) as Hperm.
    pose proof (sortByT_sorted cars (i0 :: r)) as Hsorted.
    assert (Ep : sortByT cars (i0 :: r) = p) by congruence.
    rewrite Ep in Hperm, Hsorted. clear Hp.
    split.
    + intros E0. rewrite E0 in Hperm. apply Permutation_nil in Hperm. discriminate.
    + split.
      * apply (Permutation_NoDup (Permutation_sym Hperm)).
        rewrite <- E. apply idxOn_NoDup.
      * split; [exact Hsorted|].
        intros j. apply Hmem. rewrite carsByLaneOf_get, E. now rewrite Ep.
  - rewrite carsByLaneOf_get in Hp.
    destruct (idxOn cars 0 k) as [|i0 r] eqn:E; [|discriminate].
    intros d Hd Ek. destruct (In_nth_error _ _ Hd) as (j & Hj).
    assert (Hin : In j (idxOn cars 0 k)).
    { apply idxOn_spec. exists d. rewrite Nat.sub_0_r. auto with arith. }
    rewrite E in Hin. destruct Hin.
Qed.

(** X10: when no two cars are at one position of one lane, the leader of a
    car is the nearest car ahead of it on its lane, and a car without a
    leader is the front car of its lane. *)
Theorem leader_is_nearest_car_ahead (cars : list Car.car) (i : nat) (c : Car.car) :
  distinctPositions cars -> nth_error cars i = Some c ->
  (forall j, leaderOf (carsByLaneOf cars) c i = Some j ->
     exists r, nth_error cars j = Some r /\ Car.laneId r = Car.laneId c /\
               Car.t c < Car.t r /\
               forall d, In d cars -> Car.laneId d = Car.laneId c ->
                         Car.t c < Car.t d -> Car.t r <= Car.t d) /\
  (leaderOf (carsByLaneOf cars) c i = None ->
   forall d, In d cars -> Car.laneId d = Car.laneId c -> Car.t d <= Car.t c).
Proof.
  intros Hd Hi. pose proof (leaderOf_spec cars Hd i c Hi) as H.
  destruct (leaderOf (carsByLaneOf cars) c i) as [j|].
  - split; [|discriminate]. intros j' [= <-]. exact H.
  - split; [discriminate|]. intros _. exact H.
Qed.

(** X11: the car that the look-ahead finds on the target lane is the
    rearmost car of that lane; it finds none only when the car has no
    target or the target lane is empty. *)
Theorem lookahead_sees_rearmost_car (cars : list Car.car) (tgt : option string) :
  (forall r, lastCarOn (carsByLaneOf cars) cars tgt = Some r ->
     In r cars /\ Car.laneId r = strOf tgt /\
     forall d, In d cars -> Car.laneId d = strOf tgt -> Car.t r <= Car.t d) /\
  (lastCarOn (carsByLaneOf cars) cars tgt = None ->
   truthy tgt = false \/ forall d, In d cars -> Car.laneId d <> strOf tgt).
Proof.
  pose proof (lastCarOn_spec cars tgt) as H.
  destruct (lastCarOn (carsByLaneOf cars) cars tgt) as [r|].
  - split; [|discriminate]. intros r' [= <-]. tauto.
  - split; [discriminate|]. intros _. exact H.
Qed.

End LaneLists.

Section PassOne.
Context {M : JSMath}.
Variable lanes : Lanes.
Variable rTarget : nat -> Q.
Import JS JSFacts.
Open Scope Q_scope.

(** X12: pass 1 moves no car: it leaves every car in its place in the
    array, on its lane and at its position, and changes a speed only to
    0. *)
Theorem pass1_moves_no_car byLane lights (cars cars1 : list Car.car) :
  pass1 lanes rTarget byLane lights cars = Some cars1 ->
  List.length cars1 = List.length cars /\
  forall i c, nth_error cars i = Some c ->
    exists c1, nth_error cars1 i = Some c1 /\
               Car.id c1 = Car.id c /\ Car.laneId c1 = Car.laneId c /\
               Car.t c1 = Car.t c /\ (Car.v c1 = Car.v c \/ Car.v c1 = 0).
Proof.
  intros Hrun. split; [exact (forEach_length _ _ _ Hrun)|].
  intros i c Hi.
  destruct (pass1_pointwise lanes rTarget byLane lights cars cars1 i c Hi Hrun)
    as (p0 & p & _ & _ & _ & Hc1).
  exists (decide c p). split; [exact Hc1|].
  rewrite decide_id, decide_laneId, decide_t.
  repeat split. unfold decide. destruct (JS.ltb _ _); cbn; auto.
Qed.

End PassOne.

Section LightsOfTheGrid.
Context {M : JSMath}.
Import JS JSFacts.
Open Scope Q_scope.

(** X1: the build creates one light for every cell of the grid, nine in
    all, stored under the id of the cell and holding the draws made for
    that cell: its timer is ten times the timer draw, its [phase] is one
    of 0 .. 5, and its heads start NS red and EW green. *)
Theorem lights_cover_the_grid (rPhase rTimer : nat -> nat -> Q) (x z : nat) :
  (x < GRID_SIZE)%nat -> (z < GRID_SIZE)%nat ->
  0 <= rPhase x z -> rPhase x z < 1 ->
  List.length (snd (buildNetwork rPhase rTimer)) = (GRID_SIZE * GRID_SIZE)%nat /\
  exists light,
    JSMap.get (snd (buildNetwork rPhase rTimer)) (nodeIdOf x z) = Some light /\
    TrafficLight.nodeId light = nodeIdOf x z /\
    TrafficLight.timer light = rTimer x z * 10 /\
    TrafficLight.phase light = Math_floor (rPhase x z * 6) /\
    (0 <= TrafficLight.phase light <= 5)%Z /\
    permissionNS light = RED /\ permissionEW light = GREEN.
Proof.
  intros Hx Hz R0 R1. unfold buildNetwork, snd. split; [reflexivity|].
  exists (newLight (nodeIdOf x z) (rPhase x z) (rTimer x z)).
  split.
  - unfold GRID_SIZE in *.
    destruct x as [|[|[|x]]]; [| | |lia];
      (destruct z as [|[|[|z]]]; [| | |lia]); reflexivity.
  - cbn [newLight TrafficLight.nodeId TrafficLight.timer TrafficLight.phase].
    repeat split; try reflexivity.
    + unfold Math_floor. change 0%Z with (Qfloor 0). apply Qfloor_resp_le. lra.
    + assert (H : (Math_floor (rPhase x z * 6) < 6)%Z).
      { unfold Math_floor. rewrite Zlt_Qlt.
        eapply Qle_lt_trans; [apply Qfloor_le|]. change (inject_Z 6) with 6. lra. }
      lia.
Qed.

End LightsOfTheGrid.

(** ** The rules of the road in the city *)

Section CityRules.
Import JS JSFacts.
Open Scope Q_scope.

Lemma noDeadEndb_noDeadEnd (lanes : Lanes) :
  noDeadEndb lanes = true -> noDeadEnd lanes.
Proof.
  unfold noDeadEndb, noDeadEnd. rewrite forallb_forall.
  intros H l Hl E. specialize (H l Hl). rewrite E in H. discriminate H.
Qed.

Lemma cityLanes_no_dead_end : noDeadEnd cityLanes.
Proof. apply noDeadEndb_noDeadEnd. lazy. reflexivity. Qed.

(** The road from node [0_0] to node [1_0]: it runs east-west, and its
    first successor is the junction on to node [2_0]. *)
Lemma city_first_road_fields :
  exists l, JSMap.get cityLanes "R_0_0_1_0" = Some l /\
            Lane.type l = ROAD /\ Lane.toNodeId l = Some "1_0"%string /\
            Lane.direction l = Some EW /\
            In "J_R_0_0_1_0_R_1_0_2_0"%string (Lane.nextLanes l).
Proof.
  eexists. split; [lazy; reflexivity|].
  split; [reflexivity|]. split; [reflexivity|]. split; [reflexivity|].
  left. reflexivity.
Qed.

(** After the first tick the east-west approach of node [1_0] is red. *)
Lemma city_signal_closed (l : Lane.lane) :
  Lane.type l = ROAD -> Lane.toNodeId l = Some "1_0"%string ->
  Lane.direction l = Some EW ->
  getTrafficLightState (updateTrafficLights PHYSICS_DT cityLights) l = RED.
Proof.
  intros Hty Hto Hdir. unfold getTrafficLightState. rewrite Hty, Hto, Hdir.
  vm_compute. reflexivity.
Qed.

Lemma city_step_is_short : speedCap PHYSICS_DT * PHYSICS_DT < MIN_GAP + 2.
Proof. reflexivity. Qed.

Lemma queue_routed : Forall (CarRouted cityLanes) queue.
Proof.
  repeat constructor; intros l _ H; discriminate H.
Qed.

Lemma closed_signal_holds_cars_witness :
  exists l L out c',
    JSMap.get cityLanes "R_0_0_1_0" = Some l /\
    cityTick queue = Some (L, out) /\
    nth_error out 0 = Some c' /\
    Car.laneId c' = Car.laneId queueFront /\
    Car.t queueFront <= Car.t c' /\ Car.t c' < Lane.len l.
Proof.
  destruct city_first_road_fields as (l & Hl & Hty & Hto & Hdir & _).
  assert (Hsig : getTrafficLightState (updateTrafficLights PHYSICS_DT cityLights) l
                 <> GREEN).
  { rewrite (city_signal_closed l Hty Hto Hdir). discriminate. }
  destruct (closed_signal_holds_cars (M := approxMath) cityLanes carDraw carDraw
              PHYSICS_DT cityLights queue 0 queueFront l
              ltac:(discriminate) city_step_is_short cityLanes_wellFormed
              carDraw_range queue_ok eq_refl Hl Hty Hsig)
    as (L & out & c' & H).
  exists l, L, out, c'. split; [exact Hl | exact H].
Defined.

Lemma follower_never_passes_leader_witness :
  Car.laneId queueFront = Car.laneId queueMiddle /\
  Car.t queueMiddle <= Car.t queueFront /\
  exists L out c',
    cityTick queue = Some (L, out) /\
    nth_error out 1 = Some c' /\
    Car.laneId c' = Car.laneId queueMiddle /\
    Car.t queueMiddle <= Car.t c' /\ Car.t c' <= Car.t queueFront.
Proof.
  apply (follower_never_passes_leader (M := approxMath) cityLanes carDraw carDraw
           PHYSICS_DT cityLights queue 1 queueMiddle 0 queueFront).
  - discriminate.
  - discriminate.
  - exact cityLanes_wellFormed.
  - exact carDraw_range.
  - exact queue_ok.
  - reflexivity.
  - reflexivity.
  - reflexivity.
Defined.

Lemma cars_follow_the_network_witness :
  exists L out,
    cityTick queue = Some (L, out) /\
    Forall (CarOK cityLanes PHYSICS_DT) out /\
    Forall (CarRouted cityLanes) out /\
    forall i c l, nth_error queue i = Some c ->
      JSMap.get cityLanes (Car.laneId c) = Some l ->
      exists c', nth_error out i = Some c' /\
        ((Car.laneId c' = Car.laneId c /\ Car.t c <= Car.t c') \/
         (In (Car.laneId c') (Lane.nextLanes l) /\ Car.targetLaneId c' = None /\
          0 <= Car.t c' /\ Car.t c' < speedCap PHYSICS_DT * PHYSICS_DT)).
Proof.
  apply (cars_follow_the_network (M := approxMath) cityLanes carDraw carDraw
           PHYSICS_DT).
  - discriminate.
  - exact cityLanes_wellFormed.
  - exact cityLanes_no_dead_end.
  - exact carDraw_range.
  - exact city_step_is_short.
  - exact carDraw_range.
  - exact queue_ok.
  - exact queue_routed.
Defined.

Lemma tick_throws_on_unknown_lane_witness :
  updatePhysics (M := approxMath) JSMap.empty carDraw carDraw PHYSICS_DT
                cityLights [strayCar] = None.
Proof.
  apply (tick_throws_on_unknown_lane (M := approxMath) JSMap.empty carDraw carDraw
           PHYSICS_DT cityLights [strayCar] strayCar).
  - left. reflexivity.
  - reflexivity.
Defined.

Lemma city_run (n : nat) (cars : list Car.car) :
  Forall (CarOK cityLanes PHYSICS_DT) cars ->
  exists L out,
    physicsSteps (M := approxMath) cityLanes (fun _ => carDraw) (fun _ => carDraw)
                 PHYSICS_DT 0 n cityLights cars = Some (L, out) /\
    map Car.id out = map Car.id cars.
Proof.
  intros Hall.
  destruct (physicsSteps_keep_CarOK (M := approxMath) cityLanes
              (fun _ => carDraw) (fun _ => carDraw) PHYSICS_DT
              ltac:(discriminate) cityLanes_wellFormed (fun _ => carDraw_range)
              n 0%nat cityLights cars Hall) as (L & out & E & HL & _).
  eauto.
Qed.

Lemma ticks_conserve_cars_witness :
  exists L out,
    physicsSteps (M := approxMath) cityLanes (fun _ => carDraw) (fun _ => carDraw)
                 PHYSICS_DT 0 600 cityLights queue = Some (L, out) /\
    List.length out = List.length queue /\
    map Car.id out = map Car.id queue /\
    map Car.active out = map Car.active queue.
Proof.
  destruct (city_run 600 queue queue_ok) as (L & out & E & _).
  exists L, out. split; [exact E|].
  exact (ticks_conserve_cars (M := approxMath) cityLanes (fun _ => carDraw)
           (fun _ => carDraw) PHYSICS_DT 0 600 cityLights queue L out E).
Defined.

Lemma speed_stays_within_cap_witness :
  exists L out,
    physicsSteps (M := approxMath) cityLanes (fun _ => carDraw) (fun _ => carDraw)
                 PHYSICS_DT 0 600 cityLights queue = Some (L, out) /\
    forall c, In c out ->
      0 <= Car.v c /\ Car.v c <= IDM_V0 + IDM_A * PHYSICS_DT /\
      (forall s, Car.targetLaneId c = Some s -> s <> EmptyString ->
                 exists l, JSMap.get cityLanes s = Some l).
Proof.
  apply (speed_stays_within_cap (M := approxMath) cityLanes (fun _ => carDraw)
           (fun _ => carDraw) PHYSICS_DT).
  - discriminate.
  - exact cityLanes_wellFormed.
  - intros _. exact carDraw_range.
  - exact queue_ok.
Defined.

Lemma restingCar_ok : Forall (CarOK cityLanes PHYSICS_DT) [restingCar].
Proof.
  destruct cityLanes_first_road as (l & Hl & Hlen & _).
  constructor; [|constructor].
  exists l. cbn [Car.laneId Car.t Car.v Car.targetLaneId restingCar].
  split; [exact Hl|]. split; [discriminate|]. split; [rewrite Hlen; reflexivity|].
  split; [discriminate|]. split; [discriminate|].
  intros Ht. discriminate Ht.
Qed.

Lemma car_at_rest_moves_off_witness :
  exists p0 L out c',
    perceive cityLanes carDraw (carsByLaneOf [restingCar])
             (updateTrafficLights PHYSICS_DT cityLights) [restingCar] 0 restingCar
    = Some p0 /\
    cityTick [restingCar] = Some (L, out) /\
    nth_error out 0 = Some c' /\
    (0 < Car.v c' <-> IDM_S0 < gap p0) /\ (Car.v c' == 0 <-> gap p0 <= IDM_S0).
Proof.
  destruct (tick_keeps_cars_on_lanes (M := approxMath) cityLanes carDraw carDraw
              PHYSICS_DT ltac:(discriminate) cityLanes_wellFormed carDraw_range
              cityLights [restingCar] restingCar_ok) as (L & out & E & HL & _).
  destruct (tick_pointwise (M := approxMath) cityLanes carDraw carDraw PHYSICS_DT
              cityLights [restingCar] 0 restingCar L out eq_refl E)
    as (p0 & _ & c' & Hp0 & _ & _ & _ & Hc').
  exists p0, L, out, c'.
  split; [exact Hp0|]. split; [exact E|]. split; [exact Hc'|].
  exact (car_at_rest_moves_off (M := approxMath) cityLanes carDraw carDraw
           PHYSICS_DT cityLights [restingCar] 0 restingCar p0 L out c'
           ltac:(reflexivity) eq_refl ltac:(reflexivity) Hp0 E Hc').
Defined.

End CityRules.
(** ** Signals, links, frames and gestures on concrete runs *)

Section CityInstances.
Import JS JSFacts.
Open Scope Q_scope.

Lemma one_approach_is_always_red_witness :
  let l := updateLight PHYSICS_DT (newLight "1_1" (1 # 2) (1 # 2)) in
  permissionNS l = RED \/ permissionEW l = RED.
Proof.
  apply one_approach_is_always_red.
  apply reach_tick; [reflexivity|].
  apply reach_new; [discriminate | reflexivity].
Defined.

Lemma city_light_1_0 :
  exists light, JSMap.get cityLights "1_0" = Some light /\
                TrafficLight.timer light == 5.
Proof. eexists. split; [reflexivity | reflexivity]. Qed.

Lemma signal_colors_follow_cycle_witness :
  exists l',
    JSMap.get (updateTrafficLights PHYSICS_DT cityLights) "1_0" = Some l' /\
    (exists l, JSMap.get cityLights "1_0" = Some l /\
               TrafficLight.timer l' = TrafficLight.timer l + PHYSICS_DT) /\
    phaseTable T_GREEN T_YELLOW T_RED_CLEAR (rem (TrafficLight.timer l') CYCLE)
    = Some (permissionNS l', permissionEW l').
Proof.
  eexists. split; [reflexivity|].
  refine ((fun H => conj (proj1 (proj2 (proj2 H)))
                         (proj1 (proj2 (proj2 (proj2 H)))))
            (signal_colors_follow_cycle PHYSICS_DT cityLights "1_0" _ eq_refl _)).
  discriminate.
Defined.

Lemma cars_read_the_phase_table_witness :
  exists l light ns ew,
    JSMap.get cityLanes "R_0_0_1_0" = Some l /\
    JSMap.get cityLights "1_0" = Some light /\
    phaseTable T_GREEN T_YELLOW T_RED_CLEAR
               (rem (TrafficLight.timer light + PHYSICS_DT) CYCLE) = Some (ns, ew) /\
    getTrafficLightState (updateTrafficLights PHYSICS_DT cityLights) l = ew.
Proof.
  destruct city_first_road_fields as (l & Hl & Hty & Hto & Hdir & _).
  destruct city_light_1_0 as (light & Hlight & Ht).
  assert (H0 : 0 <= TrafficLight.timer light + PHYSICS_DT).
  { rewrite Ht. discriminate. }
  destruct (cars_read_the_phase_table PHYSICS_DT cityLights l "1_0" EW light
              Hty Hto ltac:(discriminate) Hdir Hlight H0) as (ns & ew & H).
  exists l, light, ns, ew. split; [exact Hl|]. split; [exact Hlight | exact H].
Defined.

Lemma light_timer_runs_on_witness :
  exists L out light,
    physicsSteps (M := approxMath) cityLanes (fun _ => carDraw) (fun _ => carDraw)
                 PHYSICS_DT 0 600 cityLights queue = Some (L, out) /\
    JSMap.get cityLights "1_0" = Some light /\
    JSMap.keys L = JSMap.keys cityLights /\
    exists l', JSMap.get L "1_0" = Some l' /\
               TrafficLight.timer light <= TrafficLight.timer l' /\
               TrafficLight.phase l' = TrafficLight.phase light /\
               TrafficLight.nodeId l' = TrafficLight.nodeId light.
Proof.
  destruct (city_run 600 queue queue_ok) as (L & out & E & _).
  destruct city_light_1_0 as (light & Hlight & _).
  exists L, out, light. split; [exact E|]. split; [exact Hlight|].
  exact (light_timer_runs_on (M := approxMath) cityLanes (fun _ => carDraw)
           (fun _ => carDraw) PHYSICS_DT 600 0 cityLights queue L out "1_0" light
           ltac:(discriminate) E Hlight).
Defined.

Lemma city_is_built :
  fst (buildNetwork (M := approxMath) cityDraw cityDraw) = cityLanes.
Proof. unfold buildNetwork, cityLanes. cbn [fst]. reflexivity. Qed.

Lemma city_first_road_in_network :
  exists l, In l (JSMap.values (fst (buildNetwork (M := approxMath) cityDraw cityDraw))) /\
            Lane.type l = ROAD /\
            In "J_R_0_0_1_0_R_1_0_2_0"%string (Lane.nextLanes l).
Proof.
  destruct city_first_road_fields as (l & Hl & Hty & _ & _ & Hs).
  exists l. rewrite city_is_built.
  split; [exact (get_In_values cityLanes _ l Hl) | auto].
Qed.

Lemma built_roads_face_a_light_witness :
  exists l node d light,
    In l (JSMap.values (fst (buildNetwork (M := approxMath) cityDraw cityDraw))) /\
    Lane.toNodeId l = Some node /\ node <> EmptyString /\
    Lane.direction l = Some d /\
    JSMap.get (snd (buildNetwork (M := approxMath) cityDraw cityDraw)) node
    = Some light.
Proof.
  destruct city_first_road_in_network as (l & Hin & Hty & _).
  pose proof (built_roads_face_a_light (M := approxMath) cityDraw cityDraw l Hin) as H.
  rewrite Hty in H. destruct H as (node & d & light & H).
  exists l, node, d, light. split; [exact Hin | exact H].
Defined.

Lemma built_successors_resolve_witness :
  exists l l',
    In l (JSMap.values (fst (buildNetwork (M := approxMath) cityDraw cityDraw))) /\
    JSMap.get (fst (buildNetwork (M := approxMath) cityDraw cityDraw))
              "J_R_0_0_1_0_R_1_0_2_0" = Some l' /\
    Lane.id l' = "J_R_0_0_1_0_R_1_0_2_0"%string /\
    Lane.type l' = JUNCTION /\ Lane.prevLanes l' = [Lane.id l].
Proof.
  destruct city_first_road_in_network as (l & Hin & Hty & Hs).
  pose proof (built_successors_resolve (M := approxMath) cityDraw cityDraw l
                "J_R_0_0_1_0_R_1_0_2_0" Hin Hs) as H.
  cbv zeta in H. rewrite Hty in H. destruct H as (l' & H1 & H2 & H3 & H4).
  exists l, l'.
  split; [exact Hin|]. split; [exact H1|]. split; [exact H2|].
  split; [exact H3 | exact H4].
Defined.

Lemma initCars_throws_without_roads_witness :
  initCars JSMap.empty carDraw carDraw = None.
Proof.
  apply (initCars_throws_without_roads JSMap.empty carDraw carDraw). reflexivity.
Defined.

Lemma simulation_never_throws_witness :
  exists cars L out,
    initCars (fst (buildNetwork (M := approxMath) cityDraw cityDraw)) carDraw carDraw
    = Some cars /\
    physicsSteps (M := approxMath)
                 (fst (buildNetwork (M := approxMath) cityDraw cityDraw))
                 (fun _ => carDraw) (fun _ => carDraw) PHYSICS_DT 0 600
                 (snd (buildNetwork (M := approxMath) cityDraw cityDraw)) cars
    = Some (L, out) /\
    map Car.id out = seq 0 CAR_COUNT /\
    forall c, In c out ->
      exists l, JSMap.get (fst (buildNetwork (M := approxMath) cityDraw cityDraw))
                          (Car.laneId c) = Some l /\
                0 <= Car.t c /\ Car.t c < Lane.len l /\
                0 <= Car.v c /\ Car.v c <= speedCap PHYSICS_DT.
Proof.
  apply (simulation_never_throws (M := approxMath) PHYSICS_DT cityDraw cityDraw
           carDraw carDraw (fun _ => carDraw) (fun _ => carDraw) 600).
  - discriminate.
  - rewrite city_is_built. exact cityLanes_wellFormed.
  - exact carDraw_range.
  - exact carDraw_range.
  - intros _. exact carDraw_range.
Defined.

Lemma reported_fps_is_at_least_ten_witness :
  exists f, fpsOf (frameTimeOf 250 0) = Some f /\ (10 <= f)%Z /\
            (100 <= 250 - 0 -> f = 10%Z).
Proof.
  apply (reported_fps_is_at_least_ten 250 0). reflexivity.
Defined.

Lemma camera_height_stays_in_range_witness :
  Forall (fun y' => hMin <= y' /\ y' <= hMax)
         (cameraHeights
            (GestureService.detectAll (M := approxMath)
               [handEnv 1; handEnv 1; loadingEnv] GestureService.initial) 500).
Proof.
  apply (camera_height_stays_in_range (M := approxMath)
           [handEnv 1; handEnv 1; loadingEnv] 500); discriminate.
Defined.

Lemma second_poll_reports_no_hand_witness :
  GestureService.isDetected
    (fst (GestureService.detect (M := approxMath) (handEnv 1)
            (snd (GestureService.detect (M := approxMath) (emptyFrameEnv 1)
                    GestureService.initial)))) = false.
Proof.
  apply (second_poll_reports_no_hand (M := approxMath) (emptyFrameEnv 1) (handEnv 1)
           GestureService.initial (playing 1)); try reflexivity.
  intros v2 [= <-]. reflexivity.
Defined.

Lemma no_hand_drifts_to_centre_witness :
  let r := fst (GestureService.detect (M := approxMath) loadingEnv
                  GestureService.initial) in
  GestureService.rx r - 0.5 == 0.95 * (GestureService.lastX GestureService.initial - 0.5) /\
  GestureService.ry r - 0.5 == 0.95 * (GestureService.lastY GestureService.initial - 0.5) /\
  GestureService.openness r
  = GestureService.lastOpenness GestureService.initial.
Proof.
  apply (no_hand_drifts_to_centre (M := approxMath) loadingEnv GestureService.initial).
  reflexivity.
Defined.

Lemma handEnv_in_frame t : wristInFrame (handEnv t).
Proof. unfold wristInFrame. cbn. repeat split; discriminate. Qed.

Lemma pointer_stays_in_the_unit_square_witness :
  Forall (fun r => 0 <= GestureService.rx r /\ GestureService.rx r <= 1 /\
                   0 <= GestureService.ry r /\ GestureService.ry r <= 1)
         (GestureService.detectAll (M := approxMath)
            [handEnv 1; handEnv 2; loadingEnv] GestureService.initial).
Proof.
  apply (pointer_stays_in_the_unit_square (M := approxMath)
           [handEnv 1; handEnv 2; loadingEnv]).
  constructor; [apply handEnv_in_frame|].
  constructor; [apply handEnv_in_frame|].
  constructor; [exact I | constructor].
Defined.

Lemma pointer_follows_the_mirrored_wrist_witness :
  GestureService.rx (fst (GestureService.detect (M := approxMath) (handEnv 1)
                            GestureService.initial))
  == GestureService.lastX GestureService.initial
     + 0.4 * ((1 - 0.5) - GestureService.lastX GestureService.initial) /\
  GestureService.ry (fst (GestureService.detect (M := approxMath) (handEnv 1)
                            GestureService.initial))
  == GestureService.lastY GestureService.initial
     + 0.4 * ((0.8 - 0.03 * inject_Z (Z.of_nat 0))
              - GestureService.lastY GestureService.initial).
Proof.
  apply (pointer_follows_the_mirrored_wrist (M := approxMath) (handEnv 1)
           GestureService.initial handLandmarks []
           (GestureService.mkLandmark 0.5 (0.8 - 0.03 * inject_Z (Z.of_nat 0)) 0)).
  - reflexivity.
  - reflexivity.
  - vm_compute. reflexivity.
Defined.

End CityInstances.

(** ** The lane lists and the lights of the city *)

Section LaneInstances.
Import JS JSFacts.
Open Scope Q_scope.

Lemma leader_is_nearest_car_ahead_witness :
  (forall j, leaderOf (carsByLaneOf pair) pairFollower 1 = Some j ->
     exists r, nth_error pair j = Some r /\
               Car.laneId r = Car.laneId pairFollower /\
               Car.t pairFollower < Car.t r /\
               forall d, In d pair -> Car.laneId d = Car.laneId pairFollower ->
                         Car.t pairFollower < Car.t d -> Car.t r <= Car.t d) /\
  (leaderOf (carsByLaneOf pair) pairFollower 1 = None ->
   forall d, In d pair -> Car.laneId d = Car.laneId pairFollower ->
             Car.t d <= Car.t pairFollower).
Proof.
  apply (leader_is_nearest_car_ahead pair 1 pairFollower).
  - exact pair_distinct.
  - reflexivity.
Defined.

Lemma pass1_moves_no_car_witness :
  exists cars1,
    pass1 (M := approxMath) cityLanes carDraw (carsByLaneOf queue)
          (updateTrafficLights PHYSICS_DT cityLights) queue = Some cars1 /\
    List.length cars1 = List.length queue /\
    forall i c, nth_error queue i = Some c ->
      exists c1, nth_error cars1 i = Some c1 /\
                 Car.id c1 = Car.id c /\ Car.laneId c1 = Car.laneId c /\
                 Car.t c1 = Car.t c /\ (Car.v c1 = Car.v c \/ Car.v c1 = 0).
Proof.
  destruct (pass1_total (M := approxMath) cityLanes carDraw PHYSICS_DT
              ltac:(discriminate) cityLanes_wellFormed (carsByLaneOf queue)
              (updateTrafficLights PHYSICS_DT cityLights) queue
              (carsByLaneOf_valid queue) queue_ok) as (cars1 & E & _).
  exists cars1. split; [exact E|].
  exact (pass1_moves_no_car (M := approxMath) cityLanes carDraw (carsByLaneOf queue)
           (updateTrafficLights PHYSICS_DT cityLights) queue cars1 E).
Defined.

Lemma lights_cover_the_grid_witness :
  List.length (snd (buildNetwork (M := approxMath) cityDraw cityDraw))
  = (GRID_SIZE * GRID_SIZE)%nat /\
  exists light,
    JSMap.get (snd (buildNetwork (M := approxMath) cityDraw cityDraw)) (nodeIdOf 1 2)
    = Some light /\
    TrafficLight.nodeId light = nodeIdOf 1 2 /\
    TrafficLight.timer light = cityDraw 1%nat 2%nat * 10 /\
    TrafficLight.phase light = Math_floor (cityDraw 1%nat 2%nat * 6) /\
    (0 <= TrafficLight.phase light <= 5)%Z /\
    permissionNS light = RED /\ permissionEW light = GREEN.
Proof.
  apply (lights_cover_the_grid (M := approxMath) cityDraw cityDraw 1 2).
  - unfold GRID_SIZE. lia.
  - unfold GRID_SIZE. lia.
  - discriminate.
  - reflexivity.
Defined.

End LaneInstances.
